(** * Spherical-surface locomotion controller: model and verification

    The development embeds the fixed-tick game loop of the planet demo
    (the variant with jump buffering, combo jumps and the boomerang enemy):
    [resetPlayer], [projectOnPlane], [updateEnemyAndBoomerang],
    [physicsStep], [render], [loop] and the input listeners.  Of the other
    scripts of the repository it embeds the tick of src/main.ts, the
    smoothed input and [surfaceUpFromLatLng] of the smoothed variant, and
    the projectile of the second script with a boomerang.

    Numbers.  JavaScript numbers are modelled as real numbers ([R]), that
    is, arithmetic is exact: rounding and overflow of IEEE doubles are out
    of the model.  The only non-finite value the program stores,
    [Number.POSITIVE_INFINITY] in [comboTimer], is modelled explicitly
    ([JsNum]).  Where the outcome of a comparison would turn on that
    rounding (a timer that reaches its bound exactly, an accumulator at a
    multiple of the step), a statement keeps its inputs away from the
    boundary by a hypothesis.

    three.js.  [Vector3] methods are modelled by what the library computes
    (the in-place mutation of the receiver is turned into value passing).

    Rapier.  The rigid-body engine is an oracle: each tick comes with a
    [World] saying what [castRay] and [step] answer during that tick. *)

From Stdlib Require Import Reals Lra Lia List.
From stdpp Require Import base gmap strings.
Import ListNotations.
Open Scope R_scope.

(** ** JavaScript numbers *)

Module Js.

(** Comparison operators, as booleans. *)
Definition gtb (a b : R) : bool := if Rgt_dec a b then true else false.
Definition ltb (a b : R) : bool := if Rlt_dec a b then true else false.
Definition geb (a b : R) : bool := if Rge_dec a b then true else false.
Definition leb (a b : R) : bool := if Rle_dec a b then true else false.

(** [a || b] on numbers: [b] when [a] is falsy, i.e. zero. *)
Definition or_else (a b : R) : R := if Req_dec_T a 0 then b else a.

(** [THREE.MathUtils.clamp(value, min, max)] is
    [Math.max(min, Math.min(max, value))]. *)
Definition clamp (value lo hi : R) : R := Rmax lo (Rmin hi value).

(** A number that may be [Number.POSITIVE_INFINITY]. *)
Inductive JsNum : Type :=
| Real (r : R)
| PosInfinity.

(** [t += dt] for a finite [dt]. *)
Definition num_add (t : JsNum) (dt : R) : JsNum :=
  match t with
  | Real r => Real (r + dt)
  | PosInfinity => PosInfinity
  end.

(** [t > bound] for a finite [bound]. *)
Definition num_gtb (t : JsNum) (bound : R) : bool :=
  match t with
  | Real r => gtb r bound
  | PosInfinity => true
  end.

End Js.

(** ** three.js [Vector3] *)

Module Vector3.

Record t : Type := mk { x : R; y : R; z : R }.

Definition zero : t := mk 0 0 0.

Definition add (a b : t) : t := mk (x a + x b) (y a + y b) (z a + z b).
Definition sub (a b : t) : t := mk (x a - x b) (y a - y b) (z a - z b).
Definition multiplyScalar (a : t) (s : R) : t := mk (x a * s) (y a * s) (z a * s).
Definition addScaledVector (a v : t) (s : R) : t :=
  mk (x a + x v * s) (y a + y v * s) (z a + z v * s).
Definition dot (a b : t) : R := x a * x b + y a * y b + z a * z b.
Definition lengthSq (a : t) : R := x a * x a + y a * y a + z a * z a.
Definition length (a : t) : R := sqrt (lengthSq a).

(** [divideScalar(s)] is [multiplyScalar(1 / s)]. *)
Definition divideScalar (a : t) (s : R) : t := multiplyScalar a (1 / s).

(** The scalar [normalize] divides by: [this.length() || 1]. *)
Definition normalize_divisor (a : t) : R := Js.or_else (length a) 1.

(** [normalize()] is [divideScalar(this.length() || 1)]. *)
Definition normalize (a : t) : t := divideScalar a (normalize_divisor a).

(** [setLength(l)] is [normalize().multiplyScalar(l)]. *)
Definition setLength (a : t) (l : R) : t := multiplyScalar (normalize a) l.

(** [new Vector3().crossVectors(a, b)]. *)
Definition crossVectors (a b : t) : t :=
  mk (y a * z b - z a * y b) (z a * x b - x a * z b) (x a * y b - y a * x b).

Definition distanceToSquared (a b : t) : R :=
  let dx := x a - x b in
  let dy := y a - y b in
  let dz := z a - z b in
  dx * dx + dy * dy + dz * dz.
Definition distanceTo (a b : t) : R := sqrt (distanceToSquared a b).

(** Division with the IEEE outcome made explicit: in exact arithmetic the
    only way [divideScalar] yields a non-number is a zero divisor
    ([1 / 0] is infinite and [0 * Infinity] is NaN). *)
Definition divideScalar_checked (a : t) (s : R) : option t :=
  if Req_dec_T s 0 then None else Some (divideScalar a s).
Definition normalize_checked (a : t) : option t :=
  divideScalar_checked a (normalize_divisor a).
Definition setLength_checked (a : t) (l : R) : option t :=
  match normalize_checked a with
  | Some n => Some (multiplyScalar n l)
  | None => None
  end.

End Vector3.

(** ** Constants of the program *)

Definition PLANET_RADIUS : R := 100.
Definition GRAVITY : R := 28.
Definition BASE_SPEED : R := 10.5.
Definition DASH_MULTIPLIER : R := 1.75.
Definition BASE_ACCEL_GROUND : R := 42.
Definition BASE_ACCEL_AIR : R := 16.
Definition BASE_DRAG_GROUND : R := 8.5.
Definition BASE_DRAG_AIR : R := 1.2.

Definition JUMP_IMPULSES : list R := [7.0; 8.5; 10.0].
Definition JUMP_BUFFER_TIME : R := 0.15.
Definition JUMP_COMBO_WINDOW : R := 0.7.
Definition GROUND_RAY_LEN : R := 1.95.

Definition BOOMERANG_COOLDOWN : R := 2.0.
Definition BOOMERANG_MAX_DIST : R := 16.
Definition BOOMERANG_SPEED : R := 24.
Definition BOOMERANG_HIT_RADIUS : R := 1.8.

Definition fixedDt : R := 1 / 60.

(** [new Vector3(0, R + 1, -36).normalize().multiplyScalar(R + 1.4)] *)
Definition goalPos : Vector3.t :=
  Vector3.multiplyScalar
    (Vector3.normalize (Vector3.mk 0 (PLANET_RADIUS + 1) (-36)))
    (PLANET_RADIUS + 1.4).

Definition enemyUp : Vector3.t :=
  Vector3.normalize (Vector3.mk 0.45 0.75 (-0.48)).
Definition enemyAnchor : Vector3.t :=
  Vector3.multiplyScalar enemyUp (PLANET_RADIUS + 1.6).

(** The translation [resetPlayer] writes, also the body's initial one. *)
Definition spawnPoint : Vector3.t := Vector3.mk 0 (PLANET_RADIUS + 3.2) 0.

(** [JUMP_IMPULSES[i]].  An index past the end reads [undefined] in
    JavaScript; the model reads 0 there, and [jumpComboIndex] is shown to
    stay below the length of the table. *)
Definition jumpImpulseAt (i : nat) : R := nth i JUMP_IMPULSES 0.

(** ** The Rapier side *)

(** The player's rigid body: what [translation()], [linvel()] return, and
    the inverse mass [applyImpulse] scales an impulse with. *)
Record RigidBody : Type := mkBody {
  translation : Vector3.t;
  linvel : Vector3.t;
  invMass : R
}.

Definition setTranslation (p : Vector3.t) (rb : RigidBody) : RigidBody :=
  mkBody p (linvel rb) (invMass rb).
Definition setLinvel (v : Vector3.t) (rb : RigidBody) : RigidBody :=
  mkBody (translation rb) v (invMass rb).

(** [applyImpulse(j)]: the linear velocity grows by [j] times the inverse
    mass (rotations are locked on this body). *)
Definition applyImpulse (j : Vector3.t) (rb : RigidBody) : RigidBody :=
  setLinvel (Vector3.addScaledVector (linvel rb) j (invMass rb)) rb.

(** What the physics world answers during one tick: whether the ray cast
    against the planet collider hits, and what [world.step()] makes of the
    player body. *)
Record World : Type := mkWorld {
  castRay : Vector3.t -> Vector3.t -> R -> bool;
  step : RigidBody -> RigidBody
}.

(** ** Module-level state of the program *)

Record Game : Type := mkGame {
  playerRb : RigidBody;
  input : gset string;
  jumpBufferTimer : R;
  yaw : R;
  pitch : R;
  grounded : bool;
  wasGrounded : bool;
  jumpComboIndex : nat;
  comboTimer : Js.JsNum;
  isClear : bool;
  hitFlash : R;
  boomerangActive : bool;
  boomerangOutward : bool;
  boomerangDistance : R;
  boomerangCooldown : R;
  boomerangMesh_visible : bool;
  boomerangMesh_position : Vector3.t;
  clearMsg : string
}.

Definition set_playerRb (v : RigidBody) (g : Game) : Game :=
  mkGame v (input g) (jumpBufferTimer g) (yaw g) (pitch g) (grounded g)
    (wasGrounded g) (jumpComboIndex g) (comboTimer g) (isClear g) (hitFlash g)
    (boomerangActive g) (boomerangOutward g) (boomerangDistance g)
    (boomerangCooldown g) (boomerangMesh_visible g) (boomerangMesh_position g)
    (clearMsg g).
Definition set_input (v : gset string) (g : Game) : Game :=
  mkGame (playerRb g) v (jumpBufferTimer g) (yaw g) (pitch g) (grounded g)
    (wasGrounded g) (jumpComboIndex g) (comboTimer g) (isClear g) (hitFlash g)
    (boomerangActive g) (boomerangOutward g) (boomerangDistance g)
    (boomerangCooldown g) (boomerangMesh_visible g) (boomerangMesh_position g)
    (clearMsg g).
Definition set_jumpBufferTimer (v : R) (g : Game) : Game :=
  mkGame (playerRb g) (input g) v (yaw g) (pitch g) (grounded g)
    (wasGrounded g) (jumpComboIndex g) (comboTimer g) (isClear g) (hitFlash g)
    (boomerangActive g) (boomerangOutward g) (boomerangDistance g)
    (boomerangCooldown g) (boomerangMesh_visible g) (boomerangMesh_position g)
    (clearMsg g).
Definition set_yaw (v : R) (g : Game) : Game :=
  mkGame (playerRb g) (input g) (jumpBufferTimer g) v (pitch g) (grounded g)
    (wasGrounded g) (jumpComboIndex g) (comboTimer g) (isClear g) (hitFlash g)
    (boomerangActive g) (boomerangOutward g) (boomerangDistance g)
    (boomerangCooldown g) (boomerangMesh_visible g) (boomerangMesh_position g)
    (clearMsg g).
Definition set_pitch (v : R) (g : Game) : Game :=
  mkGame (playerRb g) (input g) (jumpBufferTimer g) (yaw g) v (grounded g)
    (wasGrounded g) (jumpComboIndex g) (comboTimer g) (isClear g) (hitFlash g)
    (boomerangActive g) (boomerangOutward g) (boomerangDistance g)
    (boomerangCooldown g) (boomerangMesh_visible g) (boomerangMesh_position g)
    (clearMsg g).
Definition set_grounded (v : bool) (g : Game) : Game :=
  mkGame (playerRb g) (input g) (jumpBufferTimer g) (yaw g) (pitch g) v
    (wasGrounded g) (jumpComboIndex g) (comboTimer g) (isClear g) (hitFlash g)
    (boomerangActive g) (boomerangOutward g) (boomerangDistance g)
    (boomerangCooldown g) (boomerangMesh_visible g) (boomerangMesh_position g)
    (clearMsg g).
Definition set_wasGrounded (v : bool) (g : Game) : Game :=
  mkGame (playerRb g) (input g) (jumpBufferTimer g) (yaw g) (pitch g)
    (grounded g) v (jumpComboIndex g) (comboTimer g) (isClear g) (hitFlash g)
    (boomerangActive g) (boomerangOutward g) (boomerangDistance g)
    (boomerangCooldown g) (boomerangMesh_visible g) (boomerangMesh_position g)
    (clearMsg g).
Definition set_jumpComboIndex (v : nat) (g : Game) : Game :=
  mkGame (playerRb g) (input g) (jumpBufferTimer g) (yaw g) (pitch g)
    (grounded g) (wasGrounded g) v (comboTimer g) (isClear g) (hitFlash g)
    (boomerangActive g) (boomerangOutward g) (boomerangDistance g)
    (boomerangCooldown g) (boomerangMesh_visible g) (boomerangMesh_position g)
    (clearMsg g).
Definition set_comboTimer (v : Js.JsNum) (g : Game) : Game :=
  mkGame (playerRb g) (input g) (jumpBufferTimer g) (yaw g) (pitch g)
    (grounded g) (wasGrounded g) (jumpComboIndex g) v (isClear g) (hitFlash g)
    (boomerangActive g) (boomerangOutward g) (boomerangDistance g)
    (boomerangCooldown g) (boomerangMesh_visible g) (boomerangMesh_position g)
    (clearMsg g).
Definition set_isClear (v : bool) (g : Game) : Game :=
  mkGame (playerRb g) (input g) (jumpBufferTimer g) (yaw g) (pitch g)
    (grounded g) (wasGrounded g) (jumpComboIndex g) (comboTimer g) v (hitFlash g)
    (boomerangActive g) (boomerangOutward g) (boomerangDistance g)
    (boomerangCooldown g) (boomerangMesh_visible g) (boomerangMesh_position g)
    (clearMsg g).
Definition set_hitFlash (v : R) (g : Game) : Game :=
  mkGame (playerRb g) (input g) (jumpBufferTimer g) (yaw g) (pitch g)
    (grounded g) (wasGrounded g) (jumpComboIndex g) (comboTimer g) (isClear g) v
    (boomerangActive g) (boomerangOutward g) (boomerangDistance g)
    (boomerangCooldown g) (boomerangMesh_visible g) (boomerangMesh_position g)
    (clearMsg g).
Definition set_boomerangActive (v : bool) (g : Game) : Game :=
  mkGame (playerRb g) (input g) (jumpBufferTimer g) (yaw g) (pitch g)
    (grounded g) (wasGrounded g) (jumpComboIndex g) (comboTimer g) (isClear g)
    (hitFlash g) v (boomerangOutward g) (boomerangDistance g)
    (boomerangCooldown g) (boomerangMesh_visible g) (boomerangMesh_position g)
    (clearMsg g).
Definition set_boomerangOutward (v : bool) (g : Game) : Game :=
  mkGame (playerRb g) (input g) (jumpBufferTimer g) (yaw g) (pitch g)
    (grounded g) (wasGrounded g) (jumpComboIndex g) (comboTimer g) (isClear g)
    (hitFlash g) (boomerangActive g) v (boomerangDistance g)
    (boomerangCooldown g) (boomerangMesh_visible g) (boomerangMesh_position g)
    (clearMsg g).
Definition set_boomerangDistance (v : R) (g : Game) : Game :=
  mkGame (playerRb g) (input g) (jumpBufferTimer g) (yaw g) (pitch g)
    (grounded g) (wasGrounded g) (jumpComboIndex g) (comboTimer g) (isClear g)
    (hitFlash g) (boomerangActive g) (boomerangOutward g) v
    (boomerangCooldown g) (boomerangMesh_visible g) (boomerangMesh_position g)
    (clearMsg g).
Definition set_boomerangCooldown (v : R) (g : Game) : Game :=
  mkGame (playerRb g) (input g) (jumpBufferTimer g) (yaw g) (pitch g)
    (grounded g) (wasGrounded g) (jumpComboIndex g) (comboTimer g) (isClear g)
    (hitFlash g) (boomerangActive g) (boomerangOutward g) (boomerangDistance g)
    v (boomerangMesh_visible g) (boomerangMesh_position g) (clearMsg g).
Definition set_boomerangMesh_visible (v : bool) (g : Game) : Game :=
  mkGame (playerRb g) (input g) (jumpBufferTimer g) (yaw g) (pitch g)
    (grounded g) (wasGrounded g) (jumpComboIndex g) (comboTimer g) (isClear g)
    (hitFlash g) (boomerangActive g) (boomerangOutward g) (boomerangDistance g)
    (boomerangCooldown g) v (boomerangMesh_position g) (clearMsg g).
Definition set_boomerangMesh_position (v : Vector3.t) (g : Game) : Game :=
  mkGame (playerRb g) (input g) (jumpBufferTimer g) (yaw g) (pitch g)
    (grounded g) (wasGrounded g) (jumpComboIndex g) (comboTimer g) (isClear g)
    (hitFlash g) (boomerangActive g) (boomerangOutward g) (boomerangDistance g)
    (boomerangCooldown g) (boomerangMesh_visible g) v (clearMsg g).
Definition set_clearMsg (v : string) (g : Game) : Game :=
  mkGame (playerRb g) (input g) (jumpBufferTimer g) (yaw g) (pitch g)
    (grounded g) (wasGrounded g) (jumpComboIndex g) (comboTimer g) (isClear g)
    (hitFlash g) (boomerangActive g) (boomerangOutward g) (boomerangDistance g)
    (boomerangCooldown g) (boomerangMesh_visible g) (boomerangMesh_position g) v.

(** Statements in sequence: [g |> f |> h] runs [f], then [h]. *)
Notation "g |> f" := (f g) (at level 68, left associativity, only parsing).

(** The state the module-level [let]s and the body description set up. *)
Definition initialGame (im : R) : Game :=
  mkGame (mkBody spawnPoint Vector3.zero im) ∅ 0 0 0.2 false false 0%nat
    Js.PosInfinity false 0 false true 0 1.1 false Vector3.zero "".

(** ** The program *)

Definition resetPlayer (g : Game) : Game :=
  let g1 :=
    g |> set_isClear false
      |> set_clearMsg ""
      |> set_jumpBufferTimer 0
      |> set_jumpComboIndex 0%nat
      |> set_comboTimer Js.PosInfinity in
  let g2 := g1 |> set_playerRb (setTranslation spawnPoint (playerRb g1)) in
  g2 |> set_playerRb (setLinvel Vector3.zero (playerRb g2)).

Definition projectOnPlane (v n : Vector3.t) : Vector3.t :=
  Vector3.sub v (Vector3.multiplyScalar n (Vector3.dot v n)).

(** The local [tangentForward] of [updateEnemyAndBoomerang], after the
    guarded in-place [normalize]. *)
Definition tangentForward (playerPos : Vector3.t) : Vector3.t :=
  let enemyToPlayer := Vector3.sub playerPos enemyAnchor in
  let tf := projectOnPlane enemyToPlayer enemyUp in
  if Js.gtb (Vector3.lengthSq tf) 0.0001 then Vector3.normalize tf else tf.

(** The local [throwDir]: the heading, or the default [(0, 0, 1)]. *)
Definition throwDir (playerPos : Vector3.t) : Vector3.t :=
  let tf := tangentForward playerPos in
  if Js.gtb (Vector3.lengthSq tf) 0.0001 then tf else Vector3.mk 0 0 1.

(** The knock-back added to the player's velocity on a hit. *)
Definition push (playerPos boomerangPos upAtPlayer : Vector3.t) : Vector3.t :=
  Vector3.multiplyScalar
    (Vector3.normalize
       (projectOnPlane (Vector3.sub playerPos boomerangPos) upAtPlayer))
    8.5.

(** The orientation writes to [enemyMesh] and the spin of [boomerangMesh]
    are presentation only and left out. *)
Definition updateEnemyAndBoomerang
    (dt : R) (playerPos upAtPlayer : Vector3.t) (g0 : Game) : Game :=
  let g1 := g0 |> set_boomerangCooldown (boomerangCooldown g0 - dt) in
  let g2 :=
    if negb (boomerangActive g1) && Js.leb (boomerangCooldown g1) 0
    then g1 |> set_boomerangActive true
            |> set_boomerangOutward true
            |> set_boomerangDistance 0
            |> set_boomerangCooldown BOOMERANG_COOLDOWN
            |> set_boomerangMesh_visible true
    else g1 in
  if negb (boomerangActive g2) then g2 else
  let g3 :=
    g2 |> set_boomerangDistance
            (boomerangDistance g2
             + (if boomerangOutward g2 then 1 else -1) * BOOMERANG_SPEED * dt) in
  let g4 :=
    g3 |> set_boomerangDistance
            (Js.clamp (boomerangDistance g3) 0 BOOMERANG_MAX_DIST) in
  let g5 :=
    if Js.geb (boomerangDistance g4) BOOMERANG_MAX_DIST
    then g4 |> set_boomerangOutward false
    else g4 in
  if Js.leb (boomerangDistance g5) 0
  then g5 |> set_boomerangActive false |> set_boomerangMesh_visible false
  else
  let boomerangPos :=
    Vector3.add enemyAnchor
      (Vector3.multiplyScalar (throwDir playerPos) (boomerangDistance g5)) in
  let g6 := g5 |> set_boomerangMesh_position boomerangPos in
  if Js.ltb (Vector3.distanceTo boomerangPos playerPos) BOOMERANG_HIT_RADIUS
  then
    let g7 := g6 |> set_hitFlash 0.12 in
    let push := push playerPos boomerangPos upAtPlayer in
    let linvel := linvel (playerRb g7) in
    g7 |> set_playerRb
            (setLinvel
               (Vector3.mk (Vector3.x linvel + Vector3.x push)
                           (Vector3.y linvel + Vector3.y push)
                           (Vector3.z linvel + Vector3.z push))
               (playerRb g7))
  else g6.

(** [input.has(code)] *)
Definition has (code : string) (keys : gset string) : bool :=
  bool_decide (code ∈ keys).

Definition moveX (keys : gset string) : R :=
  (if has "KeyD" keys then 1 else 0) - (if has "KeyA" keys then 1 else 0).
Definition moveZ (keys : gset string) : R :=
  (if has "KeyW" keys then 1 else 0) - (if has "KeyS" keys then 1 else 0).
Definition dashing (keys : gset string) : bool :=
  has "ShiftLeft" keys || has "ShiftRight" keys.

Definition camForward (yaw : R) (up : Vector3.t) : Vector3.t :=
  Vector3.normalize (projectOnPlane (Vector3.mk (sin yaw) 0 (cos yaw)) up).
Definition camRight (yaw : R) (up : Vector3.t) : Vector3.t :=
  Vector3.normalize (Vector3.crossVectors (camForward yaw up) up).
Definition wishDir (keys : gset string) (yaw : R) (up : Vector3.t) : Vector3.t :=
  let w :=
    Vector3.add (Vector3.multiplyScalar (camForward yaw up) (moveZ keys))
                (Vector3.multiplyScalar (camRight yaw up) (moveX keys)) in
  if Js.gtb (Vector3.lengthSq w) 0 then Vector3.normalize w else w.

Definition speedCap (keys : gset string) : R :=
  BASE_SPEED * (if dashing keys then DASH_MULTIPLIER else 1).
Definition accelGround (keys : gset string) : R :=
  BASE_ACCEL_GROUND * (if dashing keys then 1.2 else 1).
Definition accelAir (keys : gset string) : R :=
  BASE_ACCEL_AIR * (if dashing keys then 1.1 else 1).
Definition dragGround (keys : gset string) : R :=
  BASE_DRAG_GROUND * (if dashing keys then 0.78 else 1).
Definition maxDelta (keys : gset string) (grounded : bool) (dt : R) : R :=
  (if grounded then accelGround keys else accelAir keys) * dt.
Definition drag (keys : gset string) (grounded : bool) : R :=
  if grounded then dragGround keys else BASE_DRAG_AIR.

(** [deltaVel]: the difference to the target, its length clamped to
    [maxDelta]. *)
Definition deltaVel (targetVel tangentialVel : Vector3.t) (maxDelta : R)
    : Vector3.t :=
  let d := Vector3.sub targetVel tangentialVel in
  if Js.gtb (Vector3.length d) maxDelta then Vector3.setLength d maxDelta else d.

Definition tangentialNew
    (wishDir : Vector3.t) (speedCap maxDelta drag dt : R)
    (up velocity : Vector3.t) : Vector3.t :=
  let tangentialVel := projectOnPlane velocity up in
  let targetVel := Vector3.multiplyScalar wishDir speedCap in
  Vector3.multiplyScalar
    (Vector3.add tangentialVel (deltaVel targetVel tangentialVel maxDelta))
    (Rmax 0 (1 - drag * dt)).

(** The steering law shared by the variants of [physicsStep]: from
    [tangentialVel] to [velocity.copy(tangentialNew.add(normalVel))]. *)
Definition steer
    (wishDir : Vector3.t) (speedCap maxDelta drag dt : R)
    (up velocity : Vector3.t) : Vector3.t :=
  let tangentialVel := projectOnPlane velocity up in
  let normalVel := Vector3.sub velocity tangentialVel in
  Vector3.add (tangentialNew wishDir speedCap maxDelta drag dt up velocity)
    normalVel.

(** The body of [if (!isClear)] up to [velocity.copy(...)]: the velocity
    after steering and drag, from the velocity after gravity. *)
Definition locomotion
    (keys : gset string) (yaw : R) (grounded : bool) (dt : R)
    (up velocity : Vector3.t) : Vector3.t :=
  steer (wishDir keys yaw up) (speedCap keys) (maxDelta keys grounded dt)
    (drag keys grounded) dt up velocity.

(** [physicsStep] up to, and without, [world.step()]. *)
Definition physicsStep_commit (w : World) (dt : R) (g0 : Game) : Game :=
  let p := translation (playerRb g0) in
  let up := Vector3.normalize p in
  let down := Vector3.multiplyScalar up (-1) in
  let g1 := g0 |> set_grounded (castRay w p down GROUND_RAY_LEN) in
  let g2 :=
    if grounded g1 && negb (wasGrounded g1)
    then g1 |> set_comboTimer (Js.Real 0) else g1 in
  let g3 :=
    if grounded g2
    then g2 |> set_comboTimer (Js.num_add (comboTimer g2) dt) else g2 in
  let g4 :=
    if Js.num_gtb (comboTimer g3) JUMP_COMBO_WINDOW
    then g3 |> set_jumpComboIndex 0%nat else g3 in
  let g5 :=
    if Js.gtb (jumpBufferTimer g4) 0
    then g4 |> set_jumpBufferTimer (jumpBufferTimer g4 - dt) else g4 in
  let lv := linvel (playerRb g5) in
  let velocity := Vector3.addScaledVector lv down (GRAVITY * dt) in
  if negb (isClear g5) then
    let velocity' := locomotion (input g5) (yaw g5) (grounded g5) dt up velocity in
    let g6 := g5 |> set_playerRb (setLinvel velocity' (playerRb g5)) in
    if grounded g6 && Js.gtb (jumpBufferTimer g6) 0 then
      let g7 :=
        if Js.num_gtb (comboTimer g6) JUMP_COMBO_WINDOW
        then g6 |> set_jumpComboIndex 0%nat else g6 in
      let jumpImpulse := jumpImpulseAt (jumpComboIndex g7) in
      let g8 :=
        g7 |> set_playerRb
                (applyImpulse
                   (Vector3.mk (Vector3.x up * jumpImpulse)
                               (Vector3.y up * jumpImpulse)
                               (Vector3.z up * jumpImpulse))
                   (playerRb g7))
           |> set_grounded false
           |> set_jumpBufferTimer 0
           |> set_comboTimer Js.PosInfinity in
      g8 |> set_jumpComboIndex
              (if (List.length JUMP_IMPULSES - 1 <=? jumpComboIndex g8)%nat
               then 0%nat else (jumpComboIndex g8 + 1)%nat)
    else g6
  else g5 |> set_playerRb (setLinvel velocity (playerRb g5)).

Definition physicsStep (w : World) (dt : R) (g0 : Game) : Game :=
  let g1 := physicsStep_commit w dt g0 in
  let g2 := g1 |> set_playerRb (step w (playerRb g1)) in
  let g3 := g2 |> set_wasGrounded (grounded g2) in
  let playerNow := translation (playerRb g3) in
  let g4 :=
    if Js.gtb (Vector3.length playerNow) (PLANET_RADIUS + 60)
    then resetPlayer g3 else g3 in
  let g5 :=
    updateEnemyAndBoomerang dt playerNow (Vector3.normalize playerNow) g4 in
  if negb (isClear g5) && Js.ltb (Vector3.distanceTo playerNow goalPos) 4.2
  then g5 |> set_isClear true |> set_clearMsg "CLEAR! Press R to Restart"
  else g5.

(** The [keydown], [keyup] and [mousemove] listeners. *)
Definition keydown (code : string) (g : Game) : Game :=
  let g1 := g |> set_input ({[code]} ∪ input g) in
  let g2 :=
    if String.eqb code "Space"
    then g1 |> set_jumpBufferTimer JUMP_BUFFER_TIME else g1 in
  if String.eqb code "KeyR" then resetPlayer g2 else g2.

Definition keyup (code : string) (g : Game) : Game :=
  g |> set_input (input g ∖ {[code]}).

Definition mousemove (pointerLocked : bool) (movementX movementY : R) (g : Game)
    : Game :=
  if negb pointerLocked then g else
  let g1 := g |> set_yaw (yaw g - movementX * 0.0025) in
  g1 |> set_pitch (Js.clamp (pitch g1 - movementY * 0.0025) (-1.2) 1.2).

(** What [render] does to the state (the rest of it draws). *)
Definition render (g : Game) : Game :=
  if Js.gtb (hitFlash g) 0 then g |> set_hitFlash (hitFlash g - fixedDt) else g.

(** What can happen to the program: a listener fires, [loop] runs one
    fixed tick (against the world's answers for that tick), or renders. *)
Inductive Event : Type :=
| KeyDown (code : string)
| KeyUp (code : string)
| MouseMove (pointerLocked : bool) (movementX movementY : R)
| Tick (w : World)
| Render.

Definition handle (e : Event) (g : Game) : Game :=
  match e with
  | KeyDown code => keydown code g
  | KeyUp code => keyup code g
  | MouseMove l mx my => mousemove l mx my g
  | Tick w => physicsStep w fixedDt g
  | Render => render g
  end.

Fixpoint run (es : list Event) (g : Game) : Game :=
  match es with
  | [] => g
  | e :: es' => run es' (handle e g)
  end.

(** The states the program can be in. *)
Inductive reachable : Game -> Prop :=
| reachable_init (im : R) : reachable (initialGame im)
| reachable_handle (e : Event) (g : Game) :
    reachable g -> reachable (handle e g).

(** [n] consecutive ticks, each against its own world. *)
Definition ticks (ws : list World) (g : Game) : Game := run (map Tick ws) g.

(** The projectile's part of the state. *)
Record Boomerang : Type := mkBoomerang {
  active : bool;
  outward : bool;
  distance : R;
  cooldown : R;
  visible : bool
}.

Definition boomerangOf (g : Game) : Boomerang :=
  mkBoomerang (boomerangActive g) (boomerangOutward g) (boomerangDistance g)
    (boomerangCooldown g) (boomerangMesh_visible g).

(** The tangential speed read off a body at position [p]. *)
Definition tangentialSpeed (p v : Vector3.t) : R :=
  Vector3.length (projectOnPlane v (Vector3.normalize p)).

(** ** What one tick decides

    The conditions [physicsStep] evaluates on its way, named so that
    statements can refer to them. *)

(** [up] at the start of the tick. *)
Definition upOf (g : Game) : Vector3.t :=
  Vector3.normalize (translation (playerRb g)).

(** [grounded] as the ray cast of this tick sets it. *)
Definition groundedNow (w : World) (g : Game) : bool :=
  castRay w (translation (playerRb g))
    (Vector3.multiplyScalar (upOf g) (-1)) GROUND_RAY_LEN.

(** [comboTimer] after the landing reset and the grounded count-up. *)
Definition comboTimerNow (w : World) (dt : R) (g : Game) : Js.JsNum :=
  let t1 :=
    if groundedNow w g && negb (wasGrounded g) then Js.Real 0
    else comboTimer g in
  if groundedNow w g then Js.num_add t1 dt else t1.

(** [jumpBufferTimer] after this tick's count-down. *)
Definition jumpBufferNow (dt : R) (g : Game) : R :=
  if Js.gtb (jumpBufferTimer g) 0 then jumpBufferTimer g - dt
  else jumpBufferTimer g.

(** Whether the jump branch runs in this tick. *)
Definition jumpFires (w : World) (dt : R) (g : Game) : bool :=
  negb (isClear g) && (groundedNow w g && Js.gtb (jumpBufferNow dt g) 0).

(** [jumpComboIndex] after the window check: the stage a jump of this tick
    takes its impulse from. *)
Definition jumpStage (w : World) (dt : R) (g : Game) : nat :=
  if Js.num_gtb (comboTimerNow w dt g) JUMP_COMBO_WINDOW then 0%nat
  else jumpComboIndex g.

(** Whether the escape check of this tick calls [resetPlayer]. *)
Definition escapes (w : World) (dt : R) (g : Game) : bool :=
  Js.gtb
    (Vector3.length
       (translation (step w (playerRb (physicsStep_commit w dt g)))))
    (PLANET_RADIUS + 60).

(** The position [physicsStep] samples after [world.step()] ([playerNow]). *)
Definition playerNowOf (w : World) (dt : R) (g : Game) : Vector3.t :=
  translation (step w (playerRb (physicsStep_commit w dt g))).

(** [jumpComboIndex] after a jump from stage [i]. *)
Definition nextComboIndex (i : nat) : nat :=
  if (List.length JUMP_IMPULSES - 1 <=? i)%nat then 0%nat else (i + 1)%nat.

(** The velocity after gravity, before steering. *)
Definition velocityAfterGravity (dt : R) (g : Game) : Vector3.t :=
  Vector3.addScaledVector (linvel (playerRb g))
    (Vector3.multiplyScalar (upOf g) (-1)) (GRAVITY * dt).

(** The impulse handed to [applyImpulse] by a jump of this tick. *)
Definition jumpImpulseVector (w : World) (dt : R) (g : Game) : Vector3.t :=
  let j := jumpImpulseAt (jumpStage w dt g) in
  Vector3.mk (Vector3.x (upOf g) * j) (Vector3.y (upOf g) * j)
    (Vector3.z (upOf g) * j).

(** The velocity the body holds when [world.step()] is called. *)
Definition committedVelocity (w : World) (dt : R) (g : Game) : Vector3.t :=
  if isClear g then velocityAfterGravity dt g else
  let v :=
    locomotion (input g) (yaw g) (groundedNow w g) dt (upOf g)
      (velocityAfterGravity dt g) in
  if jumpFires w dt g
  then Vector3.addScaledVector v (jumpImpulseVector w dt g) (invMass (playerRb g))
  else v.

(** ** The projectile on its own

    What [updateEnemyAndBoomerang] does to the projectile's variables; they
    depend on [dt] only, not on the player. *)

Definition launches (dt : R) (b : Boomerang) : bool :=
  negb (active b) && Js.leb (cooldown b - dt) 0.

Definition boomerangStep (dt : R) (b : Boomerang) : Boomerang :=
  let cooldown1 := cooldown b - dt in
  let b2 :=
    if launches dt b then mkBoomerang true true 0 BOOMERANG_COOLDOWN true
    else mkBoomerang (active b) (outward b) (distance b) cooldown1 (visible b) in
  if negb (active b2) then b2 else
  let distance4 :=
    Js.clamp
      (distance b2 + (if outward b2 then 1 else -1) * BOOMERANG_SPEED * dt)
      0 BOOMERANG_MAX_DIST in
  let outward5 :=
    if Js.geb distance4 BOOMERANG_MAX_DIST then false else outward b2 in
  if Js.leb distance4 0
  then mkBoomerang false outward5 distance4 (cooldown b2) false
  else mkBoomerang true outward5 distance4 (cooldown b2) (visible b2).

(** Where the projectile is drawn at the end of a tick in which it flies. *)
Definition boomerangPosOf (dt : R) (playerPos : Vector3.t) (g : Game)
    : Vector3.t :=
  Vector3.add enemyAnchor
    (Vector3.multiplyScalar (throwDir playerPos)
       (distance (boomerangStep dt (boomerangOf g)))).

(** Whether the hit branch of [updateEnemyAndBoomerang] runs. *)
Definition hits (dt : R) (playerPos : Vector3.t) (g : Game) : bool :=
  active (boomerangStep dt (boomerangOf g))
  && Js.ltb (Vector3.distanceTo (boomerangPosOf dt playerPos g) playerPos)
       BOOMERANG_HIT_RADIUS.

(** Worlds used in examples: the ground ray hits or misses, and
    [world.step()] leaves the body as it is. *)
Definition worldGrounded : World := mkWorld (fun _ _ _ => true) (fun rb => rb).
Definition worldAirborne : World := mkWorld (fun _ _ _ => false) (fun rb => rb).

(** ** The second half of a tick *)

(** The state right after [world.step()] and [wasGrounded = grounded]. *)
Definition afterStep (w : World) (dt : R) (g : Game) : Game :=
  let c := physicsStep_commit w dt g in
  c |> set_playerRb (step w (playerRb c)) |> set_wasGrounded (grounded c).

(** The goal check that ends [physicsStep]. *)
Definition goalCheck (playerNow : Vector3.t) (g : Game) : Game :=
  if negb (isClear g) && Js.ltb (Vector3.distanceTo playerNow goalPos) 4.2
  then g |> set_isClear true |> set_clearMsg "CLEAR! Press R to Restart"
  else g.

(** The end of a tick, from the state [c] the check of the escape radius
    leaves and the position [pn] sampled before that check. *)
Definition tickTail (dt : R) (pn : Vector3.t) (c : Game) : Game :=
  goalCheck pn (updateEnemyAndBoomerang dt pn (Vector3.normalize pn) c).

(** ** Resets along a run *)

(** Whether handling [e] in state [g] calls [resetPlayer]. *)
Definition resets (e : Event) (g : Game) : bool :=
  match e with
  | KeyDown code => String.eqb code "KeyR"
  | Tick w => escapes w fixedDt g
  | _ => false
  end.

(** No event of the run calls [resetPlayer]. *)
Fixpoint resetFree (es : list Event) (g : Game) : bool :=
  match es with
  | [] => true
  | e :: es' => negb (resets e g) && resetFree es' (handle e g)
  end.

(** A world whose step throws the body far above the planet, and one whose
    step puts it on the goal. *)
Definition worldFlung : World :=
  mkWorld (fun _ _ _ => false)
    (fun rb => setTranslation (Vector3.mk 0 200 0) rb).
Definition worldAtGoal : World :=
  mkWorld (fun _ _ _ => true) (fun rb => setTranslation goalPos rb).

(** ** Runs of the projectile *)

(** The number of ticks among the events of a run. *)
Fixpoint tickCount (es : list Event) : nat :=
  match es with
  | [] => 0
  | Tick _ :: es' => S (tickCount es')
  | _ :: es' => tickCount es'
  end.

(** The distance stays in range, and the projectile is inactive exactly
    when the distance is 0 (and then hidden). *)
Definition boomerangInv (b : Boomerang) : Prop :=
  0 <= distance b <= BOOMERANG_MAX_DIST
  /\ (active b = false <-> distance b = 0)
  /\ visible b = active b.

(** The distance [k] ticks into a cycle that starts with the launch tick:
    out by [BOOMERANG_SPEED * fixedDt] a tick for 40 ticks, then back. *)
Definition cycleDistance (k : nat) : R :=
  if (k <=? 40)%nat then BOOMERANG_SPEED * fixedDt * INR k
  else BOOMERANG_MAX_DIST - BOOMERANG_SPEED * fixedDt * (INR k - 40).

(** The state 65 ticks after the start: the launch is due. *)
Definition gameLaunchDue : Game := ticks (repeat worldAirborne 65) (initialGame 1).

(** ** A run with a jump

    A press and a grounded tick (the jump). *)

Definition comboRun0 : Game := keydown "Space" (initialGame 1).
Definition comboRun1 : Game := physicsStep worldGrounded fixedDt comboRun0.

(** ** Runs for the jump buffer *)

(** The goal is reached, then the jump key is pressed. *)
Definition clearedRun0 : Game := physicsStep worldAtGoal fixedDt (initialGame 1).
Definition clearedRun1 : Game := keydown "Space" clearedRun0.

(** No event of the run is a press of the jump key. *)
Fixpoint spaceFree (es : list Event) : bool :=
  match es with
  | [] => true
  | KeyDown code :: es' => negb (String.eqb code "Space") && spaceFree es'
  | _ :: es' => spaceFree es'
  end.

(** Ticks in which the ground ray misses and the player does not escape. *)
Fixpoint airborneRun (ws : list World) (g : Game) : bool :=
  match ws with
  | [] => true
  | w :: ws' =>
      negb (groundedNow w g) && negb (escapes w fixedDt g)
      && airborneRun ws' (physicsStep w fixedDt g)
  end.

(** A world whose step leaves the body with a sideways velocity of 18, as
    after a collision or a knock-back. *)
Definition worldShove : World :=
  mkWorld (fun _ _ _ => false) (fun rb => setLinvel (Vector3.mk 0 0 18) rb).
Definition shovedRun : Game := physicsStep worldShove fixedDt (initialGame 1).

(** ** Rendering, the frame loop and the hit test *)

(** The colour [render] gives the player's material: the flash while
    [hitFlash] is positive. *)
Definition emissive (g : Game) : string :=
  if Js.gtb (hitFlash g) 0 then "#8a2626" else "#000000".

(** [n] calls of [render] in a row. *)
Definition renders (n : nat) (g : Game) : Game := Nat.iter n render g.

(** The accumulator loop.  [ws] holds the world's answers for the ticks of
    this frame, one per tick; the [while] stops when the accumulator is
    below [fixedDt] (or when the answers run out).  The comparison is
    exact here: within rounding of a multiple of [fixedDt] the program's
    doubles may run one tick more or less than this function. *)
Record Loop : Type := mkLoop { prev : R; acc : R; game : Game }.

Fixpoint whileTicks (ws : list World) (a : R) (g : Game) : nat * R * Game :=
  match ws with
  | [] => (0%nat, a, g)
  | w :: ws' =>
      if Js.geb a fixedDt
      then let '(n, a', g') :=
             whileTicks ws' (a - fixedDt) (physicsStep w fixedDt g) in
           (S n, a', g')
      else (0%nat, a, g)
  end.

(** One call of [loop] at time [now]; also the number of ticks it ran. *)
Definition loop (now : R) (ws : list World) (l : Loop) : nat * Loop :=
  let dt := Rmin 0.05 (now - prev l) in
  let '(n, a, g) := whileTicks ws (acc l + dt) (game l) in
  (n, mkLoop now a (render g)).

(** Whether the projectile update of this tick runs its hit branch: it is
    judged at the position sampled after [world.step()]. *)
Definition tickHits (w : World) (dt : R) (g : Game) : bool :=
  hits dt (playerNowOf w dt g) g.

(** The body the projectile update finds: what [world.step()] left, or the
    reset body when the escape check fired. *)
Definition bodyBeforeUpdate (w : World) (dt : R) (g : Game) : RigidBody :=
  let stepped :=
    step w
      (mkBody (translation (playerRb g)) (committedVelocity w dt g)
         (invMass (playerRb g))) in
  if escapes w dt g then mkBody spawnPoint Vector3.zero (invMass stepped)
  else stepped.

(** A world whose step puts the body on the enemy's anchor. *)
Definition worldAtEnemy : World :=
  mkWorld (fun _ _ _ => false) (fun rb => setTranslation enemyAnchor rb).

(** ** A jump out of a free fall

    The world as the planet alone makes it: the ray cast down from
    [origin] meets the sphere after [|origin| - PLANET_RADIUS], and a body
    that touches nothing moves by its velocity for one step (the world has
    no gravity of its own). *)
Definition worldFreeFlight : World :=
  mkWorld
    (fun origin _ maxToi =>
       Js.leb (Vector3.length origin - PLANET_RADIUS) maxToi)
    (fun rb =>
       setTranslation
         (Vector3.addScaledVector (translation rb) (linvel rb) fixedDt) rb).

(** [k] ticks of the fall from the spawn point, for a body of inverse
    mass 5. *)
Definition fallRun (k : nat) : Game :=
  Nat.iter k (physicsStep worldFreeFlight fixedDt) (initialGame 5).

(** The jump key is pressed 18 ticks into the fall; the next tick is the
    first whose ray reaches the ground, and jumps; the tick after it is in
    the air again. *)
Definition flightRun1 : Game := keydown "Space" (fallRun 18).
Definition flightRun2 : Game := physicsStep worldFreeFlight fixedDt flightRun1.
Definition flightRun3 : Game := physicsStep worldFreeFlight fixedDt flightRun2.

(** The height of the fall after [k] ticks. *)
Definition fallHeight (k : nat) : R :=
  PLANET_RADIUS + 3.2
  - GRAVITY * fixedDt * fixedDt * (INR k * (INR k + 1) / 2).

(** ** The first variant of the loop (src/main.ts)

    No dash, no combo, no boomerang; the jump adds [JUMP_SPEED] to the
    velocity before it is committed.  Steering is the same code. *)

Module MainTs.

Definition PLANET_RADIUS : R := 50.
Definition GRAVITY : R := 25.
Definition V_MAX : R := 9.
Definition A_GROUND : R := 45.
Definition A_AIR : R := 18.
Definition DRAG_GROUND : R := 10.
Definition DRAG_AIR : R := 1.5.
Definition JUMP_SPEED : R := 10.5.

Record Game : Type := mkGame {
  playerRb : RigidBody;
  input : gset string;
  yaw : R;
  pitch : R;
  grounded : bool;
  jumpLock : R;
  isClear : bool;
  clearMsg : string
}.

(** [wish]: the keys through the camera basis, without dash. *)
Definition wish (keys : gset string) (yaw : R) (up : Vector3.t) : Vector3.t :=
  let forward :=
    Vector3.normalize (projectOnPlane (Vector3.mk (sin yaw) 0 (cos yaw)) up) in
  let right := Vector3.normalize (Vector3.crossVectors forward up) in
  let w :=
    Vector3.add (Vector3.multiplyScalar forward (moveZ keys))
                (Vector3.multiplyScalar right (moveX keys)) in
  if Js.gtb (Vector3.lengthSq w) 0 then Vector3.normalize w else w.

Definition maxDelta (grounded : bool) (dt : R) : R :=
  (if grounded then A_GROUND else A_AIR) * dt.
Definition drag (grounded : bool) : R :=
  if grounded then DRAG_GROUND else DRAG_AIR.

(** Whether the jump branch runs, given this tick's ray cast. *)
Definition jumps (hit : bool) (dt : R) (g : Game) : bool :=
  let jumpLock1 := if Js.gtb (jumpLock g) 0 then jumpLock g - dt else jumpLock g in
  negb (isClear g) && (hit && Js.leb jumpLock1 0 && has "Space" (input g)).

(** [physicsStep] up to and with [playerRb.setLinvel(v, true)]. *)
Definition physicsStep_commit (w : World) (dt : R) (g : Game) : Game :=
  let p := translation (playerRb g) in
  let up := Vector3.normalize p in
  let down := Vector3.multiplyScalar up (-1) in
  let grounded1 := castRay w p down 1.7 in
  let v := Vector3.addScaledVector (linvel (playerRb g)) down (GRAVITY * dt) in
  if negb (isClear g) then
    let v1 :=
      steer (wish (input g) (yaw g) up) V_MAX (maxDelta grounded1 dt)
        (drag grounded1) dt up v in
    let jumpLock1 :=
      if Js.gtb (jumpLock g) 0 then jumpLock g - dt else jumpLock g in
    if grounded1 && Js.leb jumpLock1 0 && has "Space" (input g) then
      let v2 := Vector3.addScaledVector v1 up JUMP_SPEED in
      mkGame (setLinvel v2 (playerRb g)) (input g) (yaw g) (pitch g) false
        0.1 (isClear g) (clearMsg g)
    else
      mkGame (setLinvel v1 (playerRb g)) (input g) (yaw g) (pitch g)
        grounded1 jumpLock1 (isClear g) (clearMsg g)
  else
    mkGame (setLinvel v (playerRb g)) (input g) (yaw g) (pitch g) grounded1
      (jumpLock g) (isClear g) (clearMsg g).

(** The state the module-level [let]s set up. *)
Definition initialGame (im : R) : Game :=
  mkGame (mkBody (Vector3.mk 0 (PLANET_RADIUS + 2.5) 0) Vector3.zero im) ∅
    0 0.2 false 0 false "".

(** The translation [resetPlayer] writes, also the body's initial one. *)
Definition spawnPoint : Vector3.t := Vector3.mk 0 (PLANET_RADIUS + 2.5) 0.

(** [new Vector3(0, R + 1, -18).normalize().multiplyScalar(R + 0.8)] *)
Definition goalPos : Vector3.t :=
  Vector3.multiplyScalar
    (Vector3.normalize (Vector3.mk 0 (PLANET_RADIUS + 1) (-18)))
    (PLANET_RADIUS + 0.8).

(** [resetPlayer]: [jumpLock] and [grounded] are not among what it
    resets. *)
Definition resetPlayer (g : Game) : Game :=
  mkGame
    (setLinvel Vector3.zero (setTranslation spawnPoint (playerRb g)))
    (input g) (yaw g) (pitch g) (grounded g) (jumpLock g) false "".

(** [physicsStep]: the commit, [world.step()], the escape check and the
    goal check. *)
Definition physicsStep (w : World) (dt : R) (g : Game) : Game :=
  let c := physicsStep_commit w dt g in
  let c1 :=
    mkGame (step w (playerRb c)) (input c) (yaw c) (pitch c) (grounded c)
      (jumpLock c) (isClear c) (clearMsg c) in
  let pNow := translation (playerRb c1) in
  let dist := Vector3.length pNow in
  let c2 := if Js.gtb dist (PLANET_RADIUS + 30) then resetPlayer c1 else c1 in
  if negb (isClear c2) && Js.ltb (Vector3.distanceTo pNow goalPos) 3.2
  then
    mkGame (playerRb c2) (input c2) (yaw c2) (pitch c2) (grounded c2)
      (jumpLock c2) true "CLEAR! Press R to Restart"
  else c2.

(** Ticks in a row, one world answer per tick. *)
Definition ticks (ws : list World) (g : Game) : Game :=
  fold_left (fun g w => physicsStep w fixedDt g) ws g.

(** The ray cast of a tick. *)
Definition hitOf (w : World) (g : Game) : bool :=
  let p := translation (playerRb g) in
  castRay w p (Vector3.multiplyScalar (Vector3.normalize p) (-1)) 1.7.

(** Whether the escape check of a tick calls [resetPlayer]. *)
Definition escapes (w : World) (dt : R) (g : Game) : bool :=
  Js.gtb
    (Vector3.length
       (translation (step w (playerRb (physicsStep_commit w dt g)))))
    (PLANET_RADIUS + 30).

End MainTs.

(** ** The variant with smoothed input (src/unnamed/part_000)

    Its [physicsStep] steers by two smoothed axes instead of the keys'
    values; its props are placed by latitude and longitude. *)

Module Part000.

(** [THREE.MathUtils.lerp(x, y, t)] is [(1 - t) * x + t * y]. *)
Definition lerp (x y t : R) : R := (1 - t) * x + t * y.

(** [const smooth = 1 - Math.exp(-10 * dt)] *)
Definition smooth (dt : R) : R := 1 - exp (-10 * dt).

(** [smoothedInputX = lerp(smoothedInputX, targetInputX, smooth)], and the
    same for Z: one tick of one axis. *)
Definition smoothedInput (target dt s : R) : R := lerp s target (smooth dt).

(** [wishDir], from the smoothed axes.  The guard compares the exact
    squared length with 0: for axes so small that the squared length
    underflows in the program's doubles (below about 1e-162) the program
    skips the [normalize] this function performs. *)
Definition wishDir (smoothedInputX smoothedInputZ yaw : R) (up : Vector3.t)
    : Vector3.t :=
  let w :=
    Vector3.add (Vector3.multiplyScalar (camForward yaw up) smoothedInputZ)
                (Vector3.multiplyScalar (camRight yaw up) smoothedInputX) in
  if Js.gtb (Vector3.lengthSq w) 0 then Vector3.normalize w else w.

Definition surfaceUpFromLatLng (lat lng : R) : Vector3.t :=
  Vector3.normalize
    (Vector3.mk (cos lat * sin lng) (sin lat) (cos lat * cos lng)).

End Part000.

(** ** The second script of src/unnamed/part_001

    Its [updateBoomerang] normalises the enemy's heading without a guard
    and tests the normalised vector; the projectile is faster than its
    range divides, so the clamp takes part in every cycle. *)

Module Script2.

Definition enemyUp : Vector3.t :=
  Vector3.normalize (Vector3.mk 0.42 0.82 (-0.38)).
Definition enemyAnchor : Vector3.t :=
  Vector3.multiplyScalar enemyUp (PLANET_RADIUS + 1.8).

(** [projectOnPlane(enemyToPlayer, enemyUp).normalize()] *)
Definition enemyForward (playerPos : Vector3.t) : Vector3.t :=
  Vector3.normalize
    (projectOnPlane (Vector3.sub playerPos enemyAnchor) enemyUp).

Definition throwDir (playerPos : Vector3.t) : Vector3.t :=
  if Js.gtb (Vector3.lengthSq (enemyForward playerPos)) 0.001
  then enemyForward playerPos else Vector3.mk 0 0 1.

Definition travelSpeed : R := 26.

(** What [updateBoomerang] does to the projectile's variables. *)
Definition launches (dt : R) (b : Boomerang) : bool :=
  negb (active b) && Js.leb (cooldown b - dt) 0.

Definition boomerangStep (dt : R) (b : Boomerang) : Boomerang :=
  let cooldown1 := cooldown b - dt in
  let b2 :=
    if launches dt b then mkBoomerang true true 0 2.5 true
    else mkBoomerang (active b) (outward b) (distance b) cooldown1 (visible b) in
  if negb (active b2) then b2 else
  let dist3 :=
    Js.clamp
      (distance b2 + (if outward b2 then 1 else -1) * travelSpeed * dt) 0 14 in
  let outward4 := if Js.geb dist3 14 then false else outward b2 in
  if Js.leb dist3 0
  then mkBoomerang false outward4 dist3 (cooldown b2) false
  else mkBoomerang true outward4 dist3 (cooldown b2) (visible b2).

(** The distance [k] ticks into a cycle that starts with the launch tick:
    32 steps out, the clamped peak at tick 33, 32 steps back, and the
    clamped 0 at tick 66. *)
Definition cycleDistance (k : nat) : R :=
  if (k <=? 32)%nat then travelSpeed * fixedDt * INR k
  else if (k <=? 65)%nat then 14 - travelSpeed * fixedDt * (INR k - 33)
  else 0.

End Script2.

(** * Properties *)

(** ** Comparisons and clamping *)

Lemma gtb_true (a b : R) : Js.gtb a b = true <-> a > b.
Proof. unfold Js.gtb. destruct (Rgt_dec a b); split; intros; (congruence || lra). Qed.

Lemma gtb_false (a b : R) : Js.gtb a b = false <-> a <= b.
Proof. unfold Js.gtb. destruct (Rgt_dec a b); split; intros; (congruence || lra). Qed.

Lemma ltb_true (a b : R) : Js.ltb a b = true <-> a < b.
Proof. unfold Js.ltb. destruct (Rlt_dec a b); split; intros; (congruence || lra). Qed.

Lemma ltb_false (a b : R) : Js.ltb a b = false <-> b <= a.
Proof. unfold Js.ltb. destruct (Rlt_dec a b); split; intros; (congruence || lra). Qed.

Lemma geb_true (a b : R) : Js.geb a b = true <-> b <= a.
Proof. unfold Js.geb. destruct (Rge_dec a b); split; intros; (congruence || lra). Qed.

Lemma geb_false (a b : R) : Js.geb a b = false <-> a < b.
Proof. unfold Js.geb. destruct (Rge_dec a b); split; intros; (congruence || lra). Qed.

Lemma leb_true (a b : R) : Js.leb a b = true <-> a <= b.
Proof. unfold Js.leb. destruct (Rle_dec a b); split; intros; (congruence || lra). Qed.

Lemma leb_false (a b : R) : Js.leb a b = false <-> b < a.
Proof. unfold Js.leb. destruct (Rle_dec a b); split; intros; (congruence || lra). Qed.

Lemma clamp_spec (v lo hi : R) :
  lo <= hi ->
  (v <= lo /\ Js.clamp v lo hi = lo)
  \/ (lo <= v <= hi /\ Js.clamp v lo hi = v)
  \/ (hi <= v /\ Js.clamp v lo hi = hi).
Proof.
  intros Hle. unfold Js.clamp, Rmax, Rmin.
  destruct (Rle_dec hi v); destruct (Rle_dec lo hi); destruct (Rle_dec lo v);
    try lra;
    first [ left; split; lra
          | right; left; split; lra
          | right; right; split; lra ].
Qed.

Lemma clamp_bounds (v lo hi : R) : lo <= hi -> lo <= Js.clamp v lo hi <= hi.
Proof. intros H. destruct (clamp_spec v lo hi H) as [[? ->]|[[? ->]|[? ->]]]; lra. Qed.

(** Decide a comparison of the program both ways, keeping the real
    inequality as a hypothesis. *)
Ltac case_cmp c :=
  let E := fresh "E" in
  destruct c eqn:E;
  [ first [ apply gtb_true in E | apply ltb_true in E
          | apply geb_true in E | apply leb_true in E ]
  | first [ apply gtb_false in E | apply ltb_false in E
          | apply geb_false in E | apply leb_false in E ] ].

(** ** Vectors *)

Ltac vec_unfold :=
  unfold projectOnPlane, Vector3.setLength, Vector3.normalize,
    Vector3.divideScalar, Vector3.addScaledVector, Vector3.add, Vector3.sub,
    Vector3.multiplyScalar, Vector3.crossVectors, Vector3.dot,
    Vector3.distanceToSquared, Vector3.lengthSq, Vector3.zero in *;
  cbn [Vector3.x Vector3.y Vector3.z] in *.

Lemma vec_eq (a b : Vector3.t) :
  Vector3.x a = Vector3.x b -> Vector3.y a = Vector3.y b ->
  Vector3.z a = Vector3.z b -> a = b.
Proof. destruct a, b; cbn; intros; subst; reflexivity. Qed.

Lemma lengthSq_nonneg (a : Vector3.t) : 0 <= Vector3.lengthSq a.
Proof. vec_unfold. nra. Qed.

Lemma length_nonneg (a : Vector3.t) : 0 <= Vector3.length a.
Proof. apply sqrt_pos. Qed.

Lemma length_sqr (a : Vector3.t) :
  Vector3.length a * Vector3.length a = Vector3.lengthSq a.
Proof. apply sqrt_sqrt, lengthSq_nonneg. Qed.

Lemma lengthSq_dot (a : Vector3.t) : Vector3.lengthSq a = Vector3.dot a a.
Proof. reflexivity. Qed.

Lemma lengthSq_zero (a : Vector3.t) : Vector3.lengthSq a = 0 -> a = Vector3.zero.
Proof.
  intros H. apply vec_eq; vec_unfold; nra.
Qed.

Lemma length_zero (a : Vector3.t) : Vector3.length a = 0 -> a = Vector3.zero.
Proof.
  intros H. apply lengthSq_zero. rewrite <- length_sqr, H. lra.
Qed.

Lemma length_pos (a : Vector3.t) : 0 < Vector3.lengthSq a -> 0 < Vector3.length a.
Proof. apply sqrt_lt_R0. Qed.

Lemma length_of_zero : Vector3.length Vector3.zero = 0.
Proof.
  unfold Vector3.length. replace (Vector3.lengthSq Vector3.zero) with 0.
  - apply sqrt_0.
  - vec_unfold. ring.
Qed.

Lemma distanceTo_length (a b : Vector3.t) :
  Vector3.distanceTo a b = Vector3.length (Vector3.sub a b).
Proof. reflexivity. Qed.

Lemma length_multiplyScalar (a : Vector3.t) (s : R) :
  Vector3.length (Vector3.multiplyScalar a s) = Rabs s * Vector3.length a.
Proof.
  unfold Vector3.length.
  replace (Vector3.lengthSq (Vector3.multiplyScalar a s))
    with (Rsqr s * Vector3.lengthSq a) by (unfold Rsqr; vec_unfold; ring).
  rewrite sqrt_mult; [ | apply Rle_0_sqr | apply lengthSq_nonneg ].
  now rewrite sqrt_Rsqr_abs.
Qed.

(** The guard inside three.js [normalize]: it never divides by zero. *)
Lemma normalize_divisor_pos (a : Vector3.t) : 0 < Vector3.normalize_divisor a.
Proof.
  unfold Vector3.normalize_divisor, Js.or_else.
  destruct (Req_dec_T (Vector3.length a) 0) as [E|E]; [lra|].
  pose proof (length_nonneg a). lra.
Qed.

Lemma normalize_divisor_nonzero (a : Vector3.t) : Vector3.normalize_divisor a <> 0.
Proof. pose proof (normalize_divisor_pos a). lra. Qed.

Lemma normalize_divisor_length (a : Vector3.t) :
  Vector3.length a <> 0 -> Vector3.normalize_divisor a = Vector3.length a.
Proof.
  intros H. unfold Vector3.normalize_divisor, Js.or_else.
  destruct (Req_dec_T (Vector3.length a) 0); [contradiction|reflexivity].
Qed.

Lemma normalize_zero : Vector3.normalize Vector3.zero = Vector3.zero.
Proof.
  apply vec_eq; unfold Vector3.normalize, Vector3.divideScalar;
    vec_unfold; ring.
Qed.

Lemma length_normalize (a : Vector3.t) :
  0 < Vector3.lengthSq a -> Vector3.length (Vector3.normalize a) = 1.
Proof.
  intros H. apply length_pos in H.
  unfold Vector3.normalize, Vector3.divideScalar.
  rewrite length_multiplyScalar, normalize_divisor_length by lra.
  rewrite Rabs_pos_eq.
  - field. lra.
  - apply Rlt_le. apply Rdiv_lt_0_compat; lra.
Qed.

Lemma lengthSq_normalize (a : Vector3.t) :
  0 < Vector3.lengthSq a -> Vector3.lengthSq (Vector3.normalize a) = 1.
Proof.
  intros H. rewrite <- length_sqr, length_normalize by assumption. ring.
Qed.

(** Cauchy-Schwarz, through Lagrange's identity. *)
Lemma dot_sqr_le (a b : Vector3.t) :
  Vector3.dot a b * Vector3.dot a b <= Vector3.lengthSq a * Vector3.lengthSq b.
Proof.
  pose proof (lengthSq_nonneg (Vector3.crossVectors a b)) as H.
  vec_unfold. nra.
Qed.

Lemma dot_le_length (a b : Vector3.t) :
  Vector3.dot a b <= Vector3.length a * Vector3.length b.
Proof.
  pose proof (dot_sqr_le a b) as H.
  rewrite <- (length_sqr a), <- (length_sqr b) in H.
  pose proof (length_nonneg a). pose proof (length_nonneg b).
  assert (Hp : 0 <= Vector3.length a * Vector3.length b) by nra.
  replace (Vector3.length a * Vector3.length a
           * (Vector3.length b * Vector3.length b))
    with ((Vector3.length a * Vector3.length b)
          * (Vector3.length a * Vector3.length b)) in H by ring.
  set (p := Vector3.length a * Vector3.length b) in *.
  destruct (Rle_dec (Vector3.dot a b) p); [assumption|nra].
Qed.

Lemma length_le_of_sqr (a : Vector3.t) (r : R) :
  0 <= r -> Vector3.lengthSq a <= r * r -> Vector3.length a <= r.
Proof.
  intros Hr H. pose proof (length_nonneg a). pose proof (length_sqr a).
  destruct (Rle_dec (Vector3.length a) r); [assumption|nra].
Qed.

Lemma length_add_le (a b : Vector3.t) :
  Vector3.length (Vector3.add a b) <= Vector3.length a + Vector3.length b.
Proof.
  pose proof (length_nonneg a). pose proof (length_nonneg b).
  apply length_le_of_sqr; [lra|].
  pose proof (dot_le_length a b) as Hd.
  pose proof (length_sqr a) as Ha. pose proof (length_sqr b) as Hb.
  replace (Vector3.lengthSq (Vector3.add a b))
    with (Vector3.lengthSq a + 2 * Vector3.dot a b + Vector3.lengthSq b)
    by (vec_unfold; ring).
  nra.
Qed.

Lemma length_sub_ge (a b : Vector3.t) :
  Vector3.length a - Vector3.length b <= Vector3.length (Vector3.sub a b).
Proof.
  pose proof (length_add_le (Vector3.sub a b) b) as H.
  replace (Vector3.add (Vector3.sub a b) b) with a in H; [lra|].
  apply vec_eq; vec_unfold; ring.
Qed.

Lemma length_sub_sym (a b : Vector3.t) :
  Vector3.length (Vector3.sub a b) = Vector3.length (Vector3.sub b a).
Proof. unfold Vector3.length. f_equal. vec_unfold. ring. Qed.

(** ** The first half of a tick, field by field *)

Ltac game_simpl :=
  cbn [playerRb input jumpBufferTimer yaw pitch grounded wasGrounded
       jumpComboIndex comboTimer isClear hitFlash boomerangActive
       boomerangOutward boomerangDistance boomerangCooldown
       boomerangMesh_visible boomerangMesh_position clearMsg
       set_playerRb set_input set_jumpBufferTimer set_yaw set_pitch
       set_grounded set_wasGrounded set_jumpComboIndex set_comboTimer
       set_isClear set_hitFlash set_boomerangActive set_boomerangOutward
       set_boomerangDistance set_boomerangCooldown set_boomerangMesh_visible
       set_boomerangMesh_position set_clearMsg
       translation linvel invMass setTranslation setLinvel applyImpulse
       andb negb orb] in *.

Lemma physicsStep_commit_eq (w : World) (dt : R) (g : Game) :
  physicsStep_commit w dt g
  = mkGame
      (mkBody (translation (playerRb g)) (committedVelocity w dt g)
         (invMass (playerRb g)))
      (input g)
      (if jumpFires w dt g then 0 else jumpBufferNow dt g)
      (yaw g) (pitch g)
      (if jumpFires w dt g then false else groundedNow w g)
      (wasGrounded g)
      (if jumpFires w dt g then nextComboIndex (jumpStage w dt g)
       else jumpStage w dt g)
      (if jumpFires w dt g then Js.PosInfinity else comboTimerNow w dt g)
      (isClear g) (hitFlash g) (boomerangActive g) (boomerangOutward g)
      (boomerangDistance g) (boomerangCooldown g) (boomerangMesh_visible g)
      (boomerangMesh_position g) (clearMsg g).
Proof.
  destruct g as [[p v im] keys jb yw pt gr wg idx ct clr hf ba bo bd bc bv bp msg].
  unfold physicsStep_commit, committedVelocity, jumpImpulseVector,
    velocityAfterGravity, jumpFires, jumpStage, comboTimerNow, jumpBufferNow,
    groundedNow, upOf, nextComboIndex.
  game_simpl.
  generalize (castRay w p (Vector3.multiplyScalar (Vector3.normalize p) (-1))
                GROUND_RAY_LEN).
  intros hit.
  destruct hit, wg, clr; game_simpl;
    repeat match goal with
           | H : ?c = _ |- context [?c] => rewrite H; game_simpl
           | |- context [Js.num_gtb ?t ?b] =>
               destruct (Js.num_gtb t b) eqn:?; game_simpl
           | |- context [Js.gtb ?t ?b] =>
               destruct (Js.gtb t b) eqn:?; game_simpl
           end;
    first [reflexivity | congruence].
Qed.

(** ** Tangential and normal parts *)

Lemma dot_multiplyScalar_l (a b : Vector3.t) (s : R) :
  Vector3.dot (Vector3.multiplyScalar a s) b = s * Vector3.dot a b.
Proof. vec_unfold. ring. Qed.

Lemma dot_add_l (a b c : Vector3.t) :
  Vector3.dot (Vector3.add a b) c = Vector3.dot a c + Vector3.dot b c.
Proof. vec_unfold. ring. Qed.

Lemma dot_sub_l (a b c : Vector3.t) :
  Vector3.dot (Vector3.sub a b) c = Vector3.dot a c - Vector3.dot b c.
Proof. vec_unfold. ring. Qed.

Lemma dot_addScaledVector_l (a v c : Vector3.t) (s : R) :
  Vector3.dot (Vector3.addScaledVector a v s) c
  = Vector3.dot a c + s * Vector3.dot v c.
Proof. vec_unfold. ring. Qed.

Lemma dot_normalize_l (a b : Vector3.t) :
  Vector3.dot (Vector3.normalize a) b
  = Vector3.dot a b * (1 / Vector3.normalize_divisor a).
Proof.
  unfold Vector3.normalize, Vector3.divideScalar.
  rewrite dot_multiplyScalar_l. ring.
Qed.

Lemma dot_crossVectors_r (a b : Vector3.t) :
  Vector3.dot (Vector3.crossVectors a b) b = 0.
Proof. vec_unfold. ring. Qed.

Lemma dot_projectOnPlane (v n : Vector3.t) :
  Vector3.lengthSq n = 1 -> Vector3.dot (projectOnPlane v n) n = 0.
Proof.
  intros Hn. unfold projectOnPlane.
  rewrite dot_sub_l, dot_multiplyScalar_l, <- lengthSq_dot, Hn. ring.
Qed.

Lemma upOf_unit (g : Game) :
  translation (playerRb g) <> Vector3.zero -> Vector3.lengthSq (upOf g) = 1.
Proof.
  intros Hp. apply lengthSq_normalize.
  pose proof (lengthSq_nonneg (translation (playerRb g))) as H.
  destruct (Req_dec_T (Vector3.lengthSq (translation (playerRb g))) 0) as [E|E].
  - apply lengthSq_zero in E. contradiction.
  - lra.
Qed.

Section Steering.
Variable up : Vector3.t.
Hypothesis up_unit : Vector3.lengthSq up = 1.

Lemma camForward_tangent (yaw : R) : Vector3.dot (camForward yaw up) up = 0.
Proof.
  unfold camForward. rewrite dot_normalize_l, dot_projectOnPlane by assumption.
  ring.
Qed.

Lemma camRight_tangent (yaw : R) : Vector3.dot (camRight yaw up) up = 0.
Proof.
  unfold camRight. rewrite dot_normalize_l, dot_crossVectors_r. ring.
Qed.

Lemma wishDir_tangent (keys : gset string) (yaw : R) :
  Vector3.dot (wishDir keys yaw up) up = 0.
Proof.
  unfold wishDir.
  assert (H : Vector3.dot
                (Vector3.add
                   (Vector3.multiplyScalar (camForward yaw up) (moveZ keys))
                   (Vector3.multiplyScalar (camRight yaw up) (moveX keys)))
                up = 0).
  { rewrite dot_add_l, !dot_multiplyScalar_l, camForward_tangent,
      camRight_tangent. ring. }
  destruct (Js.gtb _ 0); [|exact H].
  rewrite dot_normalize_l, H. ring.
Qed.

Lemma deltaVel_tangent (targetVel tangentialVel : Vector3.t) (m : R) :
  Vector3.dot targetVel up = 0 -> Vector3.dot tangentialVel up = 0 ->
  Vector3.dot (deltaVel targetVel tangentialVel m) up = 0.
Proof.
  intros Ht Hv. unfold deltaVel.
  assert (H : Vector3.dot (Vector3.sub targetVel tangentialVel) up = 0)
    by (rewrite dot_sub_l; lra).
  destruct (Js.gtb _ m); [|exact H].
  unfold Vector3.setLength.
  rewrite dot_multiplyScalar_l, dot_normalize_l, H. ring.
Qed.

Lemma tangentialNew_tangent
    (wish : Vector3.t) (cap m drag dt : R) (velocity : Vector3.t) :
  Vector3.dot wish up = 0 ->
  Vector3.dot (tangentialNew wish cap m drag dt up velocity) up = 0.
Proof.
  intros Hw. unfold tangentialNew.
  rewrite dot_multiplyScalar_l, dot_add_l, deltaVel_tangent.
  - rewrite dot_projectOnPlane by assumption. ring.
  - rewrite dot_multiplyScalar_l, Hw. ring.
  - now apply dot_projectOnPlane.
Qed.

(** Steering replaces the tangential part and keeps the normal part. *)
Lemma steer_components
    (wish : Vector3.t) (cap m drag dt : R) (velocity : Vector3.t) :
  Vector3.dot wish up = 0 ->
  let v' := steer wish cap m drag dt up velocity in
  projectOnPlane v' up = tangentialNew wish cap m drag dt up velocity
  /\ Vector3.sub v' (projectOnPlane v' up)
     = Vector3.sub velocity (projectOnPlane velocity up)
  /\ Vector3.dot v' up = Vector3.dot velocity up.
Proof.
  intros Hw v'.
  pose proof (tangentialNew_tangent wish cap m drag dt velocity Hw) as Ht.
  assert (Hd : Vector3.dot v' up = Vector3.dot velocity up).
  { unfold v', steer. rewrite dot_add_l, Ht, dot_sub_l.
    rewrite dot_projectOnPlane by assumption. ring. }
  assert (Hp : projectOnPlane v' up
               = tangentialNew wish cap m drag dt up velocity).
  { unfold projectOnPlane at 1. rewrite Hd. unfold v', steer.
    unfold projectOnPlane.
    generalize (tangentialNew wish cap m drag dt up velocity). intros T.
    apply vec_eq; cbn [Vector3.add Vector3.sub Vector3.multiplyScalar
                       Vector3.x Vector3.y Vector3.z]; ring. }
  split; [exact Hp|]. split; [|exact Hd].
  rewrite Hp. unfold v', steer.
  generalize (tangentialNew wish cap m drag dt up velocity). intros T.
  apply vec_eq; cbn [Vector3.add Vector3.sub Vector3.x Vector3.y Vector3.z];
    ring.
Qed.
End Steering.

(** ** The projectile update, field by field *)

Lemma updateEnemyAndBoomerang_eq
    (dt : R) (playerPos upAtPlayer : Vector3.t) (g : Game) :
  let b := boomerangStep dt (boomerangOf g) in
  let pos := boomerangPosOf dt playerPos g in
  let k := push playerPos pos upAtPlayer in
  let lv := linvel (playerRb g) in
  updateEnemyAndBoomerang dt playerPos upAtPlayer g
  = mkGame
      (if hits dt playerPos g
       then setLinvel
              (Vector3.mk (Vector3.x lv + Vector3.x k)
                 (Vector3.y lv + Vector3.y k) (Vector3.z lv + Vector3.z k))
              (playerRb g)
       else playerRb g)
      (input g) (jumpBufferTimer g) (yaw g) (pitch g) (grounded g)
      (wasGrounded g) (jumpComboIndex g) (comboTimer g) (isClear g)
      (if hits dt playerPos g then 0.12 else hitFlash g)
      (active b) (outward b) (distance b) (cooldown b) (visible b)
      (if active b then pos else boomerangMesh_position g)
      (clearMsg g).
Proof.
  destruct g as [[p v im] keys jb yw pt gr wg idx ct clr hf ba bo bd bc bv bp msg].
  unfold updateEnemyAndBoomerang, hits, boomerangPosOf, boomerangStep, launches,
    boomerangOf.
  cbn [active outward distance cooldown visible]. game_simpl.
  destruct ba; game_simpl; cbn [active outward distance cooldown visible];
    repeat match goal with
           | H : ?c = _ |- context [?c] =>
               rewrite H;
               game_simpl; cbn [active outward distance cooldown visible]
           | |- context [Js.leb ?t ?b] =>
               destruct (Js.leb t b) eqn:?;
               game_simpl; cbn [active outward distance cooldown visible]
           | |- context [Js.geb ?t ?b] =>
               destruct (Js.geb t b) eqn:?;
               game_simpl; cbn [active outward distance cooldown visible]
           | |- context [Js.ltb ?t ?b] =>
               destruct (Js.ltb t b) eqn:?;
               game_simpl; cbn [active outward distance cooldown visible]
           end;
    first [reflexivity | congruence].
Qed.

(** ** Where things are *)

Lemma length_scaled_unit (a : Vector3.t) (s : R) :
  Vector3.length a = 1 -> 0 <= s ->
  Vector3.length (Vector3.multiplyScalar a s) = s.
Proof.
  intros Ha Hs. rewrite length_multiplyScalar, Ha, Rabs_pos_eq by assumption.
  ring.
Qed.

Lemma length_enemyUp : Vector3.length enemyUp = 1.
Proof. apply length_normalize. vec_unfold. lra. Qed.

Lemma length_enemyAnchor : Vector3.length enemyAnchor = 101.6.
Proof.
  unfold enemyAnchor. rewrite length_scaled_unit.
  - unfold PLANET_RADIUS. lra.
  - apply length_enemyUp.
  - unfold PLANET_RADIUS. lra.
Qed.

Lemma length_goalPos : Vector3.length goalPos = 101.4.
Proof.
  unfold goalPos. rewrite length_scaled_unit.
  - unfold PLANET_RADIUS. lra.
  - apply length_normalize. unfold PLANET_RADIUS. vec_unfold. lra.
  - unfold PLANET_RADIUS. lra.
Qed.

Lemma length_default_heading : Vector3.length (Vector3.mk 0 0 1) = 1.
Proof.
  unfold Vector3.length.
  replace (Vector3.lengthSq (Vector3.mk 0 0 1)) with (1 * 1)
    by (vec_unfold; ring).
  apply sqrt_square. lra.
Qed.

(** The heading handed to the projectile is a unit vector, whichever branch
    chose it. *)
Lemma length_throwDir (playerPos : Vector3.t) :
  Vector3.length (throwDir playerPos) = 1.
Proof.
  unfold throwDir, tangentForward.
  set (tf := projectOnPlane (Vector3.sub playerPos enemyAnchor) enemyUp).
  case_cmp (Js.gtb (Vector3.lengthSq tf) 0.0001).
  - assert (H1 : Vector3.lengthSq (Vector3.normalize tf) = 1)
      by (apply lengthSq_normalize; lra).
    case_cmp (Js.gtb (Vector3.lengthSq (Vector3.normalize tf)) 0.0001).
    + apply length_normalize. lra.
    + lra.
  - rewrite (proj2 (gtb_false _ _) E). apply length_default_heading.
Qed.

Lemma boomerangStep_distance (dt : R) (b : Boomerang) :
  active (boomerangStep dt b) = true ->
  0 < distance (boomerangStep dt b) <= BOOMERANG_MAX_DIST.
Proof.
  unfold boomerangStep.
  set (b2 := if launches dt b then _ else _).
  destruct (active b2) eqn:Eb2; cbn [negb]; [|congruence].
  set (d4 := Js.clamp _ 0 BOOMERANG_MAX_DIST).
  assert (Hd : 0 <= d4 <= BOOMERANG_MAX_DIST)
    by (apply clamp_bounds; unfold BOOMERANG_MAX_DIST; lra).
  case_cmp (Js.leb d4 0); cbn [active distance]; [discriminate|].
  intros _. lra.
Qed.

Lemma length_boomerangPos (playerPos : Vector3.t) (d : R) :
  0 <= d <= BOOMERANG_MAX_DIST ->
  Vector3.length
    (Vector3.add enemyAnchor (Vector3.multiplyScalar (throwDir playerPos) d))
  <= 117.6.
Proof.
  intros Hd.
  eapply Rle_trans; [apply length_add_le|].
  rewrite length_enemyAnchor, length_scaled_unit
    by (apply length_throwDir || lra).
  unfold BOOMERANG_MAX_DIST in Hd. lra.
Qed.

(** Past the escape radius the player is out of the projectile's reach. *)
Lemma escaped_not_hit (dt : R) (playerPos : Vector3.t) (g : Game) :
  Vector3.length playerPos > PLANET_RADIUS + 60 -> hits dt playerPos g = false.
Proof.
  intros Hfar. unfold hits.
  destruct (active (boomerangStep dt (boomerangOf g))) eqn:Ea; [|reflexivity].
  cbn [andb]. apply ltb_false.
  pose proof (boomerangStep_distance dt _ Ea) as Hd.
  unfold boomerangPosOf. rewrite distanceTo_length, length_sub_sym.
  eapply Rle_trans; [|apply length_sub_ge].
  pose proof (length_boomerangPos playerPos
                (distance (boomerangStep dt (boomerangOf g)))) as Hb.
  unfold PLANET_RADIUS, BOOMERANG_HIT_RADIUS in *.
  assert (0 <= distance (boomerangStep dt (boomerangOf g)) <= BOOMERANG_MAX_DIST)
    by lra.
  specialize (Hb H). lra.
Qed.

(** ... and out of the goal's. *)
Lemma escaped_not_at_goal (playerPos : Vector3.t) :
  Vector3.length playerPos > PLANET_RADIUS + 60 ->
  Js.ltb (Vector3.distanceTo playerPos goalPos) 4.2 = false.
Proof.
  intros Hfar. apply ltb_false. rewrite distanceTo_length.
  eapply Rle_trans; [|apply length_sub_ge].
  rewrite length_goalPos. unfold PLANET_RADIUS in Hfar. lra.
Qed.

(** Near the goal the player is well inside the escape radius. *)
Lemma at_goal_not_escaped (playerPos : Vector3.t) :
  Vector3.distanceTo playerPos goalPos < 4.2 ->
  Js.gtb (Vector3.length playerPos) (PLANET_RADIUS + 60) = false.
Proof.
  intros Hnear. apply gtb_false. rewrite distanceTo_length in Hnear.
  pose proof (length_sub_ge playerPos goalPos) as H.
  rewrite length_goalPos in H. unfold PLANET_RADIUS. lra.
Qed.

(** ** A whole tick *)

Lemma physicsStep_eq (w : World) (dt : R) (g : Game) :
  physicsStep w dt g
  = tickTail dt (playerNowOf w dt g)
      (if escapes w dt g then resetPlayer (afterStep w dt g)
       else afterStep w dt g).
Proof.
  unfold physicsStep, tickTail, goalCheck, afterStep, escapes, playerNowOf.
  generalize (physicsStep_commit w dt g). intros c.
  cbv zeta. game_simpl. reflexivity.
Qed.

Lemma afterStep_eq (w : World) (dt : R) (g : Game) :
  afterStep w dt g
  = mkGame
      (step w
         (mkBody (translation (playerRb g)) (committedVelocity w dt g)
            (invMass (playerRb g))))
      (input g)
      (if jumpFires w dt g then 0 else jumpBufferNow dt g)
      (yaw g) (pitch g)
      (if jumpFires w dt g then false else groundedNow w g)
      (if jumpFires w dt g then false else groundedNow w g)
      (if jumpFires w dt g then nextComboIndex (jumpStage w dt g)
       else jumpStage w dt g)
      (if jumpFires w dt g then Js.PosInfinity else comboTimerNow w dt g)
      (isClear g) (hitFlash g) (boomerangActive g) (boomerangOutward g)
      (boomerangDistance g) (boomerangCooldown g) (boomerangMesh_visible g)
      (boomerangMesh_position g) (clearMsg g).
Proof.
  unfold afterStep. rewrite physicsStep_commit_eq. reflexivity.
Qed.

Lemma playerNowOf_eq (w : World) (dt : R) (g : Game) :
  playerNowOf w dt g
  = translation
      (step w
         (mkBody (translation (playerRb g)) (committedVelocity w dt g)
            (invMass (playerRb g)))).
Proof. unfold playerNowOf. rewrite physicsStep_commit_eq. reflexivity. Qed.

Lemma escapes_far (w : World) (dt : R) (g : Game) :
  escapes w dt g = true ->
  Vector3.length (playerNowOf w dt g) > PLANET_RADIUS + 60.
Proof. intros He. apply gtb_true. exact He. Qed.

Lemma tickTail_far (dt : R) (pn : Vector3.t) (c : Game) :
  Vector3.length pn > PLANET_RADIUS + 60 ->
  tickTail dt pn c
  = mkGame (playerRb c) (input c) (jumpBufferTimer c) (yaw c) (pitch c)
      (grounded c) (wasGrounded c) (jumpComboIndex c) (comboTimer c)
      (isClear c) (hitFlash c)
      (active (boomerangStep dt (boomerangOf c)))
      (outward (boomerangStep dt (boomerangOf c)))
      (distance (boomerangStep dt (boomerangOf c)))
      (cooldown (boomerangStep dt (boomerangOf c)))
      (visible (boomerangStep dt (boomerangOf c)))
      (if active (boomerangStep dt (boomerangOf c))
       then boomerangPosOf dt pn c else boomerangMesh_position c)
      (clearMsg c).
Proof.
  intros Hfar. unfold tickTail.
  rewrite updateEnemyAndBoomerang_eq. cbv zeta.
  rewrite escaped_not_hit by exact Hfar.
  unfold goalCheck. rewrite (escaped_not_at_goal _ Hfar).
  rewrite andb_false_r. reflexivity.
Qed.

Lemma tickTail_fields (dt : R) (pn : Vector3.t) (c : Game) :
  let g' := tickTail dt pn c in
  input g' = input c
  /\ jumpBufferTimer g' = jumpBufferTimer c
  /\ yaw g' = yaw c
  /\ pitch g' = pitch c
  /\ grounded g' = grounded c
  /\ wasGrounded g' = wasGrounded c
  /\ jumpComboIndex g' = jumpComboIndex c
  /\ comboTimer g' = comboTimer c
  /\ isClear g'
     = (isClear c || Js.ltb (Vector3.distanceTo pn goalPos) 4.2)%bool
  /\ boomerangOf g' = boomerangStep dt (boomerangOf c)
  /\ translation (playerRb g') = translation (playerRb c)
  /\ invMass (playerRb g') = invMass (playerRb c).
Proof.
  intros g'. unfold g', tickTail.
  rewrite updateEnemyAndBoomerang_eq. cbv zeta.
  generalize (boomerangStep dt (boomerangOf c)). intros b.
  generalize (hits dt pn c). intros h.
  generalize (push pn (boomerangPosOf dt pn c) (Vector3.normalize pn)).
  intros k.
  generalize (boomerangPosOf dt pn c). intros bp.
  unfold goalCheck. cbn [isClear].
  destruct c as [[p v im] keys jb yw pt gr wg idx ct clr hf ba bo bd bc bv bq msg].
  destruct b as [a o d cd vs].
  cbn [playerRb input jumpBufferTimer yaw pitch grounded wasGrounded
       jumpComboIndex comboTimer isClear hitFlash clearMsg
       active outward distance cooldown visible linvel].
  destruct clr, (Js.ltb (Vector3.distanceTo pn goalPos) 4.2), h;
    cbn; repeat split; reflexivity.
Qed.

Lemma length_axis_y (y : R) : 0 <= y -> Vector3.length (Vector3.mk 0 y 0) = y.
Proof.
  intros Hy. unfold Vector3.length.
  replace (Vector3.lengthSq (Vector3.mk 0 y 0)) with (y * y)
    by (vec_unfold; ring).
  now apply sqrt_square.
Qed.

Lemma length_spawnPoint : Vector3.length spawnPoint = 103.2.
Proof.
  unfold spawnPoint, PLANET_RADIUS. rewrite length_axis_y; lra.
Qed.

Lemma resetPlayer_eq (c : Game) :
  resetPlayer c
  = mkGame (mkBody spawnPoint Vector3.zero (invMass (playerRb c))) (input c) 0
      (yaw c) (pitch c) (grounded c) (wasGrounded c) 0%nat Js.PosInfinity false
      (hitFlash c) (boomerangActive c) (boomerangOutward c)
      (boomerangDistance c) (boomerangCooldown c) (boomerangMesh_visible c)
      (boomerangMesh_position c) "".
Proof. reflexivity. Qed.

(** ** Escape and reset *)

(** C7.  When the position sampled after [world.step()] is farther than
    [PLANET_RADIUS + 60] from the planet centre, the tick ends reset,
    whatever the state before: the body is at the spawn point with zero
    velocity, the combo index is 0, the jump buffer is 0, the combo timer
    is disarmed, and the cleared flag is off. *)
Theorem escape_performs_full_reset (w : World) (dt : R) (g : Game) :
  escapes w dt g = true ->
  let g' := physicsStep w dt g in
  translation (playerRb g') = spawnPoint
  /\ linvel (playerRb g') = Vector3.zero
  /\ jumpComboIndex g' = 0%nat
  /\ jumpBufferTimer g' = 0
  /\ comboTimer g' = Js.PosInfinity
  /\ isClear g' = false.
Proof.
  intros He g'. unfold g'.
  rewrite physicsStep_eq, He, tickTail_far by (apply escapes_far; exact He).
  rewrite resetPlayer_eq. cbn [playerRb translation linvel jumpComboIndex
                               jumpBufferTimer comboTimer isClear].
  repeat split; reflexivity.
Qed.

Lemma escapes_worldFlung (dt : R) (g : Game) : escapes worldFlung dt g = true.
Proof.
  unfold escapes, worldFlung. cbn [step setTranslation translation].
  apply gtb_true. rewrite length_axis_y by lra. unfold PLANET_RADIUS. lra.
Qed.

Lemma escape_performs_full_reset_witness :
  escapes worldFlung fixedDt (keydown "Space" (initialGame 1)) = true
  /\ let g' := physicsStep worldFlung fixedDt (keydown "Space" (initialGame 1)) in
     translation (playerRb g') = spawnPoint
     /\ linvel (playerRb g') = Vector3.zero
     /\ jumpComboIndex g' = 0%nat
     /\ jumpBufferTimer g' = 0
     /\ comboTimer g' = Js.PosInfinity
     /\ isClear g' = false.
Proof.
  split.
  - apply escapes_worldFlung.
  - apply (escape_performs_full_reset worldFlung fixedDt
             (keydown "Space" (initialGame 1))).
    apply escapes_worldFlung.
Defined.

(** ** The cleared flag *)

Lemma escapes_still_world (cast : Vector3.t -> Vector3.t -> R -> bool)
    (dt : R) (g : Game) :
  escapes (mkWorld cast (fun rb => rb)) dt g
  = Js.gtb (Vector3.length (translation (playerRb g))) (PLANET_RADIUS + 60).
Proof.
  unfold escapes. cbn [step]. rewrite physicsStep_commit_eq. reflexivity.
Qed.

Lemma length_sub_self (a : Vector3.t) : Vector3.length (Vector3.sub a a) = 0.
Proof.
  replace (Vector3.sub a a) with Vector3.zero
    by (apply vec_eq; vec_unfold; ring).
  apply length_of_zero.
Qed.

Lemma playerNowOf_worldAtGoal (dt : R) (g : Game) :
  playerNowOf worldAtGoal dt g = goalPos.
Proof. reflexivity. Qed.

Lemma isClear_physicsStep (w : World) (dt : R) (g : Game) :
  isClear (physicsStep w dt g)
  = if escapes w dt g then false
    else (isClear g
          || Js.ltb (Vector3.distanceTo (playerNowOf w dt g) goalPos) 4.2)%bool.
Proof.
  rewrite physicsStep_eq.
  destruct (tickTail_fields dt (playerNowOf w dt g)
              (if escapes w dt g then resetPlayer (afterStep w dt g)
               else afterStep w dt g))
    as (_ & _ & _ & _ & _ & _ & _ & _ & Hc & _).
  rewrite Hc. destruct (escapes w dt g) eqn:He.
  - rewrite (escaped_not_at_goal _ (escapes_far w dt g He)). reflexivity.
  - rewrite afterStep_eq. reflexivity.
Qed.

Lemma isClear_keydown (code : string) (g : Game) :
  isClear (keydown code g)
  = if String.eqb code "KeyR" then false else isClear g.
Proof.
  unfold keydown. destruct (String.eqb code "KeyR"), (String.eqb code "Space");
    reflexivity.
Qed.

Lemma isClear_handle (e : Event) (g : Game) :
  isClear g = true -> resets e g = false -> isClear (handle e g) = true.
Proof.
  intros Hc Hr. destruct e as [code|code|l mx my|w|]; cbn [handle resets] in *.
  - rewrite isClear_keydown, Hr. exact Hc.
  - exact Hc.
  - unfold mousemove. destruct l; exact Hc.
  - rewrite isClear_physicsStep, Hr, Hc. reflexivity.
  - unfold render. destruct (Js.gtb (hitFlash g) 0); exact Hc.
Qed.

(** C8.  The cleared flag latches: a tick whose sampled position is within
    4.2 of the goal ends with the flag set; along any run in which no event
    calls [resetPlayer] (no KeyR key-down, no escaping tick) a set flag
    stays set, wherever the player goes; and an event that turns a set flag
    off is one that calls [resetPlayer]. *)
Theorem cleared_latches_until_reset :
  (forall (w : World) (dt : R) (g : Game),
      Vector3.distanceTo (playerNowOf w dt g) goalPos < 4.2 ->
      isClear (physicsStep w dt g) = true)
  /\ (forall (es : list Event) (g : Game),
        isClear g = true -> resetFree es g = true -> isClear (run es g) = true)
  /\ (forall (e : Event) (g : Game),
        isClear g = true -> isClear (handle e g) = false -> resets e g = true).
Proof.
  split; [|split].
  - intros w dt g Hnear. rewrite isClear_physicsStep.
    unfold escapes. fold (playerNowOf w dt g).
    rewrite (at_goal_not_escaped _ Hnear).
    rewrite (proj2 (ltb_true _ _) Hnear). apply orb_true_r.
  - induction es as [|e es IH]; intros g Hc Hf; cbn [run resetFree] in *.
    + exact Hc.
    + apply andb_true_iff in Hf. destruct Hf as [Hr Hf].
      apply negb_true_iff in Hr. apply IH; [|exact Hf].
      now apply isClear_handle.
  - intros e g Hc Hh. destruct (resets e g) eqn:Hr; [reflexivity|].
    rewrite (isClear_handle e g Hc Hr) in Hh. discriminate.
Qed.

Lemma cleared_latches_until_reset_witness :
  isClear (physicsStep worldAtGoal fixedDt (initialGame 1)) = true
  /\ isClear
       (run [KeyDown "Space"; Tick worldAirborne; KeyUp "Space"]
          (set_isClear true (initialGame 1))) = true
  /\ resets (KeyDown "KeyR") (set_isClear true (initialGame 1)) = true.
Proof.
  destruct cleared_latches_until_reset as (Hset & Hkeep & Honly).
  split; [|split].
  - apply Hset. rewrite playerNowOf_worldAtGoal, distanceTo_length,
      length_sub_self. lra.
  - apply Hkeep; [reflexivity|].
    cbn [resetFree resets handle negb andb].
    replace (String.eqb "Space" "KeyR") with false by reflexivity.
    cbn [negb andb]. unfold worldAirborne. rewrite escapes_still_world.
    replace (translation (playerRb (keydown "Space" (set_isClear true (initialGame 1)))))
      with spawnPoint by reflexivity.
    rewrite length_spawnPoint.
    rewrite (proj2 (gtb_false _ _)); [reflexivity|unfold PLANET_RADIUS; lra].
  - apply Honly; reflexivity.
Defined.

(** ** Gravity, jump and the normal component *)

Lemma dot_jumpImpulseVector (up : Vector3.t) (j : R) :
  Vector3.dot
    (Vector3.mk (Vector3.x up * j) (Vector3.y up * j) (Vector3.z up * j)) up
  = j * Vector3.lengthSq up.
Proof. vec_unfold. ring. Qed.

Lemma dot_velocityAfterGravity (dt : R) (g : Game) :
  Vector3.lengthSq (upOf g) = 1 ->
  Vector3.dot (velocityAfterGravity dt g) (upOf g)
  = Vector3.dot (linvel (playerRb g)) (upOf g) - GRAVITY * dt.
Proof.
  intros Hu. unfold velocityAfterGravity.
  rewrite dot_addScaledVector_l, dot_multiplyScalar_l, <- lengthSq_dot, Hu.
  ring.
Qed.

Lemma MainTs_wish_tangent (up : Vector3.t) (keys : gset string) (yaw : R) :
  Vector3.lengthSq up = 1 -> Vector3.dot (MainTs.wish keys yaw up) up = 0.
Proof. intros Hu. exact (wishDir_tangent up Hu keys yaw). Qed.

(** C1.  With the player off the planet centre, the velocity committed to
    the body before [world.step()] has its component along [up] equal to
    that of the velocity read at tick start minus [GRAVITY * dt], plus the
    contribution of the jump impulse when the jump branch runs (the impulse
    of the stage times the body's inverse mass); and steering (wish
    direction, clamped acceleration, drag) keeps the component along [up]
    and the whole normal part of the velocity it is given.  The same holds
    for the first variant of the loop, whose jump adds [JUMP_SPEED]. *)
Theorem normal_component_changes_by_gravity_and_jump
    (w : World) (dt : R) (g : Game) (m : MainTs.Game) :
  translation (playerRb g) <> Vector3.zero ->
  translation (MainTs.playerRb m) <> Vector3.zero ->
  let up := upOf g in
  let v0 := linvel (playerRb g) in
  let v1 := linvel (playerRb (physicsStep_commit w dt g)) in
  Vector3.dot v1 up
  = Vector3.dot v0 up - GRAVITY * dt
    + (if jumpFires w dt g
       then invMass (playerRb g) * jumpImpulseAt (jumpStage w dt g) else 0)
  /\ (forall keys yaw grounded velocity,
        let v' := locomotion keys yaw grounded dt up velocity in
        Vector3.dot v' up = Vector3.dot velocity up
        /\ Vector3.sub v' (projectOnPlane v' up)
           = Vector3.sub velocity (projectOnPlane velocity up))
  /\ (let up := Vector3.normalize (translation (MainTs.playerRb m)) in
      let hit :=
        castRay w (translation (MainTs.playerRb m))
          (Vector3.multiplyScalar up (-1)) 1.7 in
      Vector3.dot (linvel (MainTs.playerRb (MainTs.physicsStep_commit w dt m))) up
      = Vector3.dot (linvel (MainTs.playerRb m)) up - MainTs.GRAVITY * dt
        + (if MainTs.jumps hit dt m then MainTs.JUMP_SPEED else 0)).
Proof.
  intros Hp Hm up v0 v1.
  pose proof (upOf_unit g Hp) as Hu. fold up in Hu.
  split; [|split].
  - unfold v1. rewrite physicsStep_commit_eq. cbn [playerRb linvel].
    unfold committedVelocity.
    pose proof (dot_velocityAfterGravity dt g Hu) as Hg. fold up v0 in Hg |- *.
    destruct (isClear g) eqn:Eclr.
    + unfold jumpFires. rewrite Eclr. cbn [negb andb]. lra.
    + destruct (steer_components up Hu (wishDir (input g) (yaw g) up)
                  (speedCap (input g)) (maxDelta (input g) (groundedNow w g) dt)
                  (drag (input g) (groundedNow w g)) dt
                  (velocityAfterGravity dt g)
                  (wishDir_tangent up Hu _ _)) as (_ & _ & Hs).
      fold (locomotion (input g) (yaw g) (groundedNow w g) dt up
              (velocityAfterGravity dt g)) in Hs.
      destruct (jumpFires w dt g).
      * rewrite dot_addScaledVector_l, Hs, Hg. unfold jumpImpulseVector.
        fold up. rewrite dot_jumpImpulseVector, Hu. ring.
      * rewrite Hs, Hg. ring.
  - intros keys yw gr velocity v'.
    destruct (steer_components up Hu (wishDir keys yw up) (speedCap keys)
                (maxDelta keys gr dt) (drag keys gr) dt velocity
                (wishDir_tangent up Hu _ _)) as (_ & Hn & Hd).
    split; assumption.
  - intros upm hit.
    assert (Hum : Vector3.lengthSq upm = 1).
    { apply lengthSq_normalize.
      pose proof (lengthSq_nonneg (translation (MainTs.playerRb m))) as H.
      destruct (Req_dec_T (Vector3.lengthSq (translation (MainTs.playerRb m))) 0)
        as [E|E]; [apply lengthSq_zero in E; contradiction | lra]. }
    assert (Hg : Vector3.dot
                   (Vector3.addScaledVector (linvel (MainTs.playerRb m))
                      (Vector3.multiplyScalar upm (-1)) (MainTs.GRAVITY * dt))
                   upm
                 = Vector3.dot (linvel (MainTs.playerRb m)) upm
                   - MainTs.GRAVITY * dt).
    { rewrite dot_addScaledVector_l, dot_multiplyScalar_l, <- lengthSq_dot, Hum.
      ring. }
    unfold MainTs.physicsStep_commit, MainTs.jumps. fold upm. fold hit.
    destruct (MainTs.isClear m); cbn [negb andb].
    + cbn [MainTs.playerRb linvel setLinvel]. lra.
    + destruct (steer_components upm Hum (MainTs.wish (MainTs.input m) (MainTs.yaw m) upm)
                  MainTs.V_MAX (MainTs.maxDelta hit dt) (MainTs.drag hit) dt
                  (Vector3.addScaledVector (linvel (MainTs.playerRb m))
                     (Vector3.multiplyScalar upm (-1)) (MainTs.GRAVITY * dt))
                  (MainTs_wish_tangent upm _ _ Hum)) as (_ & _ & Hs).
      destruct (hit && Js.leb _ 0 && has "Space" (MainTs.input m))%bool;
        cbn [MainTs.playerRb linvel setLinvel].
      * rewrite dot_addScaledVector_l, Hs, Hg, <- lengthSq_dot, Hum. ring.
      * rewrite Hs, Hg. ring.
Qed.

Lemma spawnPoint_nonzero : spawnPoint <> Vector3.zero.
Proof.
  unfold spawnPoint, Vector3.zero, PLANET_RADIUS. intros H.
  apply (f_equal Vector3.y) in H. cbn in H. lra.
Qed.

Lemma normal_component_changes_by_gravity_and_jump_witness :
  let g := keydown "Space" (initialGame 1) in
  let m := MainTs.initialGame 1 in
  translation (playerRb g) <> Vector3.zero
  /\ translation (MainTs.playerRb m) <> Vector3.zero
  /\ Vector3.dot (linvel (playerRb (physicsStep_commit worldGrounded fixedDt g)))
       (upOf g)
     = Vector3.dot (linvel (playerRb g)) (upOf g) - GRAVITY * fixedDt
       + (if jumpFires worldGrounded fixedDt g
          then invMass (playerRb g)
               * jumpImpulseAt (jumpStage worldGrounded fixedDt g)
          else 0).
Proof.
  intros g m.
  assert (Hg : translation (playerRb g) <> Vector3.zero)
    by exact spawnPoint_nonzero.
  assert (Hm : translation (MainTs.playerRb m) <> Vector3.zero).
  { unfold m, MainTs.initialGame, MainTs.PLANET_RADIUS, Vector3.zero.
    cbn [MainTs.playerRb translation]. intros H.
    apply (f_equal Vector3.y) in H. cbn in H. lra. }
  split; [exact Hg|]. split; [exact Hm|].
  exact (proj1 (normal_component_changes_by_gravity_and_jump
                  worldGrounded fixedDt g m Hg Hm)).
Defined.

(** ** The stale position of an escaping tick *)

Lemma escaped_not_spawn (w : World) (dt : R) (g : Game) :
  escapes w dt g = true -> playerNowOf w dt g <> spawnPoint.
Proof.
  intros He Heq. apply escapes_far in He. rewrite Heq, length_spawnPoint in He.
  unfold PLANET_RADIUS in He. lra.
Qed.

Lemma physicsStep_escaped_eq (w : World) (dt : R) (g : Game) :
  escapes w dt g = true ->
  physicsStep w dt g
  = tickTail dt (playerNowOf w dt g) (resetPlayer (afterStep w dt g)).
Proof. intros He. rewrite physicsStep_eq, He. reflexivity. Qed.

Lemma tickTail_far_body (dt : R) (pn : Vector3.t) (c : Game) :
  Vector3.length pn > PLANET_RADIUS + 60 ->
  playerRb (tickTail dt pn c) = playerRb c
  /\ isClear (tickTail dt pn c) = isClear c.
Proof. intros Hfar. rewrite tickTail_far by exact Hfar. split; reflexivity. Qed.

Lemma tickTail_mesh_position (dt : R) (pn : Vector3.t) (c : Game) :
  boomerangActive (tickTail dt pn c) = true ->
  boomerangMesh_position (tickTail dt pn c)
  = Vector3.add enemyAnchor
      (Vector3.multiplyScalar (throwDir pn)
         (boomerangDistance (tickTail dt pn c))).
Proof.
  unfold tickTail. rewrite updateEnemyAndBoomerang_eq. cbv zeta.
  generalize (hits dt pn c). intros h.
  generalize (push pn (boomerangPosOf dt pn c) (Vector3.normalize pn)).
  intros k. unfold boomerangPosOf.
  generalize (boomerangStep dt (boomerangOf c)). intros b.
  unfold goalCheck. cbn [isClear].
  destruct (negb (isClear c) && _)%bool;
    cbn [boomerangActive boomerangMesh_position boomerangDistance
         set_isClear set_clearMsg];
    intros Ha; rewrite Ha; reflexivity.
Qed.

(** C10, as stated, fails: no tick whose escape check fires ends with the
    body at the spawn point and a velocity other than zero. *)
Lemma escape_tick_never_ends_with_velocity :
  ~ (exists (w : World) (dt : R) (g : Game),
        escapes w dt g = true
        /\ translation (playerRb (physicsStep w dt g)) = spawnPoint
        /\ linvel (playerRb (physicsStep w dt g)) <> Vector3.zero).
Proof.
  intros (w & dt & g & He & _ & Hv). apply Hv.
  pose proof (escapes_far w dt g He) as Hfar.
  rewrite (physicsStep_escaped_eq w dt g He).
  rewrite (proj1 (tickTail_far_body dt _ (resetPlayer (afterStep w dt g)) Hfar)).
  rewrite resetPlayer_eq. reflexivity.
Qed.

(** C10, amended.  In a tick whose escape check fires, the rest of
    the tick ([tickTail]: projectile update, then goal check) runs on the
    reset state but with the position
    sampled before the reset, which is not the spawn point: the projectile
    is drawn along the heading computed from that position.  At that
    position, farther than 160 from the centre, neither a hit nor the goal
    can be judged, so the tick ends with the body at the spawn point, its
    velocity zero and the cleared flag off. *)
Theorem escape_tick_judges_stale_position (w : World) (dt : R) (g : Game) :
  escapes w dt g = true ->
  let pn := playerNowOf w dt g in
  let c := resetPlayer (afterStep w dt g) in
  let g' := physicsStep w dt g in
  g' = tickTail dt pn c
  /\ translation (playerRb c) = spawnPoint
  /\ pn <> spawnPoint
  /\ (boomerangActive g' = true ->
      boomerangMesh_position g'
      = Vector3.add enemyAnchor
          (Vector3.multiplyScalar (throwDir pn) (boomerangDistance g')))
  /\ hits dt pn c = false
  /\ Js.ltb (Vector3.distanceTo pn goalPos) 4.2 = false
  /\ translation (playerRb g') = spawnPoint
  /\ linvel (playerRb g') = Vector3.zero
  /\ isClear g' = false.
Proof.
  intros He pn c g'. pose proof (escapes_far w dt g He) as Hfar.
  pose proof (physicsStep_escaped_eq w dt g He) as Hg'.
  destruct (tickTail_far_body dt (playerNowOf w dt g)
              (resetPlayer (afterStep w dt g)) Hfar) as [Hb Hc].
  split; [exact Hg'|].
  split; [exact (f_equal translation (f_equal playerRb (resetPlayer_eq _)))|].
  split; [exact (escaped_not_spawn w dt g He)|].
  split.
  { unfold g'. rewrite Hg'. apply tickTail_mesh_position. }
  split; [exact (escaped_not_hit dt _ _ Hfar)|].
  split; [exact (escaped_not_at_goal _ Hfar)|].
  unfold g'. rewrite Hg', Hb, Hc, resetPlayer_eq.
  repeat split; reflexivity.
Qed.

Lemma escape_tick_judges_stale_position_witness :
  escapes worldFlung fixedDt (initialGame 1) = true
  /\ playerNowOf worldFlung fixedDt (initialGame 1) = Vector3.mk 0 200 0
  /\ translation (playerRb (physicsStep worldFlung fixedDt (initialGame 1)))
     = spawnPoint
  /\ linvel (playerRb (physicsStep worldFlung fixedDt (initialGame 1)))
     = Vector3.zero.
Proof.
  split; [apply escapes_worldFlung|].
  split; [unfold playerNowOf, worldFlung; cbn [step setTranslation translation];
          reflexivity|].
  pose proof (escape_tick_judges_stale_position worldFlung fixedDt
                (initialGame 1) (escapes_worldFlung _ _)) as H.
  cbv zeta in H. destruct H as (_ & _ & _ & _ & _ & _ & Hp & Hv & _).
  split; [exact Hp|exact Hv].
Defined.

(** ** The projectile's cycle *)

Lemma physicsStep_boomerang (w : World) (dt : R) (g : Game) :
  boomerangOf (physicsStep w dt g) = boomerangStep dt (boomerangOf g).
Proof.
  rewrite physicsStep_eq.
  destruct (tickTail_fields dt (playerNowOf w dt g)
              (if escapes w dt g then resetPlayer (afterStep w dt g)
               else afterStep w dt g))
    as (_ & _ & _ & _ & _ & _ & _ & _ & _ & Hb & _).
  rewrite Hb. f_equal.
  destruct (escapes w dt g); [rewrite resetPlayer_eq|]; rewrite afterStep_eq;
    reflexivity.
Qed.

Lemma handle_boomerang (e : Event) (g : Game) :
  boomerangOf (handle e g)
  = match e with
    | Tick _ => boomerangStep fixedDt (boomerangOf g)
    | _ => boomerangOf g
    end.
Proof.
  destruct e as [code|code|l mx my|w|]; cbn [handle].
  - unfold keydown.
    destruct (String.eqb code "KeyR"), (String.eqb code "Space"); reflexivity.
  - reflexivity.
  - unfold mousemove. destruct l; reflexivity.
  - apply physicsStep_boomerang.
  - unfold render. destruct (Js.gtb (hitFlash g) 0); reflexivity.
Qed.

Lemma run_boomerang (es : list Event) (g : Game) :
  boomerangOf (run es g)
  = Nat.iter (tickCount es) (boomerangStep fixedDt) (boomerangOf g).
Proof.
  revert g. induction es as [|e es IH]; intros g; [reflexivity|].
  cbn [run]. rewrite IH, handle_boomerang.
  destruct e; cbn [tickCount]; try reflexivity.
  symmetry. apply Nat.iter_succ_r.
Qed.

Lemma tickCount_ticks (ws : list World) : tickCount (map Tick ws) = length ws.
Proof. induction ws as [|w ws IH]; cbn; [reflexivity|now rewrite IH]. Qed.

(** One step of a flying projectile. *)
Lemma boomerangStep_active (dt : R) (b : Boomerang) :
  active b = true ->
  let d :=
    Js.clamp (distance b + (if outward b then 1 else -1) * BOOMERANG_SPEED * dt)
      0 BOOMERANG_MAX_DIST in
  boomerangStep dt b
  = mkBoomerang (negb (Js.leb d 0))
      (if Js.geb d BOOMERANG_MAX_DIST then false else outward b) d
      (cooldown b - dt) (if Js.leb d 0 then false else visible b).
Proof.
  intros Ha d. unfold boomerangStep, launches. rewrite Ha.
  cbn [negb andb active outward distance cooldown visible]. fold d.
  destruct (Js.leb d 0); reflexivity.
Qed.

(** One step of an idle projectile: it waits, or launches and moves. *)
Lemma boomerangStep_idle (dt : R) (b : Boomerang) :
  active b = false ->
  boomerangStep dt b
  = if Js.leb (cooldown b - dt) 0
    then boomerangStep dt (mkBoomerang true true 0 (BOOMERANG_COOLDOWN + dt) true)
    else mkBoomerang false (outward b) (distance b) (cooldown b - dt) (visible b).
Proof.
  intros Ha. unfold boomerangStep at 1. unfold launches. rewrite Ha.
  cbn [negb andb]. destruct (Js.leb (cooldown b - dt) 0).
  - rewrite boomerangStep_active by reflexivity.
    cbn [negb active outward distance cooldown visible].
    replace (BOOMERANG_COOLDOWN + dt - dt) with BOOMERANG_COOLDOWN by ring.
    destruct (Js.leb _ 0); reflexivity.
  - cbn [active negb]. reflexivity.
Qed.

Lemma boomerangStep_active_inv (dt : R) (b : Boomerang) :
  active b = true -> visible b = true -> boomerangInv (boomerangStep dt b).
Proof.
  intros Ha Hv. rewrite boomerangStep_active by exact Ha. cbv zeta.
  set (d := Js.clamp _ 0 BOOMERANG_MAX_DIST).
  assert (Hd : 0 <= d <= BOOMERANG_MAX_DIST)
    by (apply clamp_bounds; unfold BOOMERANG_MAX_DIST; lra).
  unfold boomerangInv. cbn [active distance visible].
  case_cmp (Js.leb d 0); cbn [negb].
  - repeat split; intros;
      first [lra | discriminate | reflexivity | exfalso; lra].
  - rewrite Hv. repeat split; intros;
      first [lra | discriminate | reflexivity | exfalso; lra].
Qed.

Lemma boomerangStep_inv (dt : R) (b : Boomerang) :
  boomerangInv b -> boomerangInv (boomerangStep dt b).
Proof.
  intros (Hr & Hz & Hv). destruct (active b) eqn:Ha.
  - apply boomerangStep_active_inv; congruence.
  - rewrite boomerangStep_idle by exact Ha.
    destruct (Js.leb (cooldown b - dt) 0).
    + apply boomerangStep_active_inv; reflexivity.
    + unfold boomerangInv. cbn [active distance visible].
      tauto.
Qed.

Lemma reachable_boomerangInv (g : Game) :
  reachable g -> boomerangInv (boomerangOf g).
Proof.
  induction 1 as [im|e g Hg IH].
  - unfold boomerangInv, BOOMERANG_MAX_DIST. cbn. repeat split; intros;
      first [lra | reflexivity].
  - rewrite handle_boomerang. destruct e; try exact IH.
    now apply boomerangStep_inv.
Qed.

Lemma clamp_inside (v lo hi : R) : lo <= v <= hi -> Js.clamp v lo hi = v.
Proof.
  intros H. destruct (clamp_spec v lo hi) as [[? ->]|[[? ->]|[? ->]]]; lra.
Qed.

Lemma INR_40 : INR 40 = 40.
Proof. rewrite INR_IZR_INZ. reflexivity. Qed.
Lemma INR_80 : INR 80 = 80.
Proof. rewrite INR_IZR_INZ. reflexivity. Qed.

Lemma cycle_closed_form (b : Boomerang) :
  active b = false -> cooldown b - fixedDt <= 0 ->
  forall k : nat, (1 <= k <= 80)%nat ->
    let bk := Nat.iter k (boomerangStep fixedDt) b in
    active bk = (k <? 80)%nat
    /\ outward bk = (k <? 40)%nat
    /\ distance bk = cycleDistance k
    /\ visible bk = (k <? 80)%nat.
Proof.
  intros Ha Hc k [Hk1 Hk2]. induction k as [|k IH]; [lia|].
  cbv zeta. rewrite Nat.iter_succ.
  destruct (Nat.eq_dec k 0%nat) as [->|Hk0].
  - (* the launch tick *)
    cbn [Nat.iter nat_rect]. rewrite boomerangStep_idle by exact Ha.
    rewrite (proj2 (leb_true _ _) Hc).
    rewrite boomerangStep_active by reflexivity.
    cbn [active outward distance visible].
    rewrite clamp_inside
      by (unfold BOOMERANG_SPEED, BOOMERANG_MAX_DIST, fixedDt; lra).
    unfold cycleDistance, BOOMERANG_SPEED, BOOMERANG_MAX_DIST, fixedDt.
    cbn [Nat.leb Nat.ltb INR].
    rewrite (proj2 (leb_false _ _)) by lra.
    rewrite (proj2 (geb_false _ _)) by lra.
    repeat split; try reflexivity. lra.
  - destruct IH as (Hact & Hout & Hdist & Hvis); [lia|lia|].
    set (bk := Nat.iter k (boomerangStep fixedDt) b) in *.
    assert (Hlt : (k <? 80)%nat = true) by (apply Nat.ltb_lt; lia).
    rewrite Hlt in Hact, Hvis.
    rewrite boomerangStep_active by exact Hact.
    cbn [active outward distance visible].
    rewrite Hout, Hdist, Hvis. unfold cycleDistance.
    assert (HkR : 0 < INR k) by (apply lt_0_INR; lia).
    assert (HkS : INR (S k) = INR k + 1) by apply S_INR.
    destruct (Nat.ltb_spec k 40%nat) as [H40|H40].
    + (* outbound *)
      assert (Hle : (k <=? 40)%nat = true) by (apply Nat.leb_le; lia).
      assert (HleS : (S k <=? 40)%nat = true) by (apply Nat.leb_le; lia).
      rewrite Hle, HleS, HkS.
      assert (HR : INR k + 1 <= 40)
        by (rewrite <- HkS, <- INR_40; apply le_INR; lia).
      rewrite clamp_inside
        by (unfold BOOMERANG_SPEED, BOOMERANG_MAX_DIST, fixedDt; lra).
      rewrite (proj2 (leb_false _ _))
        by (unfold BOOMERANG_SPEED, fixedDt; lra).
      assert (HS80 : (S k <? 80)%nat = true) by (apply Nat.ltb_lt; lia).
      rewrite HS80. cbn [negb].
      destruct (Nat.ltb_spec (S k) 40%nat) as [HS|HS].
      * assert (HR' : INR k + 1 < 40)
          by (rewrite <- HkS, <- INR_40; apply lt_INR; lia).
        rewrite (proj2 (geb_false _ _))
          by (unfold BOOMERANG_SPEED, BOOMERANG_MAX_DIST, fixedDt; lra).
        repeat split; try reflexivity. ring.
      * assert (HR' : INR k + 1 = 40)
          by (rewrite <- HkS, <- INR_40; f_equal; lia).
        rewrite (proj2 (geb_true _ _))
          by (unfold BOOMERANG_SPEED, BOOMERANG_MAX_DIST, fixedDt; lra).
        repeat split; try reflexivity. ring.
    + (* inbound *)
      assert (HR : 40 <= INR k) by (rewrite <- INR_40; apply le_INR; lia).
      assert (HR2 : INR k + 1 <= 80)
        by (rewrite <- HkS, <- INR_80; apply le_INR; lia).
      assert (HleS : (S k <=? 40)%nat = false) by (apply Nat.leb_gt; lia).
      assert (HltS : (S k <? 40)%nat = false) by (apply Nat.ltb_ge; lia).
      rewrite HleS, HltS, HkS.
      assert (Hd : (if (k <=? 40)%nat
                    then BOOMERANG_SPEED * fixedDt * INR k
                    else BOOMERANG_MAX_DIST
                         - BOOMERANG_SPEED * fixedDt * (INR k - 40))
                   = BOOMERANG_MAX_DIST
                     - BOOMERANG_SPEED * fixedDt * (INR k - 40)).
      { destruct (Nat.leb_spec k 40%nat) as [H|H]; [|reflexivity].
        assert (INR k = 40) by (rewrite <- INR_40; f_equal; lia).
        unfold BOOMERANG_SPEED, BOOMERANG_MAX_DIST, fixedDt. lra. }
      rewrite Hd.
      rewrite clamp_inside
        by (unfold BOOMERANG_SPEED, BOOMERANG_MAX_DIST, fixedDt; lra).
      assert (Hgeb : (if Js.geb
                           (BOOMERANG_MAX_DIST
                            - BOOMERANG_SPEED * fixedDt * (INR k - 40)
                            + -1 * BOOMERANG_SPEED * fixedDt)
                           BOOMERANG_MAX_DIST
                      then false else false) = false)
        by (destruct (Js.geb _ _); reflexivity).
      rewrite Hgeb.
      destruct (Nat.ltb_spec (S k) 80%nat) as [HS|HS].
      * assert (HR' : INR k + 1 < 80)
          by (rewrite <- HkS, <- INR_80; apply lt_INR; lia).
        rewrite (proj2 (leb_false _ _))
          by (unfold BOOMERANG_SPEED, BOOMERANG_MAX_DIST, fixedDt; lra).
        repeat split; try reflexivity. ring.
      * assert (HR' : INR k + 1 = 80)
          by (rewrite <- HkS, <- INR_80; f_equal; lia).
        rewrite (proj2 (leb_true _ _))
          by (unfold BOOMERANG_SPEED, BOOMERANG_MAX_DIST, fixedDt; lra).
        repeat split; try reflexivity. ring.
Qed.

Lemma boomerangOf_active (g : Game) : active (boomerangOf g) = boomerangActive g.
Proof. reflexivity. Qed.
Lemma boomerangOf_outward (g : Game) :
  outward (boomerangOf g) = boomerangOutward g.
Proof. reflexivity. Qed.
Lemma boomerangOf_distance (g : Game) :
  distance (boomerangOf g) = boomerangDistance g.
Proof. reflexivity. Qed.
Lemma boomerangOf_cooldown (g : Game) :
  cooldown (boomerangOf g) = boomerangCooldown g.
Proof. reflexivity. Qed.
Lemma boomerangOf_visible (g : Game) :
  visible (boomerangOf g) = boomerangMesh_visible g.
Proof. reflexivity. Qed.

Lemma ticks_eq (ws : list World) (g : Game) : ticks ws g = run (map Tick ws) g.
Proof. reflexivity. Qed.

Lemma cycleDistance_40 : cycleDistance 40 = BOOMERANG_MAX_DIST.
Proof.
  unfold cycleDistance. cbn [Nat.leb]. rewrite INR_40.
  unfold BOOMERANG_SPEED, BOOMERANG_MAX_DIST, fixedDt. lra.
Qed.

Lemma cycleDistance_80 : cycleDistance 80 = 0.
Proof.
  unfold cycleDistance. cbn [Nat.leb]. rewrite INR_80.
  unfold BOOMERANG_SPEED, BOOMERANG_MAX_DIST, fixedDt. lra.
Qed.

(** While the count-down has not run out, an idle projectile only waits. *)
Lemma idle_closed_form (dt : R) (b : Boomerang) (k : nat) :
  0 <= dt -> active b = false -> 0 < cooldown b - INR k * dt ->
  Nat.iter k (boomerangStep dt) b
  = mkBoomerang false (outward b) (distance b) (cooldown b - INR k * dt)
      (visible b).
Proof.
  intros Hdt Ha. induction k as [|k IH]; intros Hk.
  - cbn [Nat.iter nat_rect INR]. destruct b; cbn in *. subst. f_equal. ring.
  - rewrite S_INR in Hk. rewrite Nat.iter_succ, IH by nra.
    rewrite boomerangStep_idle by reflexivity.
    cbn [cooldown outward distance visible].
    rewrite (proj2 (leb_false _ _)) by lra.
    rewrite S_INR. f_equal. ring.
Qed.

Lemma run_app (es1 es2 : list Event) (g : Game) :
  run (es1 ++ es2) g = run es2 (run es1 g).
Proof. revert g. induction es1 as [|e es1 IH]; intros g; cbn; auto. Qed.

Lemma reachable_run (es : list Event) (g : Game) :
  reachable g -> reachable (run es g).
Proof.
  revert g. induction es as [|e es IH]; intros g Hg; cbn [run]; [exact Hg|].
  apply IH. now constructor.
Qed.

(** C4.  In every reachable state the projectile's distance lies in
    [0, BOOMERANG_MAX_DIST], the projectile is inactive exactly when the
    distance is 0, and it is visible exactly when active.  From a state in
    which the launch is due, the state [k] ticks later (1 <= k <= 80,
    whatever other events come between) is the closed form of the cycle:
    the distance grows by [BOOMERANG_SPEED * fixedDt] a tick, reaches
    [BOOMERANG_MAX_DIST] at tick 40, where [outward] is already false, then
    shrinks by the same amount; at tick 80 it is exactly 0 and the
    projectile is inactive and hidden. *)
Theorem projectile_distance_in_range_and_full_cycle :
  (forall g : Game,
      reachable g ->
      0 <= boomerangDistance g <= BOOMERANG_MAX_DIST
      /\ (boomerangActive g = false <-> boomerangDistance g = 0)
      /\ boomerangMesh_visible g = boomerangActive g)
  /\ (forall (g : Game) (es : list Event),
        boomerangActive g = false ->
        boomerangCooldown g - fixedDt <= 0 ->
        (1 <= tickCount es <= 80)%nat ->
        let k := tickCount es in
        let g' := run es g in
        boomerangActive g' = (k <? 80)%nat
        /\ boomerangOutward g' = (k <? 40)%nat
        /\ boomerangDistance g' = cycleDistance k
        /\ boomerangMesh_visible g' = (k <? 80)%nat)
  /\ cycleDistance 40 = BOOMERANG_MAX_DIST
  /\ cycleDistance 80 = 0.
Proof.
  split; [|split; [|split]].
  - intros g Hg. pose proof (reachable_boomerangInv g Hg) as H.
    unfold boomerangInv in H.
    rewrite boomerangOf_active, boomerangOf_distance, boomerangOf_visible in H.
    exact H.
  - intros g es Ha Hc Hk. rewrite <- boomerangOf_active in Ha.
    rewrite <- boomerangOf_cooldown in Hc.
    pose proof (cycle_closed_form (boomerangOf g) Ha Hc (tickCount es) Hk) as H.
    cbv zeta in H. rewrite <- run_boomerang in H.
    rewrite boomerangOf_active, boomerangOf_outward, boomerangOf_distance,
      boomerangOf_visible in H.
    exact H.
  - exact cycleDistance_40.
  - exact cycleDistance_80.
Qed.

Lemma tickCount_repeat (w : World) (n : nat) :
  tickCount (map Tick (repeat w n)) = n.
Proof. rewrite tickCount_ticks. apply repeat_length. Qed.

Lemma INR_65 : INR 65 = 65.
Proof. rewrite INR_IZR_INZ. reflexivity. Qed.

Lemma boomerang_gameLaunchDue :
  boomerangOf gameLaunchDue = mkBoomerang false true 0 (1 / 60) false.
Proof.
  unfold gameLaunchDue. rewrite ticks_eq, run_boomerang, tickCount_repeat.
  rewrite idle_closed_form.
  - cbn [boomerangOf initialGame boomerangActive boomerangOutward
         boomerangDistance boomerangCooldown boomerangMesh_visible
         outward distance cooldown visible].
    f_equal. rewrite INR_65. unfold fixedDt. lra.
  - unfold fixedDt. lra.
  - reflexivity.
  - cbn [boomerangOf initialGame boomerangCooldown cooldown].
    rewrite INR_65. unfold fixedDt. lra.
Qed.

Lemma reachable_gameLaunchDue : reachable gameLaunchDue.
Proof. unfold gameLaunchDue. rewrite ticks_eq. apply reachable_run. constructor. Qed.

Lemma gameLaunchDue_idle : boomerangActive gameLaunchDue = false.
Proof. rewrite <- boomerangOf_active, boomerang_gameLaunchDue. reflexivity. Qed.

Lemma gameLaunchDue_due : boomerangCooldown gameLaunchDue - fixedDt <= 0.
Proof.
  rewrite <- boomerangOf_cooldown, boomerang_gameLaunchDue. cbn [cooldown].
  unfold fixedDt. lra.
Qed.

Lemma projectile_distance_in_range_and_full_cycle_witness :
  reachable gameLaunchDue
  /\ boomerangActive gameLaunchDue = false
  /\ boomerangCooldown gameLaunchDue - fixedDt <= 0
  /\ (let g40 := run (map Tick (repeat worldAirborne 40)) gameLaunchDue in
      boomerangActive g40 = true /\ boomerangOutward g40 = false
      /\ boomerangDistance g40 = BOOMERANG_MAX_DIST)
  /\ (let g80 := run (map Tick (repeat worldGrounded 80)) gameLaunchDue in
      boomerangActive g80 = false /\ boomerangDistance g80 = 0
      /\ boomerangMesh_visible g80 = false
      /\ 0 <= boomerangDistance g80 <= BOOMERANG_MAX_DIST).
Proof.
  destruct projectile_distance_in_range_and_full_cycle
    as (Hinv & Hcycle & H40 & H80).
  split; [exact reachable_gameLaunchDue|].
  split; [exact gameLaunchDue_idle|].
  split; [exact gameLaunchDue_due|]. split.
  - destruct (Hcycle gameLaunchDue (map Tick (repeat worldAirborne 40))
                gameLaunchDue_idle gameLaunchDue_due) as (A & O & D & _).
    + rewrite tickCount_repeat. lia.
    + rewrite tickCount_repeat in A, O, D. rewrite H40 in D.
      split; [exact A|]. split; [exact O|exact D].
  - destruct (Hcycle gameLaunchDue (map Tick (repeat worldGrounded 80))
                gameLaunchDue_idle gameLaunchDue_due) as (A & _ & D & V).
    + rewrite tickCount_repeat. lia.
    + rewrite tickCount_repeat in A, D, V. rewrite H80 in D.
      split; [exact A|]. split; [exact D|]. split; [exact V|].
      apply Hinv. apply reachable_run. exact reachable_gameLaunchDue.
Defined.

(** ** The cooldown *)

Lemma boomerangStep_cooldown (dt : R) (b : Boomerang) :
  cooldown (boomerangStep dt b)
  = if launches dt b then BOOMERANG_COOLDOWN else cooldown b - dt.
Proof.
  unfold launches. destruct (active b) eqn:Ha; cbn [negb andb].
  - rewrite boomerangStep_active by exact Ha. reflexivity.
  - rewrite boomerangStep_idle by exact Ha.
    destruct (Js.leb (cooldown b - dt) 0); [|reflexivity].
    rewrite boomerangStep_active by reflexivity.
    cbn [cooldown]. ring.
Qed.

Lemma boomerangStep_launch (dt : R) (b : Boomerang) :
  launches dt b = true -> 0 < dt -> BOOMERANG_SPEED * dt < BOOMERANG_MAX_DIST ->
  boomerangStep dt b
  = mkBoomerang true true (0 + BOOMERANG_SPEED * dt) BOOMERANG_COOLDOWN true.
Proof.
  unfold launches. intros Hl Hdt Hmax.
  apply andb_true_iff in Hl. destruct Hl as [Ha Hc].
  apply negb_true_iff in Ha.
  rewrite boomerangStep_idle, Hc by exact Ha.
  rewrite boomerangStep_active by reflexivity.
  cbn [active outward distance cooldown visible].
  unfold BOOMERANG_SPEED, BOOMERANG_MAX_DIST in *.
  rewrite clamp_inside by lra.
  rewrite (proj2 (leb_false _ _)) by lra.
  rewrite (proj2 (geb_false _ _)) by lra.
  cbn [negb]. f_equal; ring.
Qed.

(** C5, as stated, fails: the cooldown also runs in ticks in which the
    projectile is active. *)
Lemma cooldown_runs_while_active :
  ~ (forall (w : World) (g : Game),
        reachable g -> boomerangActive g = true ->
        boomerangCooldown (physicsStep w fixedDt g) = boomerangCooldown g).
Proof.
  intros H.
  set (g := physicsStep worldAirborne fixedDt gameLaunchDue).
  assert (Hb : boomerangOf g
               = mkBoomerang true true (0 + BOOMERANG_SPEED * fixedDt)
                   BOOMERANG_COOLDOWN true).
  { unfold g. rewrite physicsStep_boomerang, boomerang_gameLaunchDue.
    apply boomerangStep_launch.
    - unfold launches. cbn [active cooldown negb andb]. apply leb_true.
      unfold fixedDt. lra.
    - unfold fixedDt. lra.
    - unfold BOOMERANG_SPEED, BOOMERANG_MAX_DIST, fixedDt. lra. }
  assert (Hr : reachable g).
  { unfold g. apply (reachable_handle (Tick worldAirborne)).
    exact reachable_gameLaunchDue. }
  assert (Ha : boomerangActive g = true)
    by (rewrite <- boomerangOf_active, Hb; reflexivity).
  specialize (H worldAirborne g Hr Ha).
  pose proof (f_equal cooldown (physicsStep_boomerang worldAirborne fixedDt g))
    as Hc.
  rewrite boomerangStep_cooldown, Hb in Hc.
  unfold launches in Hc. cbn [active cooldown negb andb] in Hc.
  rewrite boomerangOf_cooldown, H, <- boomerangOf_cooldown, Hb in Hc.
  cbn [cooldown] in Hc. unfold BOOMERANG_COOLDOWN, fixedDt in Hc. lra.
Qed.

(** C5, amended.  The cooldown is decremented by [dt] in every tick,
    whether the projectile is active or not.  When the decremented value is
    at most 0 while the projectile is inactive, the tick launches it: the
    cooldown is reset to [BOOMERANG_COOLDOWN], and (for a step shorter than
    the range) the tick ends active, outward, visible, with the distance
    reset to 0 and advanced by [BOOMERANG_SPEED * dt].  An inactive
    projectile whose launch is not due stays inactive. *)
Theorem cooldown_runs_every_tick_and_launches (w : World) (dt : R) (g : Game) :
  let g' := physicsStep w dt g in
  let due := launches dt (boomerangOf g) in
  boomerangCooldown g'
  = (if due then BOOMERANG_COOLDOWN else boomerangCooldown g - dt)
  /\ (due = true -> 0 < dt -> BOOMERANG_SPEED * dt < BOOMERANG_MAX_DIST ->
      boomerangActive g' = true
      /\ boomerangOutward g' = true
      /\ boomerangDistance g' = 0 + BOOMERANG_SPEED * dt
      /\ boomerangMesh_visible g' = true)
  /\ (boomerangActive g = false -> due = false -> boomerangActive g' = false).
Proof.
  cbv zeta. pose proof (physicsStep_boomerang w dt g) as Hb.
  split; [|split].
  - rewrite <- !boomerangOf_cooldown, Hb. apply boomerangStep_cooldown.
  - intros Hdue Hdt Hmax.
    rewrite (boomerangStep_launch dt _ Hdue Hdt Hmax) in Hb.
    rewrite <- boomerangOf_active, <- boomerangOf_outward,
      <- boomerangOf_distance, <- boomerangOf_visible, Hb.
    repeat split; reflexivity.
  - intros Ha Hdue. rewrite <- boomerangOf_active in Ha |- *.
    rewrite Hb, boomerangStep_idle by exact Ha.
    unfold launches in Hdue. rewrite Ha in Hdue. cbn [negb andb] in Hdue.
    rewrite Hdue. reflexivity.
Qed.

Lemma cooldown_runs_every_tick_and_launches_witness :
  launches fixedDt (boomerangOf gameLaunchDue) = true
  /\ (let g' := physicsStep worldGrounded fixedDt gameLaunchDue in
      boomerangCooldown g' = BOOMERANG_COOLDOWN
      /\ boomerangActive g' = true
      /\ boomerangOutward g' = true
      /\ boomerangDistance g' = 0 + BOOMERANG_SPEED * fixedDt).
Proof.
  assert (Hdue : launches fixedDt (boomerangOf gameLaunchDue) = true).
  { rewrite boomerang_gameLaunchDue. unfold launches.
    cbn [active cooldown negb andb]. apply leb_true. unfold fixedDt. lra. }
  split; [exact Hdue|].
  destruct (cooldown_runs_every_tick_and_launches worldGrounded fixedDt
              gameLaunchDue) as (Hc & Hl & _).
  rewrite Hdue in Hc.
  destruct (Hl Hdue) as (A & O & D & _).
  - unfold fixedDt. lra.
  - unfold BOOMERANG_SPEED, BOOMERANG_MAX_DIST, fixedDt. lra.
  - cbv zeta. repeat split; assumption.
Defined.

(** ** Jumps and the combo *)

(** The control variables at the end of a tick. *)
Lemma physicsStep_control (w : World) (dt : R) (g : Game) :
  let g' := physicsStep w dt g in
  jumpComboIndex g'
  = (if escapes w dt g then 0%nat
     else if jumpFires w dt g then nextComboIndex (jumpStage w dt g)
     else jumpStage w dt g)
  /\ jumpBufferTimer g'
     = (if escapes w dt g then 0
        else if jumpFires w dt g then 0 else jumpBufferNow dt g)
  /\ comboTimer g'
     = (if escapes w dt g then Js.PosInfinity
        else if jumpFires w dt g then Js.PosInfinity
        else comboTimerNow w dt g)
  /\ grounded g' = (if jumpFires w dt g then false else groundedNow w g)
  /\ wasGrounded g' = (if jumpFires w dt g then false else groundedNow w g)
  /\ input g' = input g /\ yaw g' = yaw g /\ pitch g' = pitch g
  /\ translation (playerRb g')
     = (if escapes w dt g then spawnPoint else playerNowOf w dt g).
Proof.
  cbv zeta. rewrite physicsStep_eq.
  destruct (tickTail_fields dt (playerNowOf w dt g)
              (if escapes w dt g then resetPlayer (afterStep w dt g)
               else afterStep w dt g))
    as (Hi & Hjb & Hy & Hp & Hg & Hwg & Hidx & Hct & _ & _ & Htr & _).
  rewrite Hi, Hjb, Hy, Hp, Hg, Hwg, Hidx, Hct, Htr.
  rewrite playerNowOf_eq.
  destruct (escapes w dt g); [rewrite resetPlayer_eq|]; rewrite afterStep_eq;
    cbn [jumpComboIndex jumpBufferTimer comboTimer grounded wasGrounded input
         yaw pitch playerRb translation];
    repeat split; reflexivity.
Qed.

Lemma playerNowOf_still (cast : Vector3.t -> Vector3.t -> R -> bool)
    (dt : R) (g : Game) :
  playerNowOf (mkWorld cast (fun rb => rb)) dt g = translation (playerRb g).
Proof. rewrite playerNowOf_eq. reflexivity. Qed.

Lemma groundedNow_const (hit : bool) (stp : RigidBody -> RigidBody) (g : Game) :
  groundedNow (mkWorld (fun _ _ _ => hit) stp) g = hit.
Proof. reflexivity. Qed.

Lemma escapes_at_spawn (cast : Vector3.t -> Vector3.t -> R -> bool)
    (dt : R) (g : Game) :
  translation (playerRb g) = spawnPoint ->
  escapes (mkWorld cast (fun rb => rb)) dt g = false.
Proof.
  intros Hp. rewrite escapes_still_world, Hp, length_spawnPoint.
  apply gtb_false. unfold PLANET_RADIUS. lra.
Qed.

(** The spawn point is away from the goal. *)
Lemma spawn_not_at_goal :
  Js.ltb (Vector3.distanceTo spawnPoint goalPos) 4.2 = false.
Proof.
  apply ltb_false.
  set (v := Vector3.mk 0 (PLANET_RADIUS + 1) (-36)).
  assert (Hsq : Vector3.lengthSq v = 11497)
    by (unfold v, PLANET_RADIUS; vec_unfold; lra).
  assert (HL : 0 < Vector3.length v < 108).
  { split; [apply length_pos; lra|].
    pose proof (length_sqr v) as H. pose proof (length_nonneg v).
    rewrite Hsq in H. nra. }
  assert (Hd : Vector3.normalize_divisor v = Vector3.length v)
    by (apply normalize_divisor_length; lra).
  set (L := Vector3.length v) in *.
  (* the distance is at least the difference of the z coordinates *)
  assert (Hz : Vector3.z goalPos = -36 * (1 / L) * (PLANET_RADIUS + 1.4)).
  { unfold goalPos. fold v. unfold Vector3.normalize, Vector3.divideScalar.
    rewrite Hd. reflexivity. }
  assert (Hz' : Vector3.z goalPos <= -33).
  { rewrite Hz. unfold PLANET_RADIUS.
    assert (1 / 108 < 1 / L).
    { unfold Rdiv. rewrite !Rmult_1_l. apply Rinv_lt_contravar; nra. }
    nra. }
  rewrite distanceTo_length.
  pose proof (length_sqr (Vector3.sub spawnPoint goalPos)) as Hs.
  pose proof (length_nonneg (Vector3.sub spawnPoint goalPos)) as Hn.
  assert (Hge : (0 - Vector3.z goalPos) * (0 - Vector3.z goalPos)
                <= Vector3.lengthSq (Vector3.sub spawnPoint goalPos)).
  { unfold Vector3.lengthSq, Vector3.sub, spawnPoint.
    cbn [Vector3.x Vector3.y Vector3.z].
    generalize (Vector3.x goalPos) (Vector3.y goalPos) (Vector3.z goalPos).
    intros a b c.
    pose proof (Rle_0_sqr (0 - a)) as Ha.
    pose proof (Rle_0_sqr (PLANET_RADIUS + 3.2 - b)) as Hb.
    unfold Rsqr in Ha, Hb. lra. }
  assert (Hlow : 33 * 33 <= (0 - Vector3.z goalPos) * (0 - Vector3.z goalPos))
    by nra.
  set (d := Vector3.length (Vector3.sub spawnPoint goalPos)) in *.
  destruct (Rle_dec 4.2 d) as [|Hlt]; [assumption|].
  assert (d * d < 4.2 * 4.2) by nra. lra.
Qed.

Lemma comboTimerNow_landing (w : World) (dt : R) (g : Game) :
  groundedNow w g = true -> wasGrounded g = false ->
  comboTimerNow w dt g = Js.Real (0 + dt).
Proof. intros Hg Hw. unfold comboTimerNow. rewrite Hg, Hw. reflexivity. Qed.

Lemma comboTimerNow_grounded (w : World) (dt : R) (g : Game) :
  groundedNow w g = true -> wasGrounded g = true ->
  comboTimerNow w dt g = Js.num_add (comboTimer g) dt.
Proof. intros Hg Hw. unfold comboTimerNow. rewrite Hg, Hw. reflexivity. Qed.

(** Airborne ticks do not advance the combo timer. *)
Lemma comboTimerNow_airborne (w : World) (dt : R) (g : Game) :
  groundedNow w g = false -> comboTimerNow w dt g = comboTimer g.
Proof. intros Hg. unfold comboTimerNow. rewrite Hg. reflexivity. Qed.

Lemma jumpFires_airborne (w : World) (dt : R) (g : Game) :
  groundedNow w g = false -> jumpFires w dt g = false.
Proof.
  intros Hg. unfold jumpFires. rewrite Hg. cbn [andb]. apply andb_false_r.
Qed.

Lemma jumpBufferNow_armed (dt : R) (g : Game) :
  0 < jumpBufferTimer g -> jumpBufferNow dt g = jumpBufferTimer g - dt.
Proof.
  intros H. unfold jumpBufferNow. now rewrite (proj2 (gtb_true _ _)).
Qed.

Lemma jumpBufferNow_spent (dt : R) (g : Game) :
  jumpBufferTimer g <= 0 -> jumpBufferNow dt g = jumpBufferTimer g.
Proof.
  intros H. unfold jumpBufferNow. now rewrite (proj2 (gtb_false _ _)).
Qed.

Lemma keydown_Space (g : Game) :
  keydown "Space" g
  = mkGame (playerRb g) ({["Space"]} ∪ input g) JUMP_BUFFER_TIME (yaw g)
      (pitch g) (grounded g) (wasGrounded g) (jumpComboIndex g) (comboTimer g)
      (isClear g) (hitFlash g) (boomerangActive g) (boomerangOutward g)
      (boomerangDistance g) (boomerangCooldown g) (boomerangMesh_visible g)
      (boomerangMesh_position g) (clearMsg g).
Proof. reflexivity. Qed.

(** The run of the counterexample, state by state. *)
Lemma comboRun0_state :
  isClear comboRun0 = false /\ wasGrounded comboRun0 = false
  /\ comboTimer comboRun0 = Js.PosInfinity /\ jumpComboIndex comboRun0 = 0%nat
  /\ jumpBufferTimer comboRun0 = JUMP_BUFFER_TIME
  /\ translation (playerRb comboRun0) = spawnPoint.
Proof. unfold comboRun0. rewrite keydown_Space. repeat split; reflexivity. Qed.

Lemma comboRun0_jump :
  jumpFires worldGrounded fixedDt comboRun0 = true
  /\ Js.num_gtb (comboTimerNow worldGrounded fixedDt comboRun0)
       JUMP_COMBO_WINDOW = false
  /\ jumpStage worldGrounded fixedDt comboRun0 = 0%nat.
Proof.
  destruct comboRun0_state as (Hc & Hw & Ht & Hi & Hb & Hp).
  assert (Hg : groundedNow worldGrounded comboRun0 = true) by reflexivity.
  assert (Hlate : Js.num_gtb (comboTimerNow worldGrounded fixedDt comboRun0)
                    JUMP_COMBO_WINDOW = false).
  { rewrite comboTimerNow_landing by assumption. cbn [Js.num_gtb].
    apply gtb_false. unfold fixedDt, JUMP_COMBO_WINDOW. lra. }
  split; [|split; [exact Hlate|]].
  - unfold jumpFires. rewrite Hc, Hg, jumpBufferNow_armed, Hb.
    + cbn [negb andb]. apply gtb_true. unfold JUMP_BUFFER_TIME, fixedDt. lra.
    + rewrite Hb. unfold JUMP_BUFFER_TIME. lra.
  - unfold jumpStage. rewrite Hlate. exact Hi.
Qed.

Lemma comboRun1_state :
  isClear comboRun1 = false /\ wasGrounded comboRun1 = false
  /\ comboTimer comboRun1 = Js.PosInfinity /\ jumpComboIndex comboRun1 = 1%nat
  /\ jumpBufferTimer comboRun1 = 0
  /\ translation (playerRb comboRun1) = spawnPoint.
Proof.
  destruct comboRun0_state as (Hc & Hw & Ht & Hi & Hb & Hp).
  destruct comboRun0_jump as (Hj & Hlate & Hs).
  assert (He : escapes worldGrounded fixedDt comboRun0 = false)
    by (apply escapes_at_spawn; exact Hp).
  destruct (physicsStep_control worldGrounded fixedDt comboRun0)
    as (Hidx' & Hjb' & Hct' & _ & Hwg' & _ & _ & _ & Htr').
  fold comboRun1 in Hidx', Hjb', Hct', Hwg', Htr'.
  rewrite He, Hj in *. rewrite Hs in Hidx'.
  unfold worldGrounded in Htr'. rewrite playerNowOf_still, Hp in Htr'.
  split; [|repeat split; assumption].
  unfold comboRun1. rewrite isClear_physicsStep, He, Hc.
  unfold worldGrounded. rewrite playerNowOf_still, Hp, spawn_not_at_goal.
  reflexivity.
Qed.

Lemma nextComboIndex_mod (i : nat) :
  (i < 3)%nat -> nextComboIndex i = ((i + 1) mod 3)%nat.
Proof.
  intros Hi. destruct i as [|[|[|i]]]; try reflexivity. lia.
Qed.

Lemma jumpImpulseVector_eq (w : World) (dt : R) (g : Game) :
  jumpImpulseVector w dt g
  = Vector3.multiplyScalar (upOf g) (jumpImpulseAt (jumpStage w dt g)).
Proof. reflexivity. Qed.

Lemma committedVelocity_jump (w : World) (dt : R) (g : Game) :
  jumpFires w dt g = true ->
  linvel (playerRb (physicsStep_commit w dt g))
  = Vector3.addScaledVector
      (locomotion (input g) (yaw g) (groundedNow w g) dt (upOf g)
         (velocityAfterGravity dt g))
      (jumpImpulseVector w dt g) (invMass (playerRb g)).
Proof.
  intros Hj. rewrite physicsStep_commit_eq. cbn [playerRb linvel].
  unfold committedVelocity. rewrite Hj.
  unfold jumpFires in Hj. destruct (isClear g); [discriminate|reflexivity].
Qed.

(** One tick of the combo index, in a tick that does not escape, with the
    index below 3: a jump taken while the combo timer, after this tick's
    update, is within the window uses the impulse of the current stage and
    advances the index cyclically (0, 1, 2, 0); a jump taken after the
    timer exceeded the window uses stage 0 and leaves the index at 1.
    Without a jump the index is kept while the timer reads within the
    window and reset to 0 when it reads beyond it, which the +Infinity
    left by a jump does too. *)
Lemma combo_index_follows_the_timer (w : World) (dt : R) (g : Game) :
  escapes w dt g = false -> (jumpComboIndex g < 3)%nat ->
  let g' := physicsStep w dt g in
  let late := Js.num_gtb (comboTimerNow w dt g) JUMP_COMBO_WINDOW in
  (jumpFires w dt g = true ->
   linvel (playerRb (physicsStep_commit w dt g))
   = Vector3.addScaledVector
       (locomotion (input g) (yaw g) (groundedNow w g) dt (upOf g)
          (velocityAfterGravity dt g))
       (Vector3.multiplyScalar (upOf g)
          (jumpImpulseAt (if late then 0%nat else jumpComboIndex g)))
       (invMass (playerRb g))
   /\ jumpComboIndex g'
      = (if late then 1%nat else ((jumpComboIndex g + 1) mod 3)%nat))
  /\ (jumpFires w dt g = false ->
      jumpComboIndex g' = (if late then 0%nat else jumpComboIndex g))
  /\ (groundedNow w g = false -> comboTimerNow w dt g = comboTimer g)
  /\ (groundedNow w g = false -> comboTimer g = Js.PosInfinity ->
      jumpComboIndex g' = 0%nat)
  /\ jumpImpulseAt 0 = 7 /\ jumpImpulseAt 1 = 8.5 /\ jumpImpulseAt 2 = 10.
Proof.
  intros He Hi. cbv zeta.
  destruct (physicsStep_control w dt g) as (Hidx & _).
  rewrite He in Hidx.
  split; [|split; [|split; [|split]]].
  - intros Hj. rewrite Hj in Hidx. split.
    + rewrite (committedVelocity_jump w dt g Hj), jumpImpulseVector_eq.
      unfold jumpStage. destruct (Js.num_gtb _ _); reflexivity.
    + rewrite Hidx. unfold jumpStage.
      destruct (Js.num_gtb _ _); [reflexivity|].
      now apply nextComboIndex_mod.
  - intros Hj. rewrite Hj in Hidx. exact Hidx.
  - apply comboTimerNow_airborne.
  - intros Hg Ht. rewrite (jumpFires_airborne w dt g Hg) in Hidx.
    rewrite Hidx. unfold jumpStage.
    rewrite (comboTimerNow_airborne w dt g Hg), Ht. reflexivity.
  - unfold jumpImpulseAt, JUMP_IMPULSES. cbn [nth]. repeat split; lra.
Qed.

(** ** The jump buffer *)

Lemma jumpBufferTimer_keydown (code : string) (g : Game) :
  jumpBufferTimer (keydown code g)
  = if String.eqb code "KeyR" then 0
    else if String.eqb code "Space" then JUMP_BUFFER_TIME
    else jumpBufferTimer g.
Proof.
  unfold keydown. destruct (String.eqb code "KeyR"), (String.eqb code "Space");
    reflexivity.
Qed.

Lemma jumpFires_spent (w : World) (dt : R) (g : Game) :
  jumpBufferNow dt g <= 0 -> jumpFires w dt g = false.
Proof.
  intros H. unfold jumpFires. rewrite (proj2 (gtb_false _ _) H).
  rewrite andb_false_r. apply andb_false_r.
Qed.

Lemma jumpFires_true (w : World) (dt : R) (g : Game) :
  isClear g = false -> groundedNow w g = true -> 0 < jumpBufferNow dt g ->
  jumpFires w dt g = true.
Proof.
  intros Hc Hg Hb. unfold jumpFires.
  rewrite Hc, Hg, (proj2 (gtb_true _ _)) by lra. reflexivity.
Qed.

Lemma jumpFires_cleared (w : World) (dt : R) (g : Game) :
  isClear g = true -> jumpFires w dt g = false.
Proof. intros Hc. unfold jumpFires. rewrite Hc. reflexivity. Qed.

Lemma jumpBufferNow_le (dt : R) (g : Game) (b : R) :
  0 <= dt -> jumpBufferTimer g <= Rmax 0 b ->
  jumpBufferNow dt g <= Rmax 0 (b - dt).
Proof.
  intros Hdt H. unfold jumpBufferNow. unfold Rmax in *.
  case_cmp (Js.gtb (jumpBufferTimer g) 0);
    destruct (Rle_dec 0 b), (Rle_dec 0 (b - dt)); lra.
Qed.

(** Without a new press the buffer is bounded by what is left of the
    window. *)
Lemma jumpBufferTimer_run (es : list Event) (g : Game) (b : R) :
  spaceFree es = true -> jumpBufferTimer g <= Rmax 0 b ->
  jumpBufferTimer (run es g) <= Rmax 0 (b - INR (tickCount es) * fixedDt).
Proof.
  revert g b. induction es as [|e es IH]; intros g b Hs Hb.
  - cbn [run tickCount INR]. now replace (b - 0 * fixedDt) with b by ring.
  - cbn [run]. destruct e as [code|code|l mx my|w|]; cbn [spaceFree tickCount] in *.
    + apply andb_true_iff in Hs. destruct Hs as [Hcode Hs].
      apply negb_true_iff in Hcode. apply IH; [exact Hs|].
      cbn [handle]. rewrite jumpBufferTimer_keydown, Hcode.
      destruct (String.eqb code "KeyR"); [apply Rmax_l|exact Hb].
    + apply IH; [exact Hs|exact Hb].
    + apply IH; [exact Hs|]. cbn [handle]. unfold mousemove.
      destruct l; exact Hb.
    + rewrite S_INR.
      replace (b - (INR (tickCount es) + 1) * fixedDt)
        with (b - fixedDt - INR (tickCount es) * fixedDt) by ring.
      apply IH; [exact Hs|]. cbn [handle].
      destruct (physicsStep_control w fixedDt g) as (_ & Hjb & _).
      rewrite Hjb.
      destruct (escapes w fixedDt g); [apply Rmax_l|].
      destruct (jumpFires w fixedDt g); [apply Rmax_l|].
      apply jumpBufferNow_le; [unfold fixedDt; lra|exact Hb].
    + apply IH; [exact Hs|]. cbn [handle]. unfold render.
      destruct (Js.gtb (hitFlash g) 0); exact Hb.
Qed.

(** While the player stays in the air, the buffer counts down exactly. *)
Lemma jumpBufferTimer_airborne (ws : list World) (g : Game) :
  airborneRun ws g = true ->
  INR (length ws) * fixedDt < jumpBufferTimer g ->
  jumpBufferTimer (ticks ws g)
  = jumpBufferTimer g - INR (length ws) * fixedDt.
Proof.
  revert g. induction ws as [|w ws IH]; intros g Ha Hb.
  - rewrite ticks_eq. cbn [map run length INR]. ring.
  - rewrite ticks_eq. cbn [map run handle]. rewrite <- ticks_eq.
    cbn [airborneRun] in Ha.
    apply andb_true_iff in Ha. destruct Ha as [Ha Hrest].
    apply andb_true_iff in Ha. destruct Ha as [Hg He].
    apply negb_true_iff in Hg, He.
    cbn [length] in Hb |- *. rewrite S_INR in Hb |- *.
    assert (Hpos : 0 <= INR (length ws)) by apply pos_INR.
    assert (Hdt : 0 < fixedDt) by (unfold fixedDt; lra).
    destruct (physicsStep_control w fixedDt g) as (_ & Hjb & _).
    rewrite He, (jumpFires_airborne w fixedDt g Hg) in Hjb.
    rewrite jumpBufferNow_armed in Hjb by nra.
    rewrite IH; [rewrite Hjb; ring|exact Hrest|rewrite Hjb; nra].
Qed.

Lemma escapes_worldAtGoal (dt : R) (g : Game) : escapes worldAtGoal dt g = false.
Proof.
  unfold escapes, worldAtGoal. cbn [step setTranslation translation].
  apply gtb_false. rewrite length_goalPos. unfold PLANET_RADIUS. lra.
Qed.

Lemma clearedRun0_state :
  isClear clearedRun0 = true /\ jumpBufferTimer clearedRun0 = 0
  /\ translation (playerRb clearedRun0) = goalPos.
Proof.
  unfold clearedRun0.
  destruct (physicsStep_control worldAtGoal fixedDt (initialGame 1))
    as (_ & Hjb & _ & _ & _ & _ & _ & _ & Htr).
  rewrite escapes_worldAtGoal in Hjb, Htr.
  assert (Hspent : jumpBufferNow fixedDt (initialGame 1) = 0).
  { rewrite jumpBufferNow_spent; [reflexivity|].
    replace (jumpBufferTimer (initialGame 1)) with 0 by reflexivity. lra. }
  rewrite jumpFires_spent, Hspent in Hjb by (rewrite Hspent; lra).
  rewrite playerNowOf_worldAtGoal in Htr.
  split; [|split; assumption].
  rewrite isClear_physicsStep, escapes_worldAtGoal, playerNowOf_worldAtGoal.
  rewrite (proj2 (ltb_true _ _)); [apply orb_true_r|].
  rewrite distanceTo_length, length_sub_self. lra.
Qed.

Lemma clearedRun1_state :
  isClear clearedRun1 = true /\ jumpBufferTimer clearedRun1 = JUMP_BUFFER_TIME
  /\ translation (playerRb clearedRun1) = goalPos.
Proof.
  destruct clearedRun0_state as (Hc & _ & Hp).
  unfold clearedRun1. rewrite keydown_Space.
  cbn [isClear jumpBufferTimer playerRb]. repeat split; assumption.
Qed.

Lemma reachable_clearedRun1 : reachable clearedRun1.
Proof.
  apply (reachable_handle (KeyDown "Space")).
  apply (reachable_handle (Tick worldAtGoal)). constructor.
Qed.

Lemma committedVelocity_cleared (w : World) (dt : R) (g : Game) :
  isClear g = true ->
  linvel (playerRb (physicsStep_commit w dt g)) = velocityAfterGravity dt g.
Proof.
  intros Hc. rewrite physicsStep_commit_eq. cbn [playerRb linvel].
  unfold committedVelocity. rewrite Hc. reflexivity.
Qed.

(** C3, as stated, fails: once the goal is reached, a press followed by a
    grounded tick with the buffer still positive executes no jump and does
    not consume the buffer. *)
Lemma buffered_jump_ignored_when_cleared :
  reachable clearedRun1
  /\ groundedNow worldGrounded clearedRun1 = true
  /\ 0 < jumpBufferNow fixedDt clearedRun1
  /\ jumpFires worldGrounded fixedDt clearedRun1 = false
  /\ jumpBufferTimer (physicsStep worldGrounded fixedDt clearedRun1)
     = JUMP_BUFFER_TIME - fixedDt
  /\ linvel (playerRb (physicsStep_commit worldGrounded fixedDt clearedRun1))
     = velocityAfterGravity fixedDt clearedRun1.
Proof.
  destruct clearedRun1_state as (Hc & Hb & Hp).
  assert (Hnow : jumpBufferNow fixedDt clearedRun1 = JUMP_BUFFER_TIME - fixedDt).
  { rewrite jumpBufferNow_armed; rewrite Hb; [reflexivity|].
    unfold JUMP_BUFFER_TIME. lra. }
  assert (Hj : jumpFires worldGrounded fixedDt clearedRun1 = false)
    by (apply jumpFires_cleared; exact Hc).
  split; [exact reachable_clearedRun1|].
  split; [reflexivity|].
  split; [rewrite Hnow; unfold JUMP_BUFFER_TIME, fixedDt; lra|].
  split; [exact Hj|]. split.
  - destruct (physicsStep_control worldGrounded fixedDt clearedRun1)
      as (_ & Hjb & _).
    rewrite Hj, Hnow in Hjb. rewrite Hjb.
    unfold worldGrounded. rewrite escapes_still_world, Hp, length_goalPos.
    rewrite (proj2 (gtb_false _ _)); [reflexivity|unfold PLANET_RADIUS; lra].
  - apply committedVelocity_cleared. exact Hc.
Qed.

(** C3, amended.  A press of the jump key sets the buffer to
    [JUMP_BUFFER_TIME], whatever it held; a tick without jump or escape
    counts a positive buffer down by [dt] and leaves a spent one; in a tick
    in which the cleared flag is off, the ground ray hits and the buffer
    is still positive after the count-down, the jump executes (the body
    receives the impulse) and the tick ends with the buffer at 0; while the
    cleared flag is on no jump executes.  A press followed by airborne
    ticks fires in the landing tick when that tick comes less than
    [JUMP_BUFFER_TIME] of simulated time after the press; without a new
    press it does not fire in a tick that comes more than
    [JUMP_BUFFER_TIME] after it. *)
Theorem jump_buffer_fires_within_window :
  (forall g : Game, jumpBufferTimer (keydown "Space" g) = JUMP_BUFFER_TIME)
  /\ (forall (w : World) (dt : R) (g : Game),
        escapes w dt g = false -> jumpFires w dt g = false ->
        jumpBufferTimer (physicsStep w dt g)
        = if Js.gtb (jumpBufferTimer g) 0 then jumpBufferTimer g - dt
          else jumpBufferTimer g)
  /\ (forall (w : World) (dt : R) (g : Game),
        isClear g = false -> groundedNow w g = true ->
        0 < jumpBufferNow dt g ->
        jumpFires w dt g = true
        /\ jumpBufferTimer (physicsStep w dt g) = 0
        /\ linvel (playerRb (physicsStep_commit w dt g))
           = Vector3.addScaledVector
               (locomotion (input g) (yaw g) (groundedNow w g) dt (upOf g)
                  (velocityAfterGravity dt g))
               (jumpImpulseVector w dt g) (invMass (playerRb g)))
  /\ (forall (w : World) (dt : R) (g : Game),
        isClear g = true -> jumpFires w dt g = false)
  /\ (forall (ws : list World) (g : Game) (w : World),
        airborneRun ws (keydown "Space" g) = true ->
        (INR (length ws) + 1) * fixedDt < JUMP_BUFFER_TIME ->
        isClear (ticks ws (keydown "Space" g)) = false ->
        groundedNow w (ticks ws (keydown "Space" g)) = true ->
        jumpFires w fixedDt (ticks ws (keydown "Space" g)) = true)
  /\ (forall (es : list Event) (g : Game) (w : World),
        spaceFree es = true ->
        JUMP_BUFFER_TIME < (INR (tickCount es) + 1) * fixedDt ->
        jumpFires w fixedDt (run es (keydown "Space" g)) = false).
Proof.
  assert (Hpress : forall g, jumpBufferTimer (keydown "Space" g) = JUMP_BUFFER_TIME)
    by (intros g; rewrite keydown_Space; reflexivity).
  split; [exact Hpress|]. split; [|split; [|split; [|split]]].
  - intros w dt g He Hj.
    destruct (physicsStep_control w dt g) as (_ & Hjb & _).
    rewrite He, Hj in Hjb. exact Hjb.
  - intros w dt g Hc Hg Hb.
    pose proof (jumpFires_true w dt g Hc Hg Hb) as Hj.
    split; [exact Hj|]. split.
    + destruct (physicsStep_control w dt g) as (_ & Hjb & _).
      rewrite Hj in Hjb. rewrite Hjb. destruct (escapes w dt g); reflexivity.
    + apply committedVelocity_jump. exact Hj.
  - intros w dt g. apply jumpFires_cleared.
  - intros ws g w Ha Hn Hc Hg.
    assert (Hpos : 0 <= INR (length ws)) by apply pos_INR.
    assert (Hdt : 0 < fixedDt) by (unfold fixedDt; lra).
    apply jumpFires_true; [exact Hc|exact Hg|].
    assert (Ht : jumpBufferTimer (ticks ws (keydown "Space" g))
                 = JUMP_BUFFER_TIME - INR (length ws) * fixedDt).
    { rewrite jumpBufferTimer_airborne by (exact Ha || (rewrite Hpress; nra)).
      rewrite Hpress. reflexivity. }
    rewrite jumpBufferNow_armed; rewrite Ht; nra.
  - intros es g w Hs Hn. apply jumpFires_spent.
    pose proof (jumpBufferTimer_run es (keydown "Space" g) JUMP_BUFFER_TIME Hs)
      as Hb.
    rewrite Hpress in Hb. specialize (Hb (Rmax_r _ _)).
    eapply Rle_trans;
      [apply (jumpBufferNow_le fixedDt _ _ ltac:(unfold fixedDt; lra) Hb)|].
    unfold Rmax. destruct (Rle_dec 0 _); lra.
Qed.

Lemma jump_buffer_fires_within_window_witness :
  jumpBufferTimer (keydown "Space" comboRun0) = JUMP_BUFFER_TIME
  /\ jumpFires worldGrounded fixedDt (ticks [worldAirborne] comboRun0) = true
  /\ jumpBufferTimer
       (physicsStep worldGrounded fixedDt (ticks [worldAirborne] comboRun0)) = 0
  /\ jumpFires worldGrounded fixedDt
       (run (map Tick (repeat worldAirborne 9)) comboRun0) = false.
Proof.
  destruct jump_buffer_fires_within_window
    as (Hpress & _ & Hfire & _ & Hland & Hlate).
  destruct comboRun0_state as (Hc & Hw & Ht & Hi & Hb & Hp).
  assert (Hair : airborneRun [worldAirborne] comboRun0 = true).
  { cbn [airborneRun]. unfold worldAirborne at 2.
    rewrite (escapes_at_spawn _ _ _ Hp). reflexivity. }
  assert (Hclr : isClear (ticks [worldAirborne] comboRun0) = false).
  { rewrite ticks_eq. cbn [map run handle].
    rewrite isClear_physicsStep, Hc. unfold worldAirborne.
    rewrite (escapes_at_spawn _ _ _ Hp), playerNowOf_still, Hp,
      spawn_not_at_goal. reflexivity. }
  assert (Hj : jumpFires worldGrounded fixedDt (ticks [worldAirborne] comboRun0)
               = true).
  { apply (Hland [worldAirborne] (initialGame 1) worldGrounded).
    - exact Hair.
    - cbn [length INR]. unfold JUMP_BUFFER_TIME, fixedDt. lra.
    - exact Hclr.
    - reflexivity. }
  split; [apply Hpress|]. split; [exact Hj|]. split.
  - apply Hfire; [exact Hclr|reflexivity|].
    unfold jumpFires in Hj. rewrite Hclr in Hj. cbn [negb andb] in Hj.
    apply andb_true_iff in Hj. destruct Hj as [_ Hj].
    apply gtb_true in Hj. lra.
  - apply (Hlate (map Tick (repeat worldAirborne 9)) (initialGame 1)).
    + reflexivity.
    + rewrite tickCount_repeat. cbn [INR].
      unfold JUMP_BUFFER_TIME, fixedDt. lra.
Defined.

(** ** Tangential speed *)

Lemma multiplyScalar_zero (a : Vector3.t) :
  Vector3.multiplyScalar a 0 = Vector3.zero.
Proof. apply vec_eq; vec_unfold; ring. Qed.

Lemma length_wishDir_le (keys : gset string) (yaw : R) (up : Vector3.t) :
  Vector3.length (wishDir keys yaw up) <= 1.
Proof.
  unfold wishDir. set (w := Vector3.add _ _).
  case_cmp (Js.gtb (Vector3.lengthSq w) 0).
  - rewrite length_normalize by lra. lra.
  - pose proof (lengthSq_nonneg w). pose proof (length_sqr w).
    pose proof (length_nonneg w). nra.
Qed.

(** The clamped difference is the difference scaled by a factor in [0, 1]. *)
Lemma deltaVel_scaled (targetVel tangentialVel : Vector3.t) (m : R) :
  0 <= m ->
  exists k : R,
    0 <= k <= 1
    /\ deltaVel targetVel tangentialVel m
       = Vector3.multiplyScalar (Vector3.sub targetVel tangentialVel) k.
Proof.
  intros Hm. unfold deltaVel. set (d := Vector3.sub targetVel tangentialVel).
  case_cmp (Js.gtb (Vector3.length d) m).
  - exists (1 / Vector3.length d * m). split.
    + split.
      * apply Rmult_le_pos; [|exact Hm].
        apply Rlt_le. apply Rdiv_lt_0_compat; lra.
      * apply Rmult_le_reg_l with (Vector3.length d); [lra|].
        field_simplify; lra.
    + unfold Vector3.setLength, Vector3.normalize, Vector3.divideScalar.
      rewrite normalize_divisor_length by lra.
      apply vec_eq; vec_unfold; ring.
  - exists 1. split; [lra|]. apply vec_eq; vec_unfold; ring.
Qed.

Lemma length_convex (a b : Vector3.t) (k : R) :
  0 <= k <= 1 ->
  Vector3.length (Vector3.add a (Vector3.multiplyScalar (Vector3.sub b a) k))
  <= Rmax (Vector3.length a) (Vector3.length b).
Proof.
  intros Hk.
  replace (Vector3.add a (Vector3.multiplyScalar (Vector3.sub b a) k))
    with (Vector3.add (Vector3.multiplyScalar a (1 - k))
            (Vector3.multiplyScalar b k))
    by (apply vec_eq; vec_unfold; ring).
  eapply Rle_trans; [apply length_add_le|].
  rewrite !length_multiplyScalar, !Rabs_pos_eq by lra.
  pose proof (Rmax_l (Vector3.length a) (Vector3.length b)).
  pose proof (Rmax_r (Vector3.length a) (Vector3.length b)).
  nra.
Qed.

(** Steering and drag never raise the tangential speed above the larger of
    what it was and the cap. *)
Lemma length_tangentialNew_le
    (wish : Vector3.t) (cap m drag dt : R) (up velocity : Vector3.t) :
  Vector3.length wish <= 1 -> 0 <= cap -> 0 <= m -> 0 <= drag * dt ->
  Vector3.length (tangentialNew wish cap m drag dt up velocity)
  <= Rmax (Vector3.length (projectOnPlane velocity up)) cap.
Proof.
  intros Hw Hcap Hm Hdrag. unfold tangentialNew.
  set (tv := projectOnPlane velocity up).
  destruct (deltaVel_scaled (Vector3.multiplyScalar wish cap) tv m Hm)
    as (k & Hk & ->).
  rewrite length_multiplyScalar.
  assert (Hf : 0 <= Rmax 0 (1 - drag * dt) <= 1).
  { unfold Rmax. destruct (Rle_dec 0 (1 - drag * dt)); lra. }
  rewrite Rabs_pos_eq by lra.
  pose proof (length_convex tv (Vector3.multiplyScalar wish cap) k Hk) as Hc.
  assert (Ht : Vector3.length (Vector3.multiplyScalar wish cap) <= cap).
  { rewrite length_multiplyScalar, Rabs_pos_eq by lra.
    pose proof (length_nonneg wish). nra. }
  assert (Hmax : Rmax (Vector3.length tv)
                   (Vector3.length (Vector3.multiplyScalar wish cap))
                 <= Rmax (Vector3.length tv) cap).
  { apply Rmax_lub; [apply Rmax_l|].
    eapply Rle_trans; [exact Ht|apply Rmax_r]. }
  pose proof (length_nonneg
                (Vector3.add tv
                   (Vector3.multiplyScalar
                      (Vector3.sub (Vector3.multiplyScalar wish cap) tv) k))).
  nra.
Qed.

Lemma projectOnPlane_addScaled_normal (v up : Vector3.t) (s : R) :
  Vector3.lengthSq up = 1 ->
  projectOnPlane (Vector3.addScaledVector v up s) up = projectOnPlane v up.
Proof.
  intros Hu. unfold projectOnPlane.
  rewrite dot_addScaledVector_l, <- lengthSq_dot, Hu.
  apply vec_eq; vec_unfold; ring.
Qed.

Lemma projectOnPlane_gravity (v up : Vector3.t) (s : R) :
  Vector3.lengthSq up = 1 ->
  projectOnPlane
    (Vector3.addScaledVector v (Vector3.multiplyScalar up (-1)) s) up
  = projectOnPlane v up.
Proof.
  intros Hu.
  replace (Vector3.addScaledVector v (Vector3.multiplyScalar up (-1)) s)
    with (Vector3.addScaledVector v up (- s))
    by (apply vec_eq; vec_unfold; ring).
  now apply projectOnPlane_addScaled_normal.
Qed.

Lemma speedCap_nonneg (keys : gset string) : 0 <= speedCap keys.
Proof.
  unfold speedCap, BASE_SPEED, DASH_MULTIPLIER. destruct (dashing keys); lra.
Qed.

Lemma maxDelta_nonneg (keys : gset string) (gr : bool) (dt : R) :
  0 <= dt -> 0 <= maxDelta keys gr dt.
Proof.
  intros Hdt.
  unfold maxDelta, accelGround, accelAir, BASE_ACCEL_GROUND, BASE_ACCEL_AIR.
  destruct gr, (dashing keys); nra.
Qed.

Lemma drag_nonneg (keys : gset string) (gr : bool) (dt : R) :
  0 <= dt -> 0 <= drag keys gr * dt.
Proof.
  intros Hdt. unfold drag, dragGround, BASE_DRAG_GROUND, BASE_DRAG_AIR.
  destruct gr, (dashing keys); nra.
Qed.

Lemma tangentialSpeed_commit (w : World) (dt : R) (g : Game) :
  translation (playerRb g) <> Vector3.zero ->
  projectOnPlane (linvel (playerRb (physicsStep_commit w dt g))) (upOf g)
  = if isClear g then projectOnPlane (linvel (playerRb g)) (upOf g)
    else tangentialNew (wishDir (input g) (yaw g) (upOf g))
           (speedCap (input g)) (maxDelta (input g) (groundedNow w g) dt)
           (drag (input g) (groundedNow w g)) dt (upOf g)
           (velocityAfterGravity dt g).
Proof.
  intros Hp. pose proof (upOf_unit g Hp) as Hu.
  rewrite physicsStep_commit_eq. cbn [playerRb linvel].
  unfold committedVelocity.
  destruct (isClear g).
  - unfold velocityAfterGravity. now apply projectOnPlane_gravity.
  - destruct (steer_components (upOf g) Hu (wishDir (input g) (yaw g) (upOf g))
                (speedCap (input g)) (maxDelta (input g) (groundedNow w g) dt)
                (drag (input g) (groundedNow w g)) dt
                (velocityAfterGravity dt g)
                (wishDir_tangent (upOf g) Hu _ _)) as (Hs & _ & _).
    fold (locomotion (input g) (yaw g) (groundedNow w g) dt (upOf g)
            (velocityAfterGravity dt g)) in Hs.
    destruct (jumpFires w dt g); [|exact Hs].
    unfold jumpImpulseVector.
    set (j := jumpImpulseAt (jumpStage w dt g)).
    replace (Vector3.addScaledVector
               (locomotion (input g) (yaw g) (groundedNow w g) dt (upOf g)
                  (velocityAfterGravity dt g))
               (Vector3.mk (Vector3.x (upOf g) * j) (Vector3.y (upOf g) * j)
                  (Vector3.z (upOf g) * j))
               (invMass (playerRb g)))
      with (Vector3.addScaledVector
              (locomotion (input g) (yaw g) (groundedNow w g) dt (upOf g)
                 (velocityAfterGravity dt g))
              (upOf g) (j * invMass (playerRb g)))
      by (apply vec_eq; vec_unfold; ring).
    rewrite projectOnPlane_addScaled_normal by exact Hu. exact Hs.
Qed.

Lemma tangential_velocityAfterGravity (dt : R) (g : Game) :
  translation (playerRb g) <> Vector3.zero ->
  projectOnPlane (velocityAfterGravity dt g) (upOf g)
  = projectOnPlane (linvel (playerRb g)) (upOf g).
Proof.
  intros Hp. unfold velocityAfterGravity.
  apply projectOnPlane_gravity. now apply upOf_unit.
Qed.

(** C6, amended.  With the player off the planet centre and [dt] not
    negative, the tangential speed of the velocity committed in a tick is
    at most the larger of the tangential speed at tick start and the speed
    cap [BASE_SPEED * (dash ? DASH_MULTIPLIER : 1)]: a speed at or below
    the cap stays at or below it (so within the cap plus [maxDelta]), and a
    speed above the cap is not clamped, only steered and dragged down.  The
    same holds for the first variant of the loop with its [V_MAX]. *)
Theorem tangential_speed_bounded_by_start_or_cap
    (w : World) (dt : R) (g : Game) (m : MainTs.Game) :
  0 <= dt ->
  translation (playerRb g) <> Vector3.zero ->
  translation (MainTs.playerRb m) <> Vector3.zero ->
  let p := translation (playerRb g) in
  let before := tangentialSpeed p (linvel (playerRb g)) in
  let after :=
    tangentialSpeed p (linvel (playerRb (physicsStep_commit w dt g))) in
  after <= Rmax before (speedCap (input g))
  /\ (before <= speedCap (input g) -> after <= speedCap (input g))
  /\ (let pm := translation (MainTs.playerRb m) in
      tangentialSpeed pm
        (linvel (MainTs.playerRb (MainTs.physicsStep_commit w dt m)))
      <= Rmax (tangentialSpeed pm (linvel (MainTs.playerRb m))) MainTs.V_MAX).
Proof.
  intros Hdt Hp Hm. cbv zeta. unfold tangentialSpeed. fold (upOf g).
  assert (Hmain :
    Vector3.length
      (projectOnPlane (linvel (playerRb (physicsStep_commit w dt g))) (upOf g))
    <= Rmax (Vector3.length (projectOnPlane (linvel (playerRb g)) (upOf g)))
         (speedCap (input g))).
  { rewrite tangentialSpeed_commit by exact Hp.
    destruct (isClear g); [apply Rmax_l|].
    rewrite <- (tangential_velocityAfterGravity dt g Hp).
    apply length_tangentialNew_le.
    - apply length_wishDir_le.
    - apply speedCap_nonneg.
    - now apply maxDelta_nonneg.
    - now apply drag_nonneg. }
  split; [exact Hmain|]. split.
  - intros Hb. eapply Rle_trans; [exact Hmain|]. apply Rmax_lub; lra.
  - set (upm := Vector3.normalize (translation (MainTs.playerRb m))).
    assert (Hum : Vector3.lengthSq upm = 1).
    { apply lengthSq_normalize.
      pose proof (lengthSq_nonneg (translation (MainTs.playerRb m))) as H.
      destruct (Req_dec_T (Vector3.lengthSq (translation (MainTs.playerRb m))) 0)
        as [E|E]; [apply lengthSq_zero in E; contradiction | lra]. }
    unfold MainTs.physicsStep_commit. fold upm.
    set (hit := castRay w _ _ 1.7).
    set (v := Vector3.addScaledVector (linvel (MainTs.playerRb m))
                (Vector3.multiplyScalar upm (-1)) (MainTs.GRAVITY * dt)).
    assert (Hv : projectOnPlane v upm
                 = projectOnPlane (linvel (MainTs.playerRb m)) upm)
      by (apply projectOnPlane_gravity; exact Hum).
    destruct (MainTs.isClear m); cbn [negb].
    + cbn [MainTs.playerRb linvel setLinvel]. rewrite Hv. apply Rmax_l.
    + destruct (steer_components upm Hum
                  (MainTs.wish (MainTs.input m) (MainTs.yaw m) upm)
                  MainTs.V_MAX (MainTs.maxDelta hit dt) (MainTs.drag hit) dt v
                  (MainTs_wish_tangent upm _ _ Hum)) as (Hs & _ & _).
      assert (Hle : Vector3.length
                      (tangentialNew
                         (MainTs.wish (MainTs.input m) (MainTs.yaw m) upm)
                         MainTs.V_MAX (MainTs.maxDelta hit dt)
                         (MainTs.drag hit) dt upm v)
                    <= Rmax
                         (Vector3.length
                            (projectOnPlane (linvel (MainTs.playerRb m)) upm))
                         MainTs.V_MAX).
      { rewrite <- Hv. apply length_tangentialNew_le.
        - apply (length_wishDir_le (MainTs.input m) (MainTs.yaw m) upm).
        - unfold MainTs.V_MAX. lra.
        - unfold MainTs.maxDelta, MainTs.A_GROUND, MainTs.A_AIR.
          destruct hit; nra.
        - unfold MainTs.drag, MainTs.DRAG_GROUND, MainTs.DRAG_AIR.
          destruct hit; nra. }
      destruct (hit && Js.leb _ 0 && has "Space" (MainTs.input m))%bool;
        cbn [MainTs.playerRb linvel setLinvel].
      * rewrite projectOnPlane_addScaled_normal, Hs by exact Hum. exact Hle.
      * rewrite Hs. exact Hle.
Qed.

Lemma tickTail_playerRb (dt : R) (pn : Vector3.t) (c : Game) :
  playerRb (tickTail dt pn c)
  = if hits dt pn c
    then setLinvel
           (Vector3.add (linvel (playerRb c))
              (push pn (boomerangPosOf dt pn c) (Vector3.normalize pn)))
           (playerRb c)
    else playerRb c.
Proof.
  unfold tickTail. rewrite updateEnemyAndBoomerang_eq. cbv zeta.
  generalize (boomerangStep dt (boomerangOf c)). intros b.
  generalize (hits dt pn c). intros h.
  generalize (push pn (boomerangPosOf dt pn c) (Vector3.normalize pn)).
  intros k.
  generalize (boomerangPosOf dt pn c). intros bp.
  unfold goalCheck. cbn [isClear].
  destruct (negb (isClear c) && _)%bool; destruct h; reflexivity.
Qed.

Lemma hits_idle (dt : R) (pn : Vector3.t) (c : Game) :
  active (boomerangStep dt (boomerangOf c)) = false -> hits dt pn c = false.
Proof. intros Ha. unfold hits. rewrite Ha. reflexivity. Qed.

(** A tick without escape and without a flying projectile leaves the body
    as [world.step()] made it. *)
Lemma physicsStep_playerRb_quiet (w : World) (dt : R) (g : Game) :
  escapes w dt g = false ->
  active (boomerangStep dt (boomerangOf g)) = false ->
  playerRb (physicsStep w dt g)
  = step w
      (mkBody (translation (playerRb g)) (committedVelocity w dt g)
         (invMass (playerRb g))).
Proof.
  intros He Ha. rewrite physicsStep_eq, He, tickTail_playerRb.
  rewrite hits_idle; rewrite afterStep_eq; [reflexivity|exact Ha].
Qed.

Lemma initial_projectile_waits :
  active (boomerangStep fixedDt (boomerangOf (initialGame 1))) = false.
Proof.
  rewrite boomerangStep_idle by reflexivity.
  rewrite (proj2 (leb_false _ _)); [reflexivity|].
  cbn [boomerangOf initialGame boomerangCooldown cooldown].
  unfold fixedDt. lra.
Qed.

Lemma escapes_worldShove (dt : R) (g : Game) :
  translation (playerRb g) = spawnPoint -> escapes worldShove dt g = false.
Proof.
  intros Hp. unfold escapes, worldShove. cbn [step setLinvel translation].
  rewrite physicsStep_commit_eq. cbn [playerRb translation].
  rewrite Hp, length_spawnPoint. apply gtb_false. unfold PLANET_RADIUS. lra.
Qed.

Lemma shovedRun_state :
  playerRb shovedRun = mkBody spawnPoint (Vector3.mk 0 0 18) 1
  /\ isClear shovedRun = false /\ input shovedRun = ∅.
Proof.
  assert (Hp : translation (playerRb (initialGame 1)) = spawnPoint)
    by reflexivity.
  pose proof (escapes_worldShove fixedDt (initialGame 1) Hp) as He.
  unfold shovedRun. split; [|split].
  - rewrite physicsStep_playerRb_quiet
      by (exact He || exact initial_projectile_waits).
    reflexivity.
  - rewrite isClear_physicsStep, He.
    replace (playerNowOf worldShove fixedDt (initialGame 1)) with spawnPoint.
    + rewrite spawn_not_at_goal. reflexivity.
    + rewrite playerNowOf_eq. reflexivity.
  - destruct (physicsStep_control worldShove fixedDt (initialGame 1))
      as (_ & _ & _ & _ & _ & Hi & _).
    rewrite Hi. reflexivity.
Qed.

Lemma normalize_axis_y (y : R) :
  0 < y -> Vector3.normalize (Vector3.mk 0 y 0) = Vector3.mk 0 1 0.
Proof.
  intros Hy. unfold Vector3.normalize, Vector3.divideScalar.
  rewrite normalize_divisor_length; rewrite length_axis_y by lra; [|lra].
  apply vec_eq; vec_unfold; field; lra.
Qed.

Lemma has_empty (code : string) : has code ∅ = false.
Proof. unfold has. apply bool_decide_eq_false. apply not_elem_of_empty. Qed.

Lemma moveX_empty : moveX ∅ = 0.
Proof. unfold moveX. rewrite !has_empty. lra. Qed.

Lemma moveZ_empty : moveZ ∅ = 0.
Proof. unfold moveZ. rewrite !has_empty. lra. Qed.

Lemma dashing_empty : dashing ∅ = false.
Proof. unfold dashing. rewrite !has_empty. reflexivity. Qed.

Lemma wishDir_no_keys (keys : gset string) (yaw : R) (up : Vector3.t) :
  moveX keys = 0 -> moveZ keys = 0 -> wishDir keys yaw up = Vector3.zero.
Proof.
  intros Hx Hz. unfold wishDir. rewrite Hx, Hz, !multiplyScalar_zero.
  replace (Vector3.add Vector3.zero Vector3.zero) with Vector3.zero
    by (apply vec_eq; vec_unfold; ring).
  rewrite (proj2 (gtb_false _ _)); [reflexivity|].
  vec_unfold. lra.
Qed.

Lemma length_deltaVel_le (targetVel tangentialVel : Vector3.t) (m : R) :
  0 <= m -> Vector3.length (deltaVel targetVel tangentialVel m) <= m.
Proof.
  intros Hm. unfold deltaVel.
  set (d := Vector3.sub targetVel tangentialVel).
  case_cmp (Js.gtb (Vector3.length d) m); [|exact E].
  unfold Vector3.setLength.
  rewrite length_multiplyScalar, length_normalize, Rabs_pos_eq; try lra.
  pose proof (length_sqr d). pose proof (length_nonneg d). nra.
Qed.

(** C6, as stated, fails.  One tick after the start, a world step that
    leaves the body with a sideways velocity of 18 (as a collision or the
    knock-back may) gives a reachable state from which the next tick, with
    no key held, commits a tangential speed above the cap plus
    [maxDelta]. *)
Lemma tangential_speed_exceeds_cap :
  reachable shovedRun
  /\ dashing (input shovedRun) = false
  /\ tangentialSpeed (translation (playerRb shovedRun))
       (linvel (playerRb (physicsStep_commit worldAirborne fixedDt shovedRun)))
     > speedCap (input shovedRun)
       + maxDelta (input shovedRun) (groundedNow worldAirborne shovedRun)
           fixedDt.
Proof.
  destruct shovedRun_state as (Hrb & Hc & Hi).
  assert (Hp : translation (playerRb shovedRun) = spawnPoint)
    by (rewrite Hrb; reflexivity).
  assert (Hup : upOf shovedRun = Vector3.mk 0 1 0).
  { unfold upOf. rewrite Hp. unfold spawnPoint, PLANET_RADIUS.
    apply normalize_axis_y. lra. }
  split; [apply (reachable_handle (Tick worldShove)); constructor|].
  split; [rewrite Hi; exact dashing_empty|].
  unfold tangentialSpeed. fold (upOf shovedRun).
  rewrite tangentialSpeed_commit, Hc by (rewrite Hp; exact spawnPoint_nonzero).
  replace (groundedNow worldAirborne shovedRun) with false by reflexivity.
  rewrite Hi.
  rewrite wishDir_no_keys by (exact moveX_empty || exact moveZ_empty).
  replace (speedCap ∅) with 10.5
    by (unfold speedCap, BASE_SPEED; rewrite dashing_empty; lra).
  replace (maxDelta ∅ false fixedDt) with (16 / 60)
    by (unfold maxDelta, accelAir, BASE_ACCEL_AIR, fixedDt;
        rewrite dashing_empty; lra).
  replace (drag ∅ false) with 1.2 by reflexivity.
  unfold tangentialNew.
  rewrite tangential_velocityAfterGravity
    by (rewrite Hp; exact spawnPoint_nonzero).
  rewrite Hup, Hrb. cbn [linvel].
  set (tv := projectOnPlane (Vector3.mk 0 0 18) (Vector3.mk 0 1 0)).
  assert (Htv : Vector3.length tv = 18).
  { replace tv with (Vector3.mk 0 0 18)
      by (unfold tv; apply vec_eq; vec_unfold; ring).
    unfold Vector3.length.
    replace (Vector3.lengthSq (Vector3.mk 0 0 18)) with (18 * 18)
      by (vec_unfold; ring).
    apply sqrt_square. lra. }
  set (d := deltaVel (Vector3.multiplyScalar Vector3.zero 10.5) tv (16 / 60)).
  assert (Hd : Vector3.length d <= 16 / 60)
    by (apply length_deltaVel_le; lra).
  assert (Hsum : 18 - 16 / 60 <= Vector3.length (Vector3.add tv d)).
  { pose proof (length_sub_ge (Vector3.add tv d) d) as H.
    replace (Vector3.sub (Vector3.add tv d) d) with tv in H
      by (apply vec_eq; vec_unfold; ring).
    pose proof (length_add_le tv d). 
    assert (Vector3.length tv <= Vector3.length (Vector3.add tv d)
                                 + Vector3.length d).
    { pose proof (length_add_le (Vector3.add tv d)
                    (Vector3.multiplyScalar d (-1))) as H1.
      replace (Vector3.add (Vector3.add tv d) (Vector3.multiplyScalar d (-1)))
        with tv in H1 by (apply vec_eq; vec_unfold; ring).
      rewrite length_multiplyScalar in H1.
      replace (Rabs (-1)) with 1 in H1
        by (rewrite Rabs_left; lra).
      lra. }
    lra. }
  rewrite length_multiplyScalar.
  assert (Hf : Rmax 0 (1 - 1.2 * fixedDt) = 0.98).
  { unfold Rmax, fixedDt. destruct (Rle_dec 0 (1 - 1.2 * (1 / 60))); lra. }
  rewrite Hf, Rabs_pos_eq by lra. nra.
Qed.

Lemma projectOnPlane_zero (n : Vector3.t) :
  projectOnPlane Vector3.zero n = Vector3.zero.
Proof. apply vec_eq; vec_unfold; ring. Qed.

Lemma tangential_speed_bounded_by_start_or_cap_witness :
  let g := keydown "KeyW" (initialGame 1) in
  0 <= fixedDt
  /\ translation (playerRb g) <> Vector3.zero
  /\ translation (MainTs.playerRb (MainTs.initialGame 1)) <> Vector3.zero
  /\ tangentialSpeed (translation (playerRb g)) (linvel (playerRb g))
     <= speedCap (input g)
  /\ tangentialSpeed (translation (playerRb g))
       (linvel (playerRb (physicsStep_commit worldGrounded fixedDt g)))
     <= speedCap (input g).
Proof.
  intros g.
  assert (Hdt : 0 <= fixedDt) by (unfold fixedDt; lra).
  assert (Hg : translation (playerRb g) <> Vector3.zero)
    by exact spawnPoint_nonzero.
  assert (Hm : translation (MainTs.playerRb (MainTs.initialGame 1))
               <> Vector3.zero).
  { unfold MainTs.initialGame, MainTs.PLANET_RADIUS, Vector3.zero.
    cbn [MainTs.playerRb translation]. intros H.
    apply (f_equal Vector3.y) in H. cbn in H. lra. }
  assert (Hb : tangentialSpeed (translation (playerRb g)) (linvel (playerRb g))
               <= speedCap (input g)).
  { replace (linvel (playerRb g)) with Vector3.zero by reflexivity.
    unfold tangentialSpeed. rewrite projectOnPlane_zero, length_of_zero.
    apply speedCap_nonneg. }
  split; [exact Hdt|]. split; [exact Hg|]. split; [exact Hm|].
  split; [exact Hb|].
  destruct (tangential_speed_bounded_by_start_or_cap worldGrounded fixedDt g
              (MainTs.initialGame 1) Hdt Hg Hm) as (_ & H & _).
  exact (H Hb).
Defined.

(** ** Guarded directions *)

Lemma normalize_checked_total (a : Vector3.t) :
  Vector3.normalize_checked a = Some (Vector3.normalize a).
Proof.
  unfold Vector3.normalize_checked, Vector3.divideScalar_checked.
  destruct (Req_dec_T (Vector3.normalize_divisor a) 0) as [E|E].
  - exfalso. exact (normalize_divisor_nonzero a E).
  - reflexivity.
Qed.

Lemma setLength_checked_total (a : Vector3.t) (l : R) :
  Vector3.setLength_checked a l = Some (Vector3.setLength a l).
Proof.
  unfold Vector3.setLength_checked. rewrite normalize_checked_total.
  reflexivity.
Qed.

Lemma lengthSq_camera_axis (yaw : R) :
  Vector3.lengthSq (Vector3.mk (sin yaw) 0 (cos yaw)) = 1.
Proof.
  pose proof (sin2_cos2 yaw) as H. unfold Rsqr in H. vec_unfold. lra.
Qed.

(** The player on the camera-forward axis: the projected forward vector
    vanishes, and so do the wish direction's two basis vectors. *)
Lemma camForward_radial (yaw k : R) :
  k <> 0 ->
  let up :=
    Vector3.normalize
      (Vector3.multiplyScalar (Vector3.mk (sin yaw) 0 (cos yaw)) k) in
  camForward yaw up = Vector3.zero /\ camRight yaw up = Vector3.zero.
Proof.
  intros Hk up. set (f := Vector3.mk (sin yaw) 0 (cos yaw)) in *.
  pose proof (lengthSq_camera_axis yaw) as Hf. fold f in Hf.
  assert (Hlen : Vector3.length (Vector3.multiplyScalar f k) = Rabs k).
  { rewrite length_multiplyScalar. unfold Vector3.length. rewrite Hf, sqrt_1.
    ring. }
  assert (Habs : 0 < Rabs k) by (apply Rabs_pos_lt; exact Hk).
  assert (Hup : up = Vector3.multiplyScalar f (k * (1 / Rabs k))).
  { unfold up, Vector3.normalize, Vector3.divideScalar.
    rewrite normalize_divisor_length by (rewrite Hlen; lra).
    rewrite Hlen. apply vec_eq; vec_unfold; ring. }
  assert (Hs : (k * (1 / Rabs k)) * (k * (1 / Rabs k)) = 1).
  { assert (Hkk : k * k = Rabs k * Rabs k)
      by (unfold Rabs; destruct (Rcase_abs k); ring).
    replace (k * (1 / Rabs k) * (k * (1 / Rabs k)))
      with (k * k * (1 / Rabs k * (1 / Rabs k))) by ring.
    rewrite Hkk. field. lra. }
  assert (Hproj : projectOnPlane f up = Vector3.zero).
  { rewrite Hup. set (s := k * (1 / Rabs k)) in *.
    unfold projectOnPlane.
    replace (Vector3.dot f (Vector3.multiplyScalar f s))
      with (s * Vector3.lengthSq f) by (vec_unfold; ring).
    rewrite Hf.
    replace (Vector3.multiplyScalar (Vector3.multiplyScalar f s) (s * 1))
      with (Vector3.multiplyScalar f (s * s))
      by (apply vec_eq; vec_unfold; ring).
    rewrite Hs. apply vec_eq; vec_unfold; ring. }
  assert (Hcf : camForward yaw up = Vector3.zero).
  { unfold camForward. fold f. rewrite Hproj. apply normalize_zero. }
  split; [exact Hcf|].
  unfold camRight. rewrite Hcf.
  replace (Vector3.crossVectors Vector3.zero up) with Vector3.zero
    by (apply vec_eq; vec_unfold; ring).
  apply normalize_zero.
Qed.

Lemma wishDir_degenerate_basis (keys : gset string) (yaw : R) (up : Vector3.t) :
  camForward yaw up = Vector3.zero -> camRight yaw up = Vector3.zero ->
  wishDir keys yaw up = Vector3.zero.
Proof.
  intros Hf Hr. unfold wishDir. rewrite Hf, Hr.
  replace (Vector3.add (Vector3.multiplyScalar Vector3.zero (moveZ keys))
             (Vector3.multiplyScalar Vector3.zero (moveX keys)))
    with Vector3.zero by (apply vec_eq; vec_unfold; ring).
  rewrite (proj2 (gtb_false _ _)); [reflexivity|]. vec_unfold. lra.
Qed.

Lemma throwDir_degenerate (playerPos : Vector3.t) :
  Vector3.lengthSq
    (projectOnPlane (Vector3.sub playerPos enemyAnchor) enemyUp) <= 0.0001 ->
  throwDir playerPos = Vector3.mk 0 0 1.
Proof.
  intros H. unfold throwDir, tangentForward.
  rewrite (proj2 (gtb_false _ _) H). rewrite (proj2 (gtb_false _ _) H).
  reflexivity.
Qed.

Lemma lengthSq_enemyUp : Vector3.lengthSq enemyUp = 1.
Proof. apply lengthSq_normalize. vec_unfold. lra. Qed.

Lemma throwDir_above_anchor (s : R) :
  throwDir (Vector3.multiplyScalar enemyUp s) = Vector3.mk 0 0 1.
Proof.
  apply throwDir_degenerate.
  replace (projectOnPlane
             (Vector3.sub (Vector3.multiplyScalar enemyUp s) enemyAnchor)
             enemyUp)
    with Vector3.zero.
  - vec_unfold. lra.
  - unfold enemyAnchor, projectOnPlane.
    replace (Vector3.dot
               (Vector3.sub (Vector3.multiplyScalar enemyUp s)
                  (Vector3.multiplyScalar enemyUp (PLANET_RADIUS + 1.6)))
               enemyUp)
      with ((s - (PLANET_RADIUS + 1.6)) * Vector3.lengthSq enemyUp)
      by (generalize enemyUp; intros u; vec_unfold; ring).
    rewrite lengthSq_enemyUp.
    generalize enemyUp. intros u. apply vec_eq; vec_unfold; ring.
Qed.

Lemma push_degenerate (p up : Vector3.t) : push p p up = Vector3.zero.
Proof.
  unfold push.
  replace (projectOnPlane (Vector3.sub p p) up) with Vector3.zero
    by (apply vec_eq; vec_unfold; ring).
  rewrite normalize_zero. apply vec_eq; vec_unfold; ring.
Qed.

(** C9.  Every normalization in the tick divides by a scalar that is not
    zero (three.js divides by [length() || 1]), so the division that could
    produce a non-number never does, for [normalize] and for [setLength].
    With no movement key held the wish direction is the zero vector; with
    the player on the camera-forward axis the camera basis degenerates to
    zero vectors and the wish direction is the zero vector whatever keys
    are held; a projectile heading whose projection is degenerate, as with
    the player straight above or below the anchor, is the default heading
    [(0, 0, 1)], and the heading is a unit vector in every case; a
    knock-back with no direction is the zero vector. *)
Theorem directions_are_guarded :
  (forall a : Vector3.t,
      Vector3.normalize_divisor a <> 0
      /\ Vector3.normalize_checked a = Some (Vector3.normalize a))
  /\ (forall (a : Vector3.t) (l : R),
        Vector3.setLength_checked a l = Some (Vector3.setLength a l))
  /\ (forall (keys : gset string) (yaw : R) (up : Vector3.t),
        moveX keys = 0 -> moveZ keys = 0 -> wishDir keys yaw up = Vector3.zero)
  /\ (forall (keys : gset string) (yaw k : R),
        k <> 0 ->
        let up :=
          Vector3.normalize
            (Vector3.multiplyScalar (Vector3.mk (sin yaw) 0 (cos yaw)) k) in
        camForward yaw up = Vector3.zero
        /\ camRight yaw up = Vector3.zero
        /\ wishDir keys yaw up = Vector3.zero)
  /\ (forall playerPos : Vector3.t,
        Vector3.lengthSq
          (projectOnPlane (Vector3.sub playerPos enemyAnchor) enemyUp)
        <= 0.0001 ->
        throwDir playerPos = Vector3.mk 0 0 1)
  /\ (forall s : R,
        throwDir (Vector3.multiplyScalar enemyUp s) = Vector3.mk 0 0 1)
  /\ (forall playerPos : Vector3.t, Vector3.length (throwDir playerPos) = 1)
  /\ (forall p up : Vector3.t, push p p up = Vector3.zero).
Proof.
  split; [|split; [|split; [|split; [|split; [|split; [|split]]]]]].
  - intros a. split; [apply normalize_divisor_nonzero|].
    apply normalize_checked_total.
  - apply setLength_checked_total.
  - apply wishDir_no_keys.
  - intros keys yaw k Hk up.
    destruct (camForward_radial yaw k Hk) as [Hf Hr]. fold up in Hf, Hr.
    split; [exact Hf|]. split; [exact Hr|].
    now apply wishDir_degenerate_basis.
  - apply throwDir_degenerate.
  - apply throwDir_above_anchor.
  - apply length_throwDir.
  - apply push_degenerate.
Qed.

Lemma directions_are_guarded_witness :
  wishDir ∅ 0 (Vector3.mk 0 1 0) = Vector3.zero
  /\ wishDir {["KeyW"]} 0
       (Vector3.normalize
          (Vector3.multiplyScalar (Vector3.mk (sin 0) 0 (cos 0)) 100))
     = Vector3.zero
  /\ throwDir enemyAnchor = Vector3.mk 0 0 1.
Proof.
  destruct directions_are_guarded
    as (_ & _ & Hkeys & Hradial & _ & Habove & _).
  split; [|split].
  - apply Hkeys; [exact moveX_empty|exact moveZ_empty].
  - apply (Hradial {["KeyW"]} 0 100). lra.
  - apply Habove.
Defined.

(** ** A jump out of a free fall *)

Lemma tangentialNew_stops
    (cap m drag dt : R) (up velocity : Vector3.t) :
  Vector3.length (projectOnPlane velocity up) <= m ->
  tangentialNew Vector3.zero cap m drag dt up velocity = Vector3.zero.
Proof.
  intros Hm. unfold tangentialNew, deltaVel.
  set (tv := projectOnPlane velocity up) in *.
  replace (Vector3.sub (Vector3.multiplyScalar Vector3.zero cap) tv)
    with (Vector3.multiplyScalar tv (-1))
    by (apply vec_eq; vec_unfold; ring).
  rewrite length_multiplyScalar.
  replace (Rabs (-1)) with 1 by (rewrite Rabs_left; lra).
  rewrite (proj2 (gtb_false _ _)) by lra.
  apply vec_eq; vec_unfold; ring.
Qed.

(** No point of the y axis is within the goal's radius. *)
Lemma axis_not_at_goal (y : R) :
  Js.ltb (Vector3.distanceTo (Vector3.mk 0 y 0) goalPos) 4.2 = false.
Proof.
  apply ltb_false.
  set (v := Vector3.mk 0 (PLANET_RADIUS + 1) (-36)).
  assert (Hsq : Vector3.lengthSq v = 11497)
    by (unfold v, PLANET_RADIUS; vec_unfold; lra).
  assert (HL : 0 < Vector3.length v < 108).
  { split; [apply length_pos; lra|].
    pose proof (length_sqr v) as H. pose proof (length_nonneg v).
    rewrite Hsq in H. nra. }
  assert (Hd : Vector3.normalize_divisor v = Vector3.length v)
    by (apply normalize_divisor_length; lra).
  set (L := Vector3.length v) in *.
  assert (Hz : Vector3.z goalPos = -36 * (1 / L) * (PLANET_RADIUS + 1.4)).
  { unfold goalPos. fold v. unfold Vector3.normalize, Vector3.divideScalar.
    rewrite Hd. reflexivity. }
  assert (Hz' : Vector3.z goalPos <= -33).
  { rewrite Hz. unfold PLANET_RADIUS.
    assert (1 / 108 < 1 / L).
    { unfold Rdiv. rewrite !Rmult_1_l. apply Rinv_lt_contravar; nra. }
    nra. }
  rewrite distanceTo_length.
  set (p := Vector3.mk 0 y 0).
  pose proof (length_sqr (Vector3.sub p goalPos)) as Hs.
  pose proof (length_nonneg (Vector3.sub p goalPos)) as Hn.
  assert (Hge : (0 - Vector3.z goalPos) * (0 - Vector3.z goalPos)
                <= Vector3.lengthSq (Vector3.sub p goalPos)).
  { unfold Vector3.lengthSq, Vector3.sub, p.
    cbn [Vector3.x Vector3.y Vector3.z].
    generalize (Vector3.x goalPos) (Vector3.y goalPos) (Vector3.z goalPos).
    intros a b c.
    pose proof (Rle_0_sqr (0 - a)) as Ha.
    pose proof (Rle_0_sqr (y - b)) as Hb.
    unfold Rsqr in Ha, Hb. lra. }
  assert (Hlow : 33 * 33 <= (0 - Vector3.z goalPos) * (0 - Vector3.z goalPos))
    by nra.
  set (d := Vector3.length (Vector3.sub p goalPos)) in *.
  destruct (Rle_dec 4.2 d) as [|Hlt]; [assumption|].
  assert (d * d < 4.2 * 4.2) by nra. lra.
Qed.

(** The velocity a tick commits for a player on the y axis who moves along
    it and holds no movement key: gravity and the jump only. *)
Lemma committedVelocity_on_axis
    (w : World) (dt y vy : R) (g : Game) :
  0 < y -> 0 <= dt ->
  translation (playerRb g) = Vector3.mk 0 y 0 ->
  linvel (playerRb g) = Vector3.mk 0 vy 0 ->
  isClear g = false -> moveX (input g) = 0 -> moveZ (input g) = 0 ->
  committedVelocity w dt g
  = Vector3.mk 0
      (vy - GRAVITY * dt
       + (if jumpFires w dt g
          then jumpImpulseAt (jumpStage w dt g) * invMass (playerRb g)
          else 0))
      0.
Proof.
  intros Hy Hdt Ht Hv Hc Hx Hz.
  assert (Hup : upOf g = Vector3.mk 0 1 0).
  { unfold upOf. rewrite Ht. now apply normalize_axis_y. }
  assert (Hg : velocityAfterGravity dt g = Vector3.mk 0 (vy - GRAVITY * dt) 0).
  { unfold velocityAfterGravity. rewrite Hup, Hv.
    apply vec_eq; vec_unfold; ring. }
  assert (Hl : locomotion (input g) (yaw g) (groundedNow w g) dt (upOf g)
                 (velocityAfterGravity dt g)
               = Vector3.mk 0 (vy - GRAVITY * dt) 0).
  { unfold locomotion, steer. rewrite (wishDir_no_keys _ _ _ Hx Hz), Hup, Hg.
    assert (Hp : projectOnPlane (Vector3.mk 0 (vy - GRAVITY * dt) 0)
                   (Vector3.mk 0 1 0) = Vector3.zero)
      by (apply vec_eq; vec_unfold; ring).
    rewrite tangentialNew_stops
      by (rewrite Hp, length_of_zero; now apply maxDelta_nonneg).
    rewrite Hp. apply vec_eq; vec_unfold; ring. }
  unfold committedVelocity. rewrite Hc, Hl.
  destruct (jumpFires w dt g).
  - rewrite jumpImpulseVector_eq, Hup. apply vec_eq; vec_unfold; ring.
  - apply vec_eq; vec_unfold; ring.
Qed.

Lemma groundedNow_freeFlight (g : Game) (y : R) :
  translation (playerRb g) = Vector3.mk 0 y 0 -> 0 <= y ->
  groundedNow worldFreeFlight g = Js.leb (y - PLANET_RADIUS) GROUND_RAY_LEN.
Proof.
  intros Ht Hy. unfold groundedNow, worldFreeFlight. cbn [castRay].
  rewrite Ht, length_axis_y by exact Hy. reflexivity.
Qed.

(** One tick of a player on the y axis, with the projectile idle. *)
Lemma freeFlight_tick (g : Game) (y vy im c : R) :
  playerRb g = mkBody (Vector3.mk 0 y 0) (Vector3.mk 0 vy 0) im ->
  isClear g = false -> moveX (input g) = 0 -> moveZ (input g) = 0 ->
  boomerangOf g = mkBoomerang false true 0 c false -> fixedDt < c ->
  let jf := jumpFires worldFreeFlight fixedDt g in
  let v :=
    vy - GRAVITY * fixedDt
    + (if jf then jumpImpulseAt (jumpStage worldFreeFlight fixedDt g) * im
       else 0) in
  let y' := y + v * fixedDt in
  0 < y -> 0 < y' -> y' <= PLANET_RADIUS + 60 ->
  let g' := physicsStep worldFreeFlight fixedDt g in
  playerRb g' = mkBody (Vector3.mk 0 y' 0) (Vector3.mk 0 v 0) im
  /\ isClear g' = false /\ input g' = input g
  /\ escapes worldFreeFlight fixedDt g = false
  /\ jumpComboIndex g'
     = (if jf then nextComboIndex (jumpStage worldFreeFlight fixedDt g)
        else jumpStage worldFreeFlight fixedDt g)
  /\ jumpBufferTimer g' = (if jf then 0 else jumpBufferNow fixedDt g)
  /\ comboTimer g'
     = (if jf then Js.PosInfinity
        else comboTimerNow worldFreeFlight fixedDt g)
  /\ wasGrounded g' = (if jf then false else groundedNow worldFreeFlight g)
  /\ boomerangOf g' = mkBoomerang false true 0 (c - fixedDt) false.
Proof.
  intros Hrb Hc Hx Hz Hb Hcd jf v y' Hy Hy' Hfar g'.
  assert (Hdt : 0 <= fixedDt) by (unfold fixedDt; lra).
  assert (Ht : translation (playerRb g) = Vector3.mk 0 y 0)
    by (rewrite Hrb; reflexivity).
  assert (Hv : linvel (playerRb g) = Vector3.mk 0 vy 0)
    by (rewrite Hrb; reflexivity).
  assert (Him : invMass (playerRb g) = im) by (rewrite Hrb; reflexivity).
  assert (Hcv : committedVelocity worldFreeFlight fixedDt g = Vector3.mk 0 v 0).
  { rewrite (committedVelocity_on_axis worldFreeFlight fixedDt y vy g
               Hy Hdt Ht Hv Hc Hx Hz), Him. reflexivity. }
  assert (Hstep : step worldFreeFlight
                    (mkBody (translation (playerRb g))
                       (committedVelocity worldFreeFlight fixedDt g)
                       (invMass (playerRb g)))
                  = mkBody (Vector3.mk 0 y' 0) (Vector3.mk 0 v 0) im).
  { rewrite Ht, Hcv, Him. unfold worldFreeFlight.
    cbn [step]. unfold setTranslation.
    cbn [translation linvel invMass].
    f_equal. apply vec_eq; vec_unfold; unfold y'; ring. }
  assert (Hpn : playerNowOf worldFreeFlight fixedDt g = Vector3.mk 0 y' 0).
  { rewrite playerNowOf_eq, Hstep. reflexivity. }
  assert (He : escapes worldFreeFlight fixedDt g = false).
  { unfold escapes. fold (playerNowOf worldFreeFlight fixedDt g).
    rewrite Hpn, length_axis_y by lra. apply gtb_false. exact Hfar. }
  assert (Hidle : active (boomerangStep fixedDt (boomerangOf g)) = false).
  { rewrite Hb, boomerangStep_idle by reflexivity. cbn [cooldown].
    rewrite (proj2 (leb_false _ _)) by lra. reflexivity. }
  destruct (physicsStep_control worldFreeFlight fixedDt g)
    as (Hidx & Hjb & Hct & _ & Hwg & Hin & _).
  fold g' in Hidx, Hjb, Hct, Hwg, Hin. rewrite He in Hidx, Hjb, Hct.
  fold jf in Hidx, Hjb, Hct, Hwg.
  split.
  { unfold g'. rewrite (physicsStep_playerRb_quiet _ _ _ He Hidle). exact Hstep. }
  split.
  { unfold g'. rewrite isClear_physicsStep, He, Hc, Hpn, axis_not_at_goal.
    reflexivity. }
  split; [exact Hin|]. split; [exact He|]. split; [exact Hidx|].
  split; [exact Hjb|]. split; [exact Hct|]. split; [exact Hwg|].
  unfold g'. rewrite physicsStep_boomerang, Hb, boomerangStep_idle by reflexivity.
  cbn [cooldown outward distance visible].
  rewrite (proj2 (leb_false _ _)) by lra. reflexivity.
Qed.

Lemma fallRun_S (k : nat) :
  fallRun (S k) = physicsStep worldFreeFlight fixedDt (fallRun k).
Proof. unfold fallRun. rewrite Nat.iter_succ. reflexivity. Qed.

Lemma fallHeight_S (k : nat) :
  fallHeight (S k)
  = fallHeight k + (- (GRAVITY * fixedDt * INR k) - GRAVITY * fixedDt) * fixedDt.
Proof. unfold fallHeight. rewrite S_INR. field. Qed.

Lemma INR_18 : INR 18 = 18.
Proof. rewrite INR_IZR_INZ. reflexivity. Qed.

Lemma fallHeight_bounds (k : nat) :
  (k <= 18)%nat -> PLANET_RADIUS + 1.8 < fallHeight k <= PLANET_RADIUS + 3.2.
Proof.
  intros Hk. assert (HR : INR k <= 18) by (rewrite <- INR_18; now apply le_INR).
  pose proof (pos_INR k) as H0.
  unfold fallHeight, GRAVITY, fixedDt, PLANET_RADIUS. split; nra.
Qed.

Lemma fallHeight_above_ray (k : nat) :
  (k <= 17)%nat -> PLANET_RADIUS + GROUND_RAY_LEN < fallHeight k.
Proof.
  intros Hk. assert (HR : INR k <= 17).
  { replace 17 with (INR 17) by (rewrite INR_IZR_INZ; reflexivity).
    now apply le_INR. }
  pose proof (pos_INR k) as H0.
  unfold fallHeight, GRAVITY, fixedDt, PLANET_RADIUS, GROUND_RAY_LEN. nra.
Qed.

Lemma has_Space_only (code : string) :
  code <> "Space" -> has code ({["Space"]} ∪ ∅ : gset string) = false.
Proof.
  intros Hne. unfold has. apply bool_decide_eq_false.
  rewrite elem_of_union, elem_of_singleton. intros [H|H]; [contradiction|].
  revert H. apply not_elem_of_empty.
Qed.

(** The fall, tick by tick: the body stays on the y axis, nothing else
    changes but the projectile's cooldown, and no ray reaches the ground
    during the first 18 ticks. *)
Lemma fallRun_state (k : nat) :
  (k <= 18)%nat ->
  playerRb (fallRun k)
  = mkBody (Vector3.mk 0 (fallHeight k) 0)
      (Vector3.mk 0 (- (GRAVITY * fixedDt * INR k)) 0) 5
  /\ isClear (fallRun k) = false /\ input (fallRun k) = ∅
  /\ jumpComboIndex (fallRun k) = 0%nat
  /\ comboTimer (fallRun k) = Js.PosInfinity
  /\ wasGrounded (fallRun k) = false
  /\ boomerangOf (fallRun k)
     = mkBoomerang false true 0 (1.1 - INR k * fixedDt) false.
Proof.
  induction k as [|k IH]; intros Hk.
  - unfold fallRun, fallHeight. cbn [Nat.iter nat_rect INR].
    repeat split; try reflexivity.
    + unfold initialGame, spawnPoint. cbn [playerRb]. f_equal.
      * f_equal. lra.
      * unfold Vector3.zero. f_equal. lra.
    + unfold boomerangOf, initialGame.
      cbn [boomerangActive boomerangOutward boomerangDistance
           boomerangCooldown boomerangMesh_visible].
      f_equal. lra.
  - destruct IH as (Hrb & Hc & Hin & Hidx & Hct & Hwg & Hb); [lia|].
    assert (HR : INR k <= 17).
    { replace 17 with (INR 17) by (rewrite INR_IZR_INZ; reflexivity).
      apply le_INR. lia. }
    pose proof (pos_INR k) as H0.
    pose proof (fallHeight_bounds k ltac:(lia)) as Hh.
    pose proof (fallHeight_bounds (S k) Hk) as HhS.
    pose proof (fallHeight_above_ray k ltac:(lia)) as Hray.
    assert (Ht : translation (playerRb (fallRun k))
                 = Vector3.mk 0 (fallHeight k) 0) by (rewrite Hrb; reflexivity).
    assert (Hg : groundedNow worldFreeFlight (fallRun k) = false).
    { rewrite (groundedNow_freeFlight _ _ Ht)
        by (unfold PLANET_RADIUS in Hh; lra).
      apply leb_false. lra. }
    assert (Hj : jumpFires worldFreeFlight fixedDt (fallRun k) = false)
      by now apply jumpFires_airborne.
    assert (Hst : jumpStage worldFreeFlight fixedDt (fallRun k) = 0%nat).
    { unfold jumpStage. rewrite comboTimerNow_airborne, Hct by exact Hg.
      reflexivity. }
    assert (Hx : moveX (input (fallRun k)) = 0) by (rewrite Hin; apply moveX_empty).
    assert (Hz : moveZ (input (fallRun k)) = 0) by (rewrite Hin; apply moveZ_empty).
    pose proof (freeFlight_tick (fallRun k) _ _ _ _ Hrb Hc Hx Hz Hb) as Htick.
    cbv zeta in Htick. rewrite Hj, Hst in Htick.
    replace (- (GRAVITY * fixedDt * INR k) - GRAVITY * fixedDt + 0)
      with (- (GRAVITY * fixedDt * INR (S k))) in Htick
      by (rewrite S_INR; ring).
    replace (fallHeight k + - (GRAVITY * fixedDt * INR (S k)) * fixedDt)
      with (fallHeight (S k)) in Htick
      by (rewrite fallHeight_S, S_INR; ring).
    destruct Htick as (Hrb' & Hc' & Hin' & _ & Hidx' & _ & Hct' & Hwg' & Hb').
    + unfold fixedDt in *. lra.
    + unfold PLANET_RADIUS in Hh. lra.
    + unfold PLANET_RADIUS in HhS. lra.
    + unfold PLANET_RADIUS in *. lra.
    + rewrite fallRun_S.
      split; [exact Hrb'|]. split; [exact Hc'|].
      split; [rewrite Hin'; exact Hin|]. split; [exact Hidx'|].
      split; [rewrite Hct', comboTimerNow_airborne by exact Hg; exact Hct|].
      split; [rewrite Hwg'; exact Hg|].
      rewrite Hb', S_INR. f_equal. ring.
Qed.

Lemma reachable_tick (w : World) (g : Game) :
  reachable g -> reachable (physicsStep w fixedDt g).
Proof. intros H. change (reachable (handle (Tick w) g)). now constructor. Qed.

Lemma reachable_keydown (code : string) (g : Game) :
  reachable g -> reachable (keydown code g).
Proof. intros H. change (reachable (handle (KeyDown code) g)). now constructor. Qed.

Lemma reachable_fallRun (k : nat) : reachable (fallRun k).
Proof.
  induction k as [|k IH].
  - constructor.
  - rewrite fallRun_S. now apply reachable_tick.
Qed.

Lemma keydown_Space_frame (g : Game) :
  playerRb (keydown "Space" g) = playerRb g
  /\ isClear (keydown "Space" g) = isClear g
  /\ input (keydown "Space" g) = {["Space"]} ∪ input g
  /\ jumpComboIndex (keydown "Space" g) = jumpComboIndex g
  /\ comboTimer (keydown "Space" g) = comboTimer g
  /\ wasGrounded (keydown "Space" g) = wasGrounded g
  /\ jumpBufferTimer (keydown "Space" g) = JUMP_BUFFER_TIME
  /\ boomerangOf (keydown "Space" g) = boomerangOf g.
Proof. rewrite keydown_Space. repeat split; reflexivity. Qed.

Lemma fallHeight_18 : fallHeight 18 = PLANET_RADIUS + 1.87.
Proof.
  unfold fallHeight. rewrite INR_18. unfold GRAVITY, fixedDt, PLANET_RADIUS.
  lra.
Qed.

(** The state in which the jump key has just been pressed. *)
Lemma flightRun1_state :
  playerRb flightRun1
  = mkBody (Vector3.mk 0 (PLANET_RADIUS + 1.87) 0) (Vector3.mk 0 (-8.4) 0) 5
  /\ isClear flightRun1 = false
  /\ moveX (input flightRun1) = 0 /\ moveZ (input flightRun1) = 0
  /\ jumpComboIndex flightRun1 = 0%nat
  /\ comboTimer flightRun1 = Js.PosInfinity
  /\ wasGrounded flightRun1 = false
  /\ jumpBufferTimer flightRun1 = JUMP_BUFFER_TIME
  /\ boomerangOf flightRun1 = mkBoomerang false true 0 0.8 false.
Proof.
  destruct (fallRun_state 18 (le_n 18)) as (Hrb & Hc & Hin & Hidx & Hct & Hwg & Hb).
  destruct (keydown_Space_frame (fallRun 18))
    as (Krb & Kc & Kin & Kidx & Kct & Kwg & Kjb & Kb).
  fold flightRun1 in Krb, Kc, Kin, Kidx, Kct, Kwg, Kjb, Kb.
  rewrite Krb, Kc, Kin, Kidx, Kct, Kwg, Kjb, Kb, Hrb, Hc, Hin, Hidx, Hct, Hwg, Hb.
  rewrite fallHeight_18, INR_18.
  split.
  { repeat f_equal. unfold GRAVITY, fixedDt. lra. }
  split; [reflexivity|].
  split.
  { unfold moveX. rewrite !has_Space_only by discriminate. lra. }
  split.
  { unfold moveZ. rewrite !has_Space_only by discriminate. lra. }
  split; [reflexivity|]. split; [reflexivity|]. split; [reflexivity|].
  split; [reflexivity|]. f_equal. unfold fixedDt. lra.
Qed.

(** The tick after the press: the ray reaches the ground for the first
    time, the buffered jump fires at stage 0. *)
Lemma flightRun1_jump :
  groundedNow worldFreeFlight flightRun1 = true
  /\ jumpFires worldFreeFlight fixedDt flightRun1 = true
  /\ comboTimerNow worldFreeFlight fixedDt flightRun1 = Js.Real (0 + fixedDt)
  /\ jumpStage worldFreeFlight fixedDt flightRun1 = 0%nat.
Proof.
  destruct flightRun1_state as (Hrb & Hc & _ & _ & Hidx & _ & Hwg & Hjb & _).
  assert (Ht : translation (playerRb flightRun1)
               = Vector3.mk 0 (PLANET_RADIUS + 1.87) 0)
    by (rewrite Hrb; reflexivity).
  assert (Hg : groundedNow worldFreeFlight flightRun1 = true).
  { rewrite (groundedNow_freeFlight _ _ Ht) by (unfold PLANET_RADIUS; lra).
    apply leb_true. unfold GROUND_RAY_LEN. lra. }
  assert (Hct : comboTimerNow worldFreeFlight fixedDt flightRun1
                = Js.Real (0 + fixedDt))
    by (apply comboTimerNow_landing; assumption).
  split; [exact Hg|]. split.
  - apply jumpFires_true; [exact Hc|exact Hg|].
    rewrite jumpBufferNow_armed; rewrite Hjb;
      unfold JUMP_BUFFER_TIME, fixedDt; lra.
  - split; [exact Hct|]. unfold jumpStage. rewrite Hct. cbn [Js.num_gtb].
    rewrite (proj2 (gtb_false _ _))
      by (unfold JUMP_COMBO_WINDOW, fixedDt; lra).
    exact Hidx.
Qed.

Lemma jumpImpulseAt_0 : jumpImpulseAt 0 = 7.
Proof. unfold jumpImpulseAt, JUMP_IMPULSES. cbn [nth]. lra. Qed.

(** The state after the jump tick: the body has risen out of the ray's
    reach. *)
Lemma flightRun2_state :
  playerRb flightRun2
  = mkBody (Vector3.mk 0 (PLANET_RADIUS + 1.87 + (26.6 - 28 / 60) / 60) 0)
      (Vector3.mk 0 (26.6 - 28 / 60) 0) 5
  /\ isClear flightRun2 = false
  /\ moveX (input flightRun2) = 0 /\ moveZ (input flightRun2) = 0
  /\ jumpComboIndex flightRun2 = 1%nat
  /\ comboTimer flightRun2 = Js.PosInfinity
  /\ wasGrounded flightRun2 = false
  /\ boomerangOf flightRun2 = mkBoomerang false true 0 (0.8 - fixedDt) false
  /\ escapes worldFreeFlight fixedDt flightRun1 = false.
Proof.
  destruct flightRun1_state as (Hrb & Hc & Hx & Hz & Hidx & _ & _ & _ & Hb).
  destruct flightRun1_jump as (_ & Hj & _ & Hst).
  pose proof (freeFlight_tick flightRun1 _ _ _ _ Hrb Hc Hx Hz Hb) as Htick.
  unfold flightRun2.
  cbv zeta in Htick. rewrite Hj, Hst, jumpImpulseAt_0 in Htick.
  replace (-8.4 - GRAVITY * fixedDt + 7 * 5) with (26.6 - 28 / 60) in Htick
    by (unfold GRAVITY, fixedDt; lra).
  replace (PLANET_RADIUS + 1.87 + (26.6 - 28 / 60) * fixedDt)
    with (PLANET_RADIUS + 1.87 + (26.6 - 28 / 60) / 60) in Htick
    by (unfold fixedDt; lra).
  destruct Htick as (Hrb' & Hc' & Hin' & He & Hidx' & _ & Hct' & Hwg' & Hb').
  - unfold fixedDt. lra.
  - unfold PLANET_RADIUS. lra.
  - unfold PLANET_RADIUS. lra.
  - unfold PLANET_RADIUS. lra.
  - split; [exact Hrb'|]. split; [exact Hc'|].
    split; [rewrite Hin'; exact Hx|]. split; [rewrite Hin'; exact Hz|].
    split; [rewrite Hidx'; reflexivity|].
    split; [exact Hct'|]. split; [exact Hwg'|]. split; [exact Hb'|exact He].
Qed.


(** * Further properties *)

(** ** The combo index stays inside the table *)

Lemma nextComboIndex_lt (i : nat) : (nextComboIndex i < 3)%nat.
Proof.
  unfold nextComboIndex, JUMP_IMPULSES. cbn [length Nat.sub].
  destruct (Nat.leb_spec 2 i); lia.
Qed.

Lemma jumpStage_lt (w : World) (dt : R) (g : Game) :
  (jumpComboIndex g < 3)%nat -> (jumpStage w dt g < 3)%nat.
Proof. intros H. unfold jumpStage. destruct (Js.num_gtb _ _); lia. Qed.

Lemma jumpComboIndex_keydown (code : string) (g : Game) :
  jumpComboIndex (keydown code g)
  = if String.eqb code "KeyR" then 0%nat else jumpComboIndex g.
Proof.
  unfold keydown. destruct (String.eqb code "KeyR"), (String.eqb code "Space");
    reflexivity.
Qed.

(** X1.  In every reachable state the combo index is 0, 1 or 2, so the impulse
    a jump reads from [JUMP_IMPULSES] is one of the three of the table. *)
Theorem combo_index_in_table (g : Game) :
  reachable g ->
  (jumpComboIndex g < 3)%nat
  /\ forall (w : World) (dt : R),
       jumpImpulseAt (jumpStage w dt g) = 7
       \/ jumpImpulseAt (jumpStage w dt g) = 8.5
       \/ jumpImpulseAt (jumpStage w dt g) = 10.
Proof.
  intros Hr.
  assert (Hlt : (jumpComboIndex g < 3)%nat).
  { induction Hr as [im|e g Hg IH].
    - cbn. lia.
    - destruct e as [code|code|l mx my|w|]; cbn [handle].
      + rewrite jumpComboIndex_keydown. destruct (String.eqb code "KeyR"); lia.
      + exact IH.
      + unfold mousemove. destruct l; exact IH.
      + destruct (physicsStep_control w fixedDt g) as (Hidx & _).
        rewrite Hidx. destruct (escapes w fixedDt g); [lia|].
        destruct (jumpFires w fixedDt g);
          [apply nextComboIndex_lt|now apply jumpStage_lt].
      + unfold render. destruct (Js.gtb (hitFlash g) 0); exact IH. }
  split; [exact Hlt|]. intros w dt.
  pose proof (jumpStage_lt w dt g Hlt) as Hs.
  unfold jumpImpulseAt, JUMP_IMPULSES.
  destruct (jumpStage w dt g) as [|[|[|n]]]; cbn [nth]; [left|right;left|right;right|lia]; lra.
Qed.

Lemma combo_index_in_table_witness :
  reachable comboRun1 /\ (jumpComboIndex comboRun1 < 3)%nat.
Proof.
  assert (Hr : reachable comboRun1).
  { apply (reachable_handle (Tick worldGrounded)).
    apply (reachable_handle (KeyDown "Space")). constructor. }
  split; [exact Hr|]. exact (proj1 (combo_index_in_table comboRun1 Hr)).
Defined.

(** ** Pointer and keys *)

Lemma pitch_physicsStep (w : World) (dt : R) (g : Game) :
  pitch (physicsStep w dt g) = pitch g.
Proof. now destruct (physicsStep_control w dt g) as (_&_&_&_&_&_&_&H&_). Qed.

Lemma yaw_physicsStep (w : World) (dt : R) (g : Game) :
  yaw (physicsStep w dt g) = yaw g.
Proof. now destruct (physicsStep_control w dt g) as (_&_&_&_&_&_&H&_). Qed.

Lemma input_physicsStep (w : World) (dt : R) (g : Game) :
  input (physicsStep w dt g) = input g.
Proof. now destruct (physicsStep_control w dt g) as (_&_&_&_&_&H&_). Qed.

Lemma pitch_keydown (code : string) (g : Game) : pitch (keydown code g) = pitch g.
Proof.
  unfold keydown. destruct (String.eqb code "KeyR"), (String.eqb code "Space");
    reflexivity.
Qed.

(** X2.  The pitch of the camera stays in [-1.2, 1.2] in every reachable state;
    a pointer move with the pointer locked turns the yaw by
    [0.0025] per unit and clamps the pitch, and with the pointer not locked
    it changes nothing. *)
Theorem pitch_clamped :
  (forall g : Game, reachable g -> -1.2 <= pitch g <= 1.2)
  /\ (forall (mx my : R) (g : Game),
        yaw (mousemove true mx my g) = yaw g - mx * 0.0025
        /\ pitch (mousemove true mx my g)
           = Js.clamp (pitch g - my * 0.0025) (-1.2) 1.2)
  /\ (forall (mx my : R) (g : Game), mousemove false mx my g = g).
Proof.
  split; [|split].
  - intros g Hr. induction Hr as [im|e g Hg IH].
    + cbn. lra.
    + destruct e as [code|code|l mx my|w|]; cbn [handle].
      * now rewrite pitch_keydown.
      * exact IH.
      * unfold mousemove. destruct l; cbn [negb]; [|exact IH].
        cbn [pitch set_pitch]. apply clamp_bounds. lra.
      * now rewrite pitch_physicsStep.
      * unfold render. destruct (Js.gtb (hitFlash g) 0); exact IH.
  - intros mx my g. split; reflexivity.
  - reflexivity.
Qed.

Lemma pitch_clamped_witness :
  reachable (mousemove true 0 (-1000) (initialGame 1))
  /\ pitch (mousemove true 0 (-1000) (initialGame 1)) = 1.2.
Proof.
  destruct pitch_clamped as (Hinv & Hmove & _).
  assert (Hr : reachable (mousemove true 0 (-1000) (initialGame 1)))
    by (apply (reachable_handle (MouseMove true 0 (-1000))); constructor).
  split; [exact Hr|].
  rewrite (proj2 (Hmove 0 (-1000) (initialGame 1))).
  replace (pitch (initialGame 1)) with 0.2 by reflexivity.
  assert (Hle : -1.2 <= 1.2) by lra.
  destruct (clamp_spec (0.2 - -1000 * 0.0025) (-1.2) 1.2 Hle)
    as [[H _]|[[H _]|[_ H]]]; [lra|lra|exact H].
Defined.

Lemma input_keydown (code : string) (g : Game) :
  input (keydown code g) = {[code]} ∪ input g.
Proof.
  unfold keydown. destruct (String.eqb code "KeyR"), (String.eqb code "Space");
    reflexivity.
Qed.

Lemma has_iff (code : string) (keys : gset string) :
  has code keys = true <-> code ∈ keys.
Proof. unfold has. apply bool_decide_eq_true. Qed.

(** X3.  The held-key set: a key is held right after its key-down and not held
    right after its key-up; events of other keys do not change whether it
    is held, and ticks and renders never change the set (a reset by KeyR
    keeps the held keys too). *)
Theorem held_keys (code other : string) (g : Game) :
  has code (input (keydown code g)) = true
  /\ has code (input (keyup code g)) = false
  /\ (other <> code ->
      has code (input (keydown other g)) = has code (input g)
      /\ has code (input (keyup other g)) = has code (input g))
  /\ (forall w : World, input (physicsStep w fixedDt g) = input g)
  /\ input (render g) = input g.
Proof.
  split; [|split; [|split; [|split]]].
  - rewrite input_keydown. apply has_iff.
    apply elem_of_union. left. now apply elem_of_singleton.
  - unfold keyup. cbn [input set_input]. unfold has.
    apply bool_decide_eq_false. intros [_ H]%elem_of_difference.
    apply H. now apply elem_of_singleton.
  - intros Hne. split.
    + rewrite input_keydown. unfold has. apply bool_decide_ext.
      rewrite elem_of_union, elem_of_singleton. split; [|now right].
      intros [Heq|Hin]; [congruence|exact Hin].
    + unfold keyup. cbn [input set_input]. unfold has.
      apply bool_decide_ext.
      rewrite elem_of_difference, elem_of_singleton. split; [tauto|].
      intros Hin. split; [exact Hin|congruence].
  - intros w. apply input_physicsStep.
  - unfold render. destruct (Js.gtb (hitFlash g) 0); reflexivity.
Qed.

Lemma held_keys_witness :
  has "KeyW" (input (keydown "KeyR" (keydown "KeyW" (initialGame 1)))) = true.
Proof.
  destruct (held_keys "KeyW" "KeyR" (keydown "KeyW" (initialGame 1)))
    as (_ & _ & Hother & _).
  destruct Hother as [Hd _]; [discriminate|].
  rewrite Hd.
  exact (proj1 (held_keys "KeyW" "KeyR" (initialGame 1))).
Defined.

Lemma has_singleton_union (code : string) (keys : gset string) :
  has code ({[code]} ∪ keys) = true.
Proof. apply has_iff. set_solver. Qed.

(** X4.  The move axes take the values -1, 0 and 1 only, and opposed keys held
    together cancel. *)
Theorem move_axes (keys : gset string) :
  (moveX keys = -1 \/ moveX keys = 0 \/ moveX keys = 1)
  /\ (moveZ keys = -1 \/ moveZ keys = 0 \/ moveZ keys = 1)
  /\ (has "KeyD" keys = has "KeyA" keys -> moveX keys = 0)
  /\ (has "KeyW" keys = has "KeyS" keys -> moveZ keys = 0).
Proof.
  unfold moveX, moveZ.
  destruct (has "KeyD" keys), (has "KeyA" keys), (has "KeyW" keys),
    (has "KeyS" keys);
    repeat split; intros; try discriminate;
    first [lra | left; lra | right; left; lra | right; right; lra].
Qed.

Lemma move_axes_witness : moveX {["KeyD"; "KeyA"]} = 0.
Proof.
  apply (proj1 (proj2 (proj2 (move_axes {["KeyD"; "KeyA"]})))).
  unfold has. rewrite !bool_decide_eq_true_2 by set_solver. reflexivity.
Defined.

(** ** The knock-back *)

Lemma hits_boomerang_only (dt : R) (p : Vector3.t) (c g : Game) :
  boomerangOf c = boomerangOf g -> hits dt p c = hits dt p g.
Proof. intros H. unfold hits, boomerangPosOf. rewrite H. reflexivity. Qed.

Lemma boomerangPosOf_boomerang_only (dt : R) (p : Vector3.t) (c g : Game) :
  boomerangOf c = boomerangOf g -> boomerangPosOf dt p c = boomerangPosOf dt p g.
Proof. intros H. unfold boomerangPosOf. rewrite H. reflexivity. Qed.

Lemma boomerangOf_before_update (w : World) (dt : R) (g : Game) :
  boomerangOf
    (if escapes w dt g then resetPlayer (afterStep w dt g)
     else afterStep w dt g)
  = boomerangOf g.
Proof.
  destruct (escapes w dt g); [rewrite resetPlayer_eq|]; rewrite afterStep_eq;
    reflexivity.
Qed.

Lemma playerRb_before_update (w : World) (dt : R) (g : Game) :
  playerRb
    (if escapes w dt g then resetPlayer (afterStep w dt g)
     else afterStep w dt g)
  = bodyBeforeUpdate w dt g.
Proof.
  unfold bodyBeforeUpdate.
  destruct (escapes w dt g); [rewrite resetPlayer_eq|]; rewrite afterStep_eq;
    reflexivity.
Qed.

Lemma hitFlash_before_update (w : World) (dt : R) (g : Game) :
  hitFlash
    (if escapes w dt g then resetPlayer (afterStep w dt g)
     else afterStep w dt g)
  = hitFlash g.
Proof.
  destruct (escapes w dt g); [rewrite resetPlayer_eq|]; rewrite afterStep_eq;
    reflexivity.
Qed.

Lemma tickTail_hitFlash (dt : R) (pn : Vector3.t) (c : Game) :
  hitFlash (tickTail dt pn c) = if hits dt pn c then 0.12 else hitFlash c.
Proof.
  unfold tickTail. rewrite updateEnemyAndBoomerang_eq. cbv zeta.
  generalize (boomerangStep dt (boomerangOf c)). intros b.
  generalize (hits dt pn c). intros h.
  generalize (push pn (boomerangPosOf dt pn c) (Vector3.normalize pn)).
  intros k.
  generalize (boomerangPosOf dt pn c). intros bp.
  unfold goalCheck. cbn [isClear].
  destruct (negb (isClear c) && _)%bool; destruct h; reflexivity.
Qed.

Lemma physicsStep_body (w : World) (dt : R) (g : Game) :
  playerRb (physicsStep w dt g)
  = if tickHits w dt g
    then setLinvel
           (Vector3.add (linvel (bodyBeforeUpdate w dt g))
              (push (playerNowOf w dt g)
                 (boomerangPosOf dt (playerNowOf w dt g) g)
                 (Vector3.normalize (playerNowOf w dt g))))
           (bodyBeforeUpdate w dt g)
    else bodyBeforeUpdate w dt g.
Proof.
  rewrite physicsStep_eq, tickTail_playerRb.
  rewrite (hits_boomerang_only dt _ _ g (boomerangOf_before_update w dt g)).
  rewrite (boomerangPosOf_boomerang_only dt _ _ g
             (boomerangOf_before_update w dt g)).
  rewrite playerRb_before_update. reflexivity.
Qed.

Lemma physicsStep_hitFlash (w : World) (dt : R) (g : Game) :
  hitFlash (physicsStep w dt g) = if tickHits w dt g then 0.12 else hitFlash g.
Proof.
  rewrite physicsStep_eq, tickTail_hitFlash.
  rewrite (hits_boomerang_only dt _ _ g (boomerangOf_before_update w dt g)).
  rewrite hitFlash_before_update. reflexivity.
Qed.

Lemma dot_push (p bp up : Vector3.t) :
  Vector3.lengthSq up = 1 -> Vector3.dot (push p bp up) up = 0.
Proof.
  intros Hu. unfold push.
  rewrite dot_multiplyScalar_l, dot_normalize_l, dot_projectOnPlane by exact Hu.
  ring.
Qed.

Lemma length_push (p bp up : Vector3.t) :
  Vector3.length (push p bp up) = 8.5 \/ push p bp up = Vector3.zero.
Proof.
  unfold push. set (d := projectOnPlane (Vector3.sub p bp) up).
  pose proof (lengthSq_nonneg d) as Hn.
  destruct (Req_dec_T (Vector3.lengthSq d) 0) as [E|E].
  - right. apply lengthSq_zero in E. rewrite E, normalize_zero.
    apply vec_eq; vec_unfold; ring.
  - left. rewrite length_multiplyScalar, length_normalize by lra.
    rewrite Rabs_pos_eq; lra.
Qed.

(** X5.  A tick whose projectile update hits sets the flash timer to 0.12 and
    adds the knock-back to the velocity the body has at that point; the
    knock-back is tangential at the sampled position and has length 8.5
    (or is zero when it has no direction); the body's position is left
    alone, and the projectile goes on as if nothing happened. *)
Theorem hit_knocks_back (w : World) (dt : R) (g : Game) :
  tickHits w dt g = true ->
  playerNowOf w dt g <> Vector3.zero ->
  let g' := physicsStep w dt g in
  let pn := playerNowOf w dt g in
  let k := push pn (boomerangPosOf dt pn g) (Vector3.normalize pn) in
  hitFlash g' = 0.12
  /\ linvel (playerRb g') = Vector3.add (linvel (bodyBeforeUpdate w dt g)) k
  /\ translation (playerRb g') = translation (bodyBeforeUpdate w dt g)
  /\ Vector3.dot k (Vector3.normalize pn) = 0
  /\ (Vector3.length k = 8.5 \/ k = Vector3.zero)
  /\ boomerangOf g' = boomerangStep dt (boomerangOf g)
  /\ boomerangActive g' = true.
Proof.
  intros Hh Hp. cbv zeta.
  rewrite physicsStep_hitFlash, physicsStep_body, Hh.
  split; [reflexivity|]. split; [reflexivity|]. split; [reflexivity|].
  split.
  { apply dot_push. apply lengthSq_normalize.
    pose proof (lengthSq_nonneg (playerNowOf w dt g)) as H.
    destruct (Req_dec_T (Vector3.lengthSq (playerNowOf w dt g)) 0) as [E|E];
      [apply lengthSq_zero in E; contradiction|lra]. }
  split; [apply length_push|].
  split; [apply physicsStep_boomerang|].
  rewrite <- boomerangOf_active, physicsStep_boomerang.
  unfold tickHits, hits in Hh. apply andb_true_iff in Hh. exact (proj1 Hh).
Qed.

(** X6.  A tick whose projectile update does not hit leaves the flash timer and
    the body as they were before the update: the body is what
    [world.step()] made of the committed one (or the reset body). *)
Theorem no_hit_no_knock_back (w : World) (dt : R) (g : Game) :
  tickHits w dt g = false ->
  hitFlash (physicsStep w dt g) = hitFlash g
  /\ playerRb (physicsStep w dt g) = bodyBeforeUpdate w dt g.
Proof.
  intros Hh. rewrite physicsStep_hitFlash, physicsStep_body, Hh.
  split; reflexivity.
Qed.

(** X7.  A player farther than [BOOMERANG_MAX_DIST + BOOMERANG_HIT_RADIUS] from
    the enemy is out of the projectile's reach, whatever the projectile's
    state. *)
Theorem out_of_reach (dt : R) (p : Vector3.t) (g : Game) :
  Vector3.distanceTo p enemyAnchor
  >= BOOMERANG_MAX_DIST + BOOMERANG_HIT_RADIUS ->
  hits dt p g = false.
Proof.
  intros Hfar. unfold hits.
  destruct (active (boomerangStep dt (boomerangOf g))) eqn:Ea; [|reflexivity].
  cbn [andb]. apply ltb_false.
  pose proof (boomerangStep_distance dt _ Ea) as Hd.
  unfold boomerangPosOf.
  set (d := distance (boomerangStep dt (boomerangOf g))) in *.
  set (bp := Vector3.add enemyAnchor (Vector3.multiplyScalar (throwDir p) d)).
  rewrite distanceTo_length in Hfar |- *.
  (* |p - anchor| <= |p - bp| + |bp - anchor| and |bp - anchor| = d *)
  pose proof (length_add_le (Vector3.sub p bp) (Vector3.sub bp enemyAnchor)) as Ht.
  replace (Vector3.add (Vector3.sub p bp) (Vector3.sub bp enemyAnchor))
    with (Vector3.sub p enemyAnchor) in Ht
    by (apply vec_eq; vec_unfold; ring).
  replace (Vector3.sub bp enemyAnchor)
    with (Vector3.multiplyScalar (throwDir p) d) in Ht
    by (unfold bp; apply vec_eq; vec_unfold; ring).
  rewrite length_scaled_unit in Ht by (apply length_throwDir || lra).
  rewrite (length_sub_sym bp p).
  unfold BOOMERANG_MAX_DIST, BOOMERANG_HIT_RADIUS in *. lra.
Qed.

Lemma playerNowOf_worldAtEnemy (dt : R) (g : Game) :
  playerNowOf worldAtEnemy dt g = enemyAnchor.
Proof. reflexivity. Qed.

Lemma enemyAnchor_nonzero : enemyAnchor <> Vector3.zero.
Proof.
  intros H. pose proof length_enemyAnchor as HL.
  rewrite H, length_of_zero in HL. lra.
Qed.

Lemma launch_gameLaunchDue :
  boomerangStep fixedDt (boomerangOf gameLaunchDue)
  = mkBoomerang true true (0 + BOOMERANG_SPEED * fixedDt) BOOMERANG_COOLDOWN true.
Proof.
  apply boomerangStep_launch.
  - rewrite boomerang_gameLaunchDue. unfold launches.
    cbn [active cooldown negb andb]. apply leb_true. unfold fixedDt. lra.
  - unfold fixedDt. lra.
  - unfold BOOMERANG_SPEED, BOOMERANG_MAX_DIST, fixedDt. lra.
Qed.

Lemma tickHits_at_enemy : tickHits worldAtEnemy fixedDt gameLaunchDue = true.
Proof.
  unfold tickHits. rewrite playerNowOf_worldAtEnemy.
  unfold hits, boomerangPosOf. rewrite launch_gameLaunchDue.
  cbn [active distance andb]. apply ltb_true.
  rewrite distanceTo_length.
  replace (Vector3.sub
             (Vector3.add enemyAnchor
                (Vector3.multiplyScalar (throwDir enemyAnchor)
                   (0 + BOOMERANG_SPEED * fixedDt)))
             enemyAnchor)
    with (Vector3.multiplyScalar (throwDir enemyAnchor)
            (0 + BOOMERANG_SPEED * fixedDt))
    by (apply vec_eq; vec_unfold; ring).
  rewrite length_scaled_unit.
  - unfold BOOMERANG_SPEED, BOOMERANG_HIT_RADIUS, fixedDt. lra.
  - apply length_throwDir.
  - unfold BOOMERANG_SPEED, fixedDt. lra.
Qed.

Lemma hit_knocks_back_witness :
  tickHits worldAtEnemy fixedDt gameLaunchDue = true
  /\ playerNowOf worldAtEnemy fixedDt gameLaunchDue <> Vector3.zero
  /\ hitFlash (physicsStep worldAtEnemy fixedDt gameLaunchDue) = 0.12
  /\ boomerangActive (physicsStep worldAtEnemy fixedDt gameLaunchDue) = true.
Proof.
  assert (Hp : playerNowOf worldAtEnemy fixedDt gameLaunchDue <> Vector3.zero)
    by (rewrite playerNowOf_worldAtEnemy; exact enemyAnchor_nonzero).
  split; [exact tickHits_at_enemy|]. split; [exact Hp|].
  destruct (hit_knocks_back worldAtEnemy fixedDt gameLaunchDue
              tickHits_at_enemy Hp) as (Hf & _ & _ & _ & _ & _ & Ha).
  split; [exact Hf|exact Ha].
Defined.

Lemma tickHits_initial (w : World) : tickHits w fixedDt (initialGame 1) = false.
Proof. unfold tickHits. apply hits_idle. exact initial_projectile_waits. Qed.

Lemma no_hit_no_knock_back_witness :
  tickHits worldAirborne fixedDt (initialGame 1) = false
  /\ hitFlash (physicsStep worldAirborne fixedDt (initialGame 1))
     = hitFlash (initialGame 1).
Proof.
  split; [apply tickHits_initial|].
  exact (proj1 (no_hit_no_knock_back worldAirborne fixedDt (initialGame 1)
                  (tickHits_initial worldAirborne))).
Defined.

(** The spawn point is far from the enemy. *)
Lemma spawn_far_from_enemy : Vector3.distanceTo spawnPoint enemyAnchor >= 45.
Proof.
  set (v := Vector3.mk 0.45 0.75 (-0.48)).
  assert (Hsq : Vector3.lengthSq v = 0.9954) by (unfold v; vec_unfold; lra).
  assert (HL : 0 < Vector3.length v < 1).
  { split; [apply length_pos; lra|].
    pose proof (length_sqr v) as H. pose proof (length_nonneg v).
    rewrite Hsq in H. nra. }
  assert (Hd : Vector3.normalize_divisor v = Vector3.length v)
    by (apply normalize_divisor_length; lra).
  set (L := Vector3.length v) in *.
  assert (Hx : Vector3.x enemyAnchor = 0.45 * (1 / L) * (PLANET_RADIUS + 1.6)).
  { unfold enemyAnchor, enemyUp. fold v.
    unfold Vector3.normalize, Vector3.divideScalar. rewrite Hd. reflexivity. }
  assert (Hx' : 45 <= Vector3.x enemyAnchor).
  { rewrite Hx. unfold PLANET_RADIUS.
    assert (1 < 1 / L).
    { unfold Rdiv. rewrite Rmult_1_l. rewrite <- Rinv_1 at 1.
      apply Rinv_lt_contravar; lra. }
    nra. }
  rewrite distanceTo_length.
  pose proof (length_sqr (Vector3.sub spawnPoint enemyAnchor)) as Hs.
  pose proof (length_nonneg (Vector3.sub spawnPoint enemyAnchor)) as Hn.
  assert (Hge : (0 - Vector3.x enemyAnchor) * (0 - Vector3.x enemyAnchor)
                <= Vector3.lengthSq (Vector3.sub spawnPoint enemyAnchor)).
  { unfold Vector3.lengthSq, Vector3.sub, spawnPoint.
    cbn [Vector3.x Vector3.y Vector3.z].
    generalize (Vector3.x enemyAnchor) (Vector3.y enemyAnchor)
      (Vector3.z enemyAnchor).
    intros a b c.
    pose proof (Rle_0_sqr (PLANET_RADIUS + 3.2 - b)) as Hb.
    pose proof (Rle_0_sqr (0 - c)) as Hc.
    unfold Rsqr in Hb, Hc. lra. }
  assert (Hlow : 45 * 45
                 <= (0 - Vector3.x enemyAnchor) * (0 - Vector3.x enemyAnchor))
    by nra.
  set (d := Vector3.length (Vector3.sub spawnPoint enemyAnchor)) in *.
  destruct (Rge_dec d 45) as [|Hlt]; [assumption|].
  assert (d * d < 45 * 45) by nra. lra.
Qed.

Lemma out_of_reach_witness :
  Vector3.distanceTo spawnPoint enemyAnchor
  >= BOOMERANG_MAX_DIST + BOOMERANG_HIT_RADIUS
  /\ hits fixedDt spawnPoint gameLaunchDue = false.
Proof.
  assert (H : Vector3.distanceTo spawnPoint enemyAnchor
              >= BOOMERANG_MAX_DIST + BOOMERANG_HIT_RADIUS).
  { pose proof spawn_far_from_enemy.
    unfold BOOMERANG_MAX_DIST, BOOMERANG_HIT_RADIUS. lra. }
  split; [exact H|]. exact (out_of_reach fixedDt spawnPoint gameLaunchDue H).
Defined.

(** ** The flash *)

Lemma hitFlash_render (g : Game) :
  hitFlash (render g)
  = if Js.gtb (hitFlash g) 0 then hitFlash g - fixedDt else hitFlash g.
Proof. unfold render. destruct (Js.gtb (hitFlash g) 0); reflexivity. Qed.

Lemma INR_8 : INR 8 = 8.
Proof. rewrite INR_IZR_INZ. reflexivity. Qed.

Lemma hitFlash_renders (g : Game) (n : nat) :
  hitFlash g = 0.12 ->
  hitFlash (renders n g) = 0.12 - INR (Nat.min n 8) * fixedDt.
Proof.
  intros H0. induction n as [|n IH].
  - unfold renders. cbn [Nat.iter nat_rect Nat.min INR]. rewrite H0. ring.
  - unfold renders in *. rewrite Nat.iter_succ, hitFlash_render, IH.
    destruct (Nat.lt_ge_cases n 8) as [Hlt|Hge].
    + rewrite (Nat.min_l n 8), (Nat.min_l (S n) 8) by lia.
      assert (HR : INR n <= 7).
      { replace 7 with (INR 7) by (rewrite INR_IZR_INZ; reflexivity).
        apply le_INR. lia. }
      rewrite (proj2 (gtb_true _ _)) by (unfold fixedDt; lra).
      rewrite S_INR. ring.
    + rewrite (Nat.min_r n 8), (Nat.min_r (S n) 8) by lia.
      rewrite INR_8.
      rewrite (proj2 (gtb_false _ _)) by (unfold fixedDt; lra).
      reflexivity.
Qed.

Lemma render_eq (g : Game) : render g = set_hitFlash (hitFlash (render g)) g.
Proof.
  unfold render. destruct (Js.gtb (hitFlash g) 0); destruct g; reflexivity.
Qed.

Lemma set_hitFlash_twice (a b : R) (g : Game) :
  set_hitFlash a (set_hitFlash b g) = set_hitFlash a g.
Proof. reflexivity. Qed.

(** X8.  After a hit set the flash timer to 0.12, the next eight calls of
    [render] colour the player with the flash colour and every later call
    with black (until another hit); [render] changes nothing but the flash
    timer. *)
Theorem flash_lasts_eight_frames (g : Game) (n : nat) :
  hitFlash g = 0.12 ->
  emissive (renders n g) = (if (n <? 8)%nat then "#8a2626" else "#000000")
  /\ renders n g = set_hitFlash (hitFlash (renders n g)) g.
Proof.
  intros H0. split.
  - unfold emissive. rewrite (hitFlash_renders g n H0).
    destruct (Nat.ltb_spec n 8) as [Hlt|Hge].
    + rewrite Nat.min_l by lia.
      assert (HR : INR n <= 7).
      { replace 7 with (INR 7) by (rewrite INR_IZR_INZ; reflexivity).
        apply le_INR. lia. }
      rewrite (proj2 (gtb_true _ _)) by (unfold fixedDt; lra). reflexivity.
    + rewrite Nat.min_r, INR_8 by lia.
      rewrite (proj2 (gtb_false _ _)) by (unfold fixedDt; lra). reflexivity.
  - clear H0. induction n as [|n IH].
    + destruct g; reflexivity.
    + unfold renders in *. rewrite Nat.iter_succ.
      set (r := Nat.iter n render g) in *.
      rewrite (render_eq r). rewrite IH at 2. apply set_hitFlash_twice.
Qed.

Lemma flash_lasts_eight_frames_witness :
  let g := physicsStep worldAtEnemy fixedDt gameLaunchDue in
  hitFlash g = 0.12
  /\ emissive (renders 7 g) = "#8a2626"
  /\ emissive (renders 8 g) = "#000000".
Proof.
  intros g.
  assert (H0 : hitFlash g = 0.12).
  { unfold g. rewrite physicsStep_hitFlash, tickHits_at_enemy. reflexivity. }
  split; [exact H0|]. split.
  - exact (proj1 (flash_lasts_eight_frames g 7 H0)).
  - exact (proj1 (flash_lasts_eight_frames g 8 H0)).
Defined.

(** ** The accumulator loop *)

Lemma whileTicks_spec (ws : list World) (a : R) (g : Game) :
  0 <= a -> a < (INR (length ws) + 1) * fixedDt ->
  let r := whileTicks ws a g in
  let n := fst (fst r) in
  (n <= length ws)%nat
  /\ 0 <= snd (fst r) < fixedDt
  /\ snd (fst r) = a - INR n * fixedDt
  /\ snd r = ticks (firstn n ws) g.
Proof.
  revert a g. induction ws as [|w ws IH]; intros a g Ha Hb; cbv zeta.
  - cbn [whileTicks fst snd length INR firstn] in *.
    repeat split; try lia; try lra.
  - cbn [whileTicks]. cbn [length] in Hb. rewrite S_INR in Hb.
    case_cmp (Js.geb a fixedDt).
    + specialize (IH (a - fixedDt) (physicsStep w fixedDt g)).
      cbv zeta in IH.
      destruct (whileTicks ws (a - fixedDt) (physicsStep w fixedDt g))
        as [[n a'] g'].
      cbn [fst snd] in *.
      destruct IH as (Hn & Hr & Ha' & Hg'); [lra|lra|].
      split; [cbn [length]; lia|]. split; [exact Hr|].
      split; [rewrite Ha', S_INR; ring|].
      rewrite Hg'. cbn [firstn]. rewrite !ticks_eq. reflexivity.
    + cbn [fst snd length INR firstn].
      repeat split; try lia; try lra.
Qed.

(** X9.  One frame of [loop] runs one physics tick for each whole [fixedDt]
    in the accumulated time (the accumulator plus the frame time, which is
    capped at 0.05), then renders once, and keeps the remainder.  The
    accumulated time is taken at least 1e-9 away from the multiples of
    [fixedDt]: that close to a multiple the rounding of the program's
    doubles, not this exact comparison, decides whether one more tick
    runs.  A frame entered with the accumulator below [fixedDt] then runs
    at most three ticks. *)
Theorem loop_runs_whole_ticks
    (now : R) (ws : list World) (l : Loop) (k : nat) :
  let total := acc l + Rmin 0.05 (now - prev l) in
  INR k * fixedDt + 0.000000001 <= total ->
  total <= (INR k + 1) * fixedDt - 0.000000001 ->
  (k <= length ws)%nat ->
  loop now ws l
  = (k, mkLoop now (total - INR k * fixedDt)
          (render (ticks (firstn k ws) (game l))))
  /\ (acc l < fixedDt -> (k <= 3)%nat).
Proof.
  intros total Hlo Hhi Hlen.
  assert (Hdt : 0 < fixedDt) by (unfold fixedDt; lra).
  pose proof (pos_INR k) as Hk0.
  assert (HkL : INR k <= INR (length ws)) by now apply le_INR.
  assert (H0 : 0 <= total) by nra.
  assert (Hb : total < (INR (length ws) + 1) * fixedDt) by nra.
  pose proof (whileTicks_spec ws total (game l) H0 Hb) as Hs.
  cbv zeta in Hs. unfold loop. cbv zeta. fold total.
  destruct (whileTicks ws total (game l)) as [[n a] g'].
  cbn [fst snd] in Hs. destruct Hs as (_ & Hr & Ha & Hg).
  assert (Hn : n = k).
  { rewrite Ha in Hr.
    destruct (Nat.lt_trichotomy n k) as [Hlt|[Heq|Hgt]]; [|exact Heq|].
    - exfalso. assert (INR n + 1 <= INR k).
      { rewrite <- S_INR. apply le_INR. lia. }
      nra.
    - exfalso. assert (INR k + 1 <= INR n).
      { rewrite <- S_INR. apply le_INR. lia. }
      nra. }
  subst n. split.
  - rewrite Ha, Hg. reflexivity.
  - intros Hacc.
    assert (Hcap : Rmin 0.05 (now - prev l) <= 0.05) by apply Rmin_l.
    destruct (Nat.le_gt_cases k 3) as [Hle|Hgt]; [exact Hle|].
    exfalso. assert (4 <= INR k).
    { replace 4 with (INR 4) by (rewrite INR_IZR_INZ; reflexivity).
      apply le_INR. lia. }
    unfold total, fixedDt in *. nra.
Qed.

Lemma loop_runs_whole_ticks_witness :
  let l := mkLoop 0 0 (initialGame 1) in
  let ws := [worldAirborne; worldAirborne] in
  fst (loop 0.04 ws l) = 2%nat /\ acc (snd (loop 0.04 ws l)) = 0.04 - 2 / 60.
Proof.
  intros l ws.
  assert (Hmin : Rmin 0.05 (0.04 - prev l) = 0.04).
  { unfold l. cbn [prev]. unfold Rmin. destruct (Rle_dec _ _); lra. }
  destruct (loop_runs_whole_ticks 0.04 ws l 2) as (H & _).
  - cbv zeta. rewrite Hmin. unfold l. cbn [acc INR]. unfold fixedDt. lra.
  - cbv zeta. rewrite Hmin. unfold l. cbn [acc INR]. unfold fixedDt. lra.
  - unfold ws. cbn [length]. lia.
  - rewrite H. cbn [fst snd acc]. rewrite Hmin. unfold l. cbn [acc INR].
    unfold fixedDt. split; [reflexivity|lra].
Defined.

(** ** Coasting, braking and the wish direction *)

(** X10.  While the cleared flag is set the tick commits the velocity read at
    its start plus gravity and nothing else: the tangential part is
    untouched, no jump runs, and neither the held keys nor the camera yaw
    have any effect on it. *)
Theorem cleared_player_coasts (w : World) (dt : R) (g : Game) :
  isClear g = true -> translation (playerRb g) <> Vector3.zero ->
  let v' := linvel (playerRb (physicsStep_commit w dt g)) in
  v' = Vector3.addScaledVector (linvel (playerRb g))
         (Vector3.multiplyScalar (upOf g) (-1)) (GRAVITY * dt)
  /\ projectOnPlane v' (upOf g) = projectOnPlane (linvel (playerRb g)) (upOf g)
  /\ jumpFires w dt g = false
  /\ forall (keys : gset string) (yw : R),
       linvel (playerRb (physicsStep_commit w dt (set_yaw yw (set_input keys g))))
       = v'.
Proof.
  intros Hc Hp. cbv zeta.
  rewrite (committedVelocity_cleared w dt g Hc).
  split; [reflexivity|].
  split; [apply (tangential_velocityAfterGravity dt g Hp)|].
  split; [apply jumpFires_cleared; exact Hc|].
  intros keys yw.
  rewrite (committedVelocity_cleared w dt (set_yaw yw (set_input keys g)) Hc).
  reflexivity.
Qed.

Lemma cleared_player_coasts_witness :
  isClear clearedRun1 = true
  /\ translation (playerRb clearedRun1) <> Vector3.zero
  /\ jumpFires worldGrounded fixedDt clearedRun1 = false.
Proof.
  destruct clearedRun1_state as (Hc & _ & Hp).
  assert (Hnz : translation (playerRb clearedRun1) <> Vector3.zero).
  { rewrite Hp. intros H. pose proof length_goalPos as HL.
    rewrite H, length_of_zero in HL. lra. }
  split; [exact Hc|]. split; [exact Hnz|].
  destruct (cleared_player_coasts worldGrounded fixedDt clearedRun1 Hc Hnz)
    as (_ & _ & Hj & _).
  exact Hj.
Defined.

Lemma tangentialNew_no_wish
    (cap m drag dt : R) (up velocity : Vector3.t) :
  tangentialNew Vector3.zero cap m drag dt up velocity
  = tangentialNew Vector3.zero 0 m drag dt up velocity.
Proof.
  unfold tangentialNew.
  replace (Vector3.multiplyScalar Vector3.zero cap)
    with (Vector3.multiplyScalar Vector3.zero 0)
    by (apply vec_eq; vec_unfold; ring).
  reflexivity.
Qed.

(** X11.  With no movement key held (or opposed keys cancelling) steering only
    brakes: the committed tangential speed is at most the tangential speed
    at tick start, and a speed of at most [maxDelta] is brought to zero in
    that tick; in particular a player at rest on the tangent plane stays
    at rest. *)
Theorem released_keys_brake (w : World) (dt : R) (g : Game) :
  isClear g = false -> translation (playerRb g) <> Vector3.zero -> 0 <= dt ->
  moveX (input g) = 0 -> moveZ (input g) = 0 ->
  let p := translation (playerRb g) in
  let before := tangentialSpeed p (linvel (playerRb g)) in
  let after :=
    tangentialSpeed p (linvel (playerRb (physicsStep_commit w dt g))) in
  after <= before
  /\ (before <= maxDelta (input g) (groundedNow w g) dt -> after = 0).
Proof.
  intros Hc Hp Hdt Hx Hz. cbv zeta. unfold tangentialSpeed. fold (upOf g).
  rewrite tangentialSpeed_commit, Hc by exact Hp.
  rewrite (wishDir_no_keys _ _ _ Hx Hz).
  rewrite <- (tangential_velocityAfterGravity dt g Hp).
  split.
  - rewrite tangentialNew_no_wish.
    eapply Rle_trans.
    + apply length_tangentialNew_le.
      * rewrite length_of_zero. lra.
      * lra.
      * now apply maxDelta_nonneg.
      * now apply drag_nonneg.
    + apply Rmax_lub; [lra|apply length_nonneg].
  - intros Hm. rewrite tangentialNew_stops by exact Hm. apply length_of_zero.
Qed.

Lemma released_keys_brake_witness :
  let g := initialGame 1 in
  isClear g = false /\ translation (playerRb g) <> Vector3.zero
  /\ 0 <= fixedDt /\ moveX (input g) = 0 /\ moveZ (input g) = 0
  /\ tangentialSpeed (translation (playerRb g))
       (linvel (playerRb (physicsStep_commit worldGrounded fixedDt g))) = 0.
Proof.
  intros g.
  assert (Hdt : 0 <= fixedDt) by (unfold fixedDt; lra).
  assert (Hp : translation (playerRb g) <> Vector3.zero)
    by exact spawnPoint_nonzero.
  split; [reflexivity|]. split; [exact Hp|]. split; [exact Hdt|].
  split; [exact moveX_empty|]. split; [exact moveZ_empty|].
  destruct (released_keys_brake worldGrounded fixedDt g eq_refl Hp Hdt
              moveX_empty moveZ_empty) as (_ & Hstop).
  apply Hstop.
  replace (linvel (playerRb g)) with Vector3.zero by reflexivity.
  unfold tangentialSpeed. rewrite projectOnPlane_zero, length_of_zero.
  apply maxDelta_nonneg. exact Hdt.
Defined.

(** X12.  The wish direction is either a unit vector or the zero vector, so
    holding two movement keys does not steer toward a faster target than
    holding one; and it is tangent to the sphere at the player. *)
Theorem wish_direction_unit_or_zero
    (keys : gset string) (yaw : R) (p : Vector3.t) :
  p <> Vector3.zero ->
  let up := Vector3.normalize p in
  (Vector3.length (wishDir keys yaw up) = 1
   \/ wishDir keys yaw up = Vector3.zero)
  /\ Vector3.dot (wishDir keys yaw up) up = 0
  /\ Vector3.length
       (Vector3.multiplyScalar (wishDir keys yaw up) (speedCap keys))
     <= speedCap keys.
Proof.
  intros Hp up.
  assert (Hu : Vector3.lengthSq up = 1).
  { apply lengthSq_normalize. pose proof (lengthSq_nonneg p) as H.
    destruct (Req_dec_T (Vector3.lengthSq p) 0) as [E|E];
      [apply lengthSq_zero in E; contradiction|lra]. }
  split; [|split].
  - unfold wishDir. set (v := Vector3.add _ _).
    case_cmp (Js.gtb (Vector3.lengthSq v) 0).
    + left. apply length_normalize. lra.
    + right. apply lengthSq_zero. pose proof (lengthSq_nonneg v). lra.
  - now apply wishDir_tangent.
  - rewrite length_multiplyScalar, Rabs_pos_eq by apply speedCap_nonneg.
    pose proof (length_wishDir_le keys yaw up).
    pose proof (speedCap_nonneg keys).
    pose proof (length_nonneg (wishDir keys yaw up)). nra.
Qed.

Lemma wish_direction_unit_or_zero_witness :
  spawnPoint <> Vector3.zero
  /\ Vector3.dot (wishDir {["KeyW"; "KeyD"]} 0 (Vector3.normalize spawnPoint))
       (Vector3.normalize spawnPoint) = 0.
Proof.
  split; [exact spawnPoint_nonzero|].
  exact (proj1 (proj2 (wish_direction_unit_or_zero {["KeyW"; "KeyD"]} 0
                         spawnPoint spawnPoint_nonzero))).
Defined.

(** ** Reset *)

(** X13.  [resetPlayer] is idempotent and leaves the held keys, the camera, the
    grounded flags, the flash timer and the projectile alone: whatever
    happens afterwards, the projectile is where it would have been without
    the reset.  The KeyR key-down is the reset of the state with the key
    added to the held keys. *)
Theorem reset_is_idempotent_and_local (g : Game) :
  resetPlayer (resetPlayer g) = resetPlayer g
  /\ input (resetPlayer g) = input g
  /\ yaw (resetPlayer g) = yaw g /\ pitch (resetPlayer g) = pitch g
  /\ grounded (resetPlayer g) = grounded g
  /\ wasGrounded (resetPlayer g) = wasGrounded g
  /\ hitFlash (resetPlayer g) = hitFlash g
  /\ boomerangOf (resetPlayer g) = boomerangOf g
  /\ invMass (playerRb (resetPlayer g)) = invMass (playerRb g)
  /\ (forall es : list Event,
        boomerangOf (run es (resetPlayer g)) = boomerangOf (run es g))
  /\ keydown "KeyR" g = resetPlayer (set_input ({["KeyR"]} ∪ input g) g).
Proof.
  assert (Hb : boomerangOf (resetPlayer g) = boomerangOf g)
    by (rewrite resetPlayer_eq; reflexivity).
  assert (Hrun : forall es : list Event,
            boomerangOf (run es (resetPlayer g)) = boomerangOf (run es g)).
  { intros es. rewrite !run_boomerang, Hb. reflexivity. }
  split; [rewrite !resetPlayer_eq; reflexivity|].
  split; [rewrite resetPlayer_eq; reflexivity|].
  split; [rewrite resetPlayer_eq; reflexivity|].
  split; [rewrite resetPlayer_eq; reflexivity|].
  split; [rewrite resetPlayer_eq; reflexivity|].
  split; [rewrite resetPlayer_eq; reflexivity|].
  split; [rewrite resetPlayer_eq; reflexivity|].
  split; [exact Hb|].
  split; [rewrite resetPlayer_eq; reflexivity|].
  split; [exact Hrun|].
  rewrite resetPlayer_eq. reflexivity.
Qed.

(** ** The tick after a jump *)

(** X14.  The tick after a jump decides the combo: the jump leaves the timer at
    +Infinity and [wasGrounded] false, so if the next tick's ray hits, the
    landing branch restarts the timer at [dt'] and the advanced index is
    the stage of the next jump; if it misses, the timer is still +Infinity
    and the stage is back to 0. *)
Theorem combo_decided_by_tick_after_jump
    (w w' : World) (dt dt' : R) (g : Game) :
  jumpFires w dt g = true -> escapes w dt g = false ->
  dt' <= JUMP_COMBO_WINDOW ->
  let g' := physicsStep w dt g in
  comboTimerNow w' dt' g'
  = (if groundedNow w' g' then Js.Real (0 + dt') else Js.PosInfinity)
  /\ jumpStage w' dt' g'
     = (if groundedNow w' g' then nextComboIndex (jumpStage w dt g)
        else 0%nat).
Proof.
  intros Hj He Hdt. cbv zeta.
  destruct (physicsStep_control w dt g) as (Hidx & _ & Hct & _ & Hwg & _).
  rewrite He, Hj in Hidx, Hct. rewrite Hj in Hwg.
  unfold jumpStage at 1. unfold comboTimerNow. rewrite Hct, Hwg, Hidx.
  destruct (groundedNow w' (physicsStep w dt g));
    cbn [andb negb Js.num_add Js.num_gtb].
  - rewrite (proj2 (gtb_false _ _)) by lra. split; reflexivity.
  - split; reflexivity.
Qed.

Lemma combo_decided_by_tick_after_jump_witness :
  jumpFires worldGrounded fixedDt comboRun0 = true
  /\ jumpStage worldGrounded fixedDt comboRun1 = 1%nat
  /\ jumpStage worldAirborne fixedDt comboRun1 = 0%nat.
Proof.
  destruct comboRun0_jump as (Hj & _ & Hs).
  destruct comboRun0_state as (Hc & _ & _ & _ & _ & Hp).
  destruct comboRun1_state as (_ & _ & _ & _ & _ & Hp1).
  assert (He : escapes worldGrounded fixedDt comboRun0 = false).
  { unfold escapes. fold (playerNowOf worldGrounded fixedDt comboRun0).
    unfold worldGrounded. rewrite playerNowOf_still, Hp.
    apply gtb_false. rewrite length_spawnPoint.
    unfold PLANET_RADIUS. lra. }
  assert (Hw : fixedDt <= JUMP_COMBO_WINDOW)
    by (unfold fixedDt, JUMP_COMBO_WINDOW; lra).
  split; [exact Hj|]. split.
  - destruct (combo_decided_by_tick_after_jump worldGrounded worldGrounded
                fixedDt fixedDt comboRun0 Hj He Hw) as (_ & H).
    fold comboRun1 in H. rewrite H, Hs.
    unfold worldGrounded at 1. rewrite groundedNow_const. reflexivity.
  - destruct (combo_decided_by_tick_after_jump worldGrounded worldAirborne
                fixedDt fixedDt comboRun0 Hj He Hw) as (_ & H).
    fold comboRun1 in H. rewrite H.
    unfold worldAirborne at 1. rewrite groundedNow_const. reflexivity.
Defined.

(** ** The period of the projectile *)

Lemma cooldown_in_flight (b : Boomerang) :
  active b = false -> cooldown b - fixedDt <= 0 ->
  forall k : nat, (1 <= k <= 80)%nat ->
    cooldown (Nat.iter k (boomerangStep fixedDt) b)
    = BOOMERANG_COOLDOWN - fixedDt * (INR k - 1).
Proof.
  intros Ha Hc k [Hk1 Hk2]. induction k as [|k IH]; [lia|].
  rewrite Nat.iter_succ, boomerangStep_cooldown.
  destruct (Nat.eq_dec k 0%nat) as [->|Hk0].
  - cbn [Nat.iter nat_rect]. unfold launches. rewrite Ha.
    rewrite (proj2 (leb_true _ _) Hc). cbn [negb andb INR]. ring.
  - destruct (cycle_closed_form b Ha Hc k) as (Hact & _); [lia|].
    rewrite (proj2 (Nat.ltb_lt k 80)) in Hact by lia.
    unfold launches. rewrite Hact. cbn [negb andb].
    rewrite IH by lia. rewrite S_INR. ring.
Qed.

Lemma cooldown_closed_form (b : Boomerang) :
  active b = false -> cooldown b - fixedDt <= 0 ->
  forall k : nat, (1 <= k <= 119)%nat ->
    let bk := Nat.iter k (boomerangStep fixedDt) b in
    cooldown bk = BOOMERANG_COOLDOWN - fixedDt * (INR k - 1)
    /\ active bk = (k <? 80)%nat
    /\ launches fixedDt bk = false.
Proof.
  intros Ha Hc k [Hk1 Hk2]. cbv zeta.
  assert (H : cooldown (Nat.iter k (boomerangStep fixedDt) b)
              = BOOMERANG_COOLDOWN - fixedDt * (INR k - 1)
              /\ active (Nat.iter k (boomerangStep fixedDt) b)
                 = (k <? 80)%nat).
  { destruct (Nat.le_gt_cases k 80) as [Hle|Hgt].
    - split; [apply cooldown_in_flight; auto; lia|].
      now apply (cycle_closed_form b Ha Hc k).
    - replace k with ((k - 80) + 80)%nat by lia.
      rewrite Nat.iter_add.
      destruct (cycle_closed_form b Ha Hc 80) as (Hact & _); [lia|].
      pose proof (cooldown_in_flight b Ha Hc 80 ltac:(lia)) as Hcd.
      cbn [Nat.ltb Nat.leb] in Hact.
      set (b80 := Nat.iter 80 (boomerangStep fixedDt) b) in *.
      assert (HR : INR (k - 80) <= 39).
      { replace 39 with (INR 39) by (rewrite INR_IZR_INZ; reflexivity).
        apply le_INR. lia. }
      assert (HR0 : 0 <= INR (k - 80)) by apply pos_INR.
      rewrite idle_closed_form.
      + cbn [cooldown active]. rewrite Hcd.
        replace (INR (k - 80 + 80)) with (INR (k - 80) + 80)
          by (rewrite plus_INR, INR_80; reflexivity).
        rewrite INR_80.
        split; [ring|]. symmetry. apply Nat.ltb_ge. lia.
      + unfold fixedDt. lra.
      + exact Hact.
      + rewrite Hcd, INR_80. unfold BOOMERANG_COOLDOWN, fixedDt. lra. }
  destruct H as (Hcd & Hact). split; [exact Hcd|]. split; [exact Hact|].
  unfold launches. rewrite Hact, Hcd.
  destruct (Nat.ltb_spec k 80) as [H80|H80]; cbn [negb andb]; [reflexivity|].
  apply leb_false.
  assert (INR k <= 119).
  { replace 119 with (INR 119) by (rewrite INR_IZR_INZ; reflexivity).
    apply le_INR. lia. }
  unfold BOOMERANG_COOLDOWN, fixedDt. lra.
Qed.

(** X15.  From a state in which the launch is due, [k] ticks later (1 to 119)
    the cooldown is [BOOMERANG_COOLDOWN] less [k - 1] steps, the projectile
    is active for the first 79 of them and idle from tick 80 on, and no
    launch is due yet: after a flight of 80 ticks the projectile rests for
    at least 40 ticks.  In exact arithmetic the cooldown reaches 0 at tick
    120 exactly, so whether that tick or the next one launches turns on
    rounding and is not stated. *)
Theorem projectile_waits_out_the_cooldown (g : Game) (es : list Event) :
  boomerangActive g = false -> boomerangCooldown g - fixedDt <= 0 ->
  (1 <= tickCount es <= 119)%nat ->
  let k := tickCount es in
  let g' := run es g in
  boomerangCooldown g' = BOOMERANG_COOLDOWN - fixedDt * (INR k - 1)
  /\ boomerangActive g' = (k <? 80)%nat
  /\ launches fixedDt (boomerangOf g') = false.
Proof.
  intros Ha Hc Hk. rewrite <- boomerangOf_active in Ha.
  rewrite <- boomerangOf_cooldown in Hc.
  pose proof (cooldown_closed_form (boomerangOf g) Ha Hc (tickCount es) Hk)
    as H.
  cbv zeta in H |- *. rewrite <- run_boomerang in H.
  rewrite boomerangOf_active, boomerangOf_cooldown in H. exact H.
Qed.

Lemma projectile_waits_out_the_cooldown_witness :
  boomerangActive gameLaunchDue = false
  /\ boomerangCooldown gameLaunchDue - fixedDt <= 0
  /\ boomerangActive
       (run (map Tick (repeat worldGrounded 100)) gameLaunchDue) = false
  /\ launches fixedDt
       (boomerangOf (run (map Tick (repeat worldGrounded 100)) gameLaunchDue))
     = false.
Proof.
  split; [exact gameLaunchDue_idle|]. split; [exact gameLaunchDue_due|].
  destruct (projectile_waits_out_the_cooldown gameLaunchDue
              (map Tick (repeat worldGrounded 100))
              gameLaunchDue_idle gameLaunchDue_due) as (_ & Hact & H).
  - rewrite tickCount_repeat. lia.
  - rewrite tickCount_repeat in Hact. split; [exact Hact|exact H].
Defined.

(** ** The jump lock of the first variant *)

Lemma MainTs_jumpLock_commit (w : World) (dt : R) (g : MainTs.Game) :
  MainTs.jumpLock (MainTs.physicsStep_commit w dt g)
  = if MainTs.isClear g then MainTs.jumpLock g
    else if MainTs.jumps (MainTs.hitOf w g) dt g then 0.1
    else if Js.gtb (MainTs.jumpLock g) 0 then MainTs.jumpLock g - dt
    else MainTs.jumpLock g.
Proof.
  unfold MainTs.physicsStep_commit, MainTs.jumps, MainTs.hitOf. cbv zeta.
  destruct (MainTs.isClear g); cbn [negb andb]; [reflexivity|].
  destruct (castRay w _ _ 1.7 && _ && _); reflexivity.
Qed.

Lemma MainTs_physicsStep_eq (w : World) (dt : R) (g : MainTs.Game) :
  let c := MainTs.physicsStep_commit w dt g in
  let pNow := translation (step w (MainTs.playerRb c)) in
  let far := MainTs.escapes w dt g in
  let clear' :=
    if far then false else MainTs.isClear g in
  MainTs.physicsStep w dt g
  = MainTs.mkGame
      (if far
       then setLinvel Vector3.zero
              (setTranslation MainTs.spawnPoint (step w (MainTs.playerRb c)))
       else step w (MainTs.playerRb c))
      (MainTs.input g) (MainTs.yaw g) (MainTs.pitch g) (MainTs.grounded c)
      (MainTs.jumpLock c)
      (clear' || Js.ltb (Vector3.distanceTo pNow MainTs.goalPos) 3.2)
      (if clear' then MainTs.clearMsg g
       else if Js.ltb (Vector3.distanceTo pNow MainTs.goalPos) 3.2
            then "CLEAR! Press R to Restart"
            else if far then "" else MainTs.clearMsg g).
Proof.
  cbv zeta. unfold MainTs.physicsStep, MainTs.escapes.
  assert (Hi : MainTs.input (MainTs.physicsStep_commit w dt g) = MainTs.input g
          /\ MainTs.yaw (MainTs.physicsStep_commit w dt g) = MainTs.yaw g
          /\ MainTs.pitch (MainTs.physicsStep_commit w dt g) = MainTs.pitch g
          /\ MainTs.isClear (MainTs.physicsStep_commit w dt g) = MainTs.isClear g
          /\ MainTs.clearMsg (MainTs.physicsStep_commit w dt g)
             = MainTs.clearMsg g).
  { unfold MainTs.physicsStep_commit. cbv zeta.
    destruct (negb (MainTs.isClear g)); [|repeat split; reflexivity].
    destruct (castRay w _ _ 1.7 && _ && _); repeat split; reflexivity. }
  destruct Hi as (Hin & Hy & Hp & Hc & Hm).
  revert Hin Hy Hp Hc Hm.
  generalize (MainTs.physicsStep_commit w dt g). intros c Hin Hy Hp Hc Hm.
  cbv zeta.
  cbn [MainTs.playerRb MainTs.input MainTs.yaw MainTs.pitch MainTs.grounded
       MainTs.jumpLock MainTs.isClear MainTs.clearMsg].
  destruct (Js.gtb _ (MainTs.PLANET_RADIUS + 30));
    unfold MainTs.resetPlayer;
    cbn [MainTs.playerRb MainTs.input MainTs.yaw MainTs.pitch MainTs.grounded
         MainTs.jumpLock MainTs.isClear MainTs.clearMsg negb andb orb].
  - destruct (Js.ltb _ 3.2);
      cbn [MainTs.playerRb MainTs.input MainTs.yaw MainTs.pitch
           MainTs.grounded MainTs.jumpLock MainTs.isClear MainTs.clearMsg];
      rewrite <- Hin, <- Hy, <- Hp; reflexivity.
  - rewrite <- Hin, <- Hy, <- Hp, <- Hc, <- Hm.
    destruct (MainTs.isClear c); cbn [negb andb orb].
    + destruct c; reflexivity.
    + destruct (Js.ltb _ 3.2); destruct c; reflexivity.
Qed.

Lemma MainTs_jumpLock_physicsStep (w : World) (dt : R) (g : MainTs.Game) :
  MainTs.jumpLock (MainTs.physicsStep w dt g)
  = MainTs.jumpLock (MainTs.physicsStep_commit w dt g).
Proof. rewrite MainTs_physicsStep_eq. reflexivity. Qed.

Lemma MainTs_lock_lower_bound (w : World) (dt L : R) (g : MainTs.Game) :
  0 <= dt -> L <= MainTs.jumpLock g -> L - dt <= 0.1 ->
  L - dt <= MainTs.jumpLock (MainTs.physicsStep w dt g).
Proof.
  intros Hdt HL H01.
  rewrite MainTs_jumpLock_physicsStep, MainTs_jumpLock_commit.
  destruct (MainTs.isClear g); [lra|].
  destruct (MainTs.jumps _ dt g); [lra|].
  destruct (Js.gtb _ 0); lra.
Qed.

Lemma MainTs_lock_after_ticks (ws : list World) (g : MainTs.Game) :
  MainTs.jumpLock g <= 0.1 + fixedDt ->
  MainTs.jumpLock g - INR (length ws) * fixedDt
  <= MainTs.jumpLock (MainTs.ticks ws g).
Proof.
  assert (Hdt : 0 <= fixedDt) by (unfold fixedDt; lra).
  revert g. induction ws as [|w ws IH]; intros g Hg.
  - cbn [length INR MainTs.ticks fold_left]. lra.
  - change (MainTs.ticks (w :: ws) g)
      with (MainTs.ticks ws (MainTs.physicsStep w fixedDt g)).
    change (length (w :: ws)) with (S (length ws)). rewrite S_INR.
    pose proof (pos_INR (length ws)) as Hn.
    pose proof (MainTs_lock_lower_bound w fixedDt (MainTs.jumpLock g) g Hdt
                  (Rle_refl _)) as Hstep.
    destruct (Rle_dec (MainTs.jumpLock (MainTs.physicsStep w fixedDt g))
                (0.1 + fixedDt)) as [Hle|Hgt].
    + specialize (IH _ Hle). specialize (Hstep ltac:(lra)). lra.
    + exfalso. apply Hgt.
      rewrite MainTs_jumpLock_physicsStep, MainTs_jumpLock_commit.
      destruct (MainTs.isClear g); [lra|].
      destruct (MainTs.jumps _ fixedDt g); [lra|].
      destruct (Js.gtb _ 0); lra.
Qed.

(** X16.  In the first variant a held Space key jumps again and again, limited
    by [jumpLock] only: after a jump set the lock to 0.1, none of the next
    five ticks jumps, whatever the world does and whether or not the goal
    is reached meanwhile; and a tick that starts with the lock at most one
    step, not cleared, with the ray hitting and Space held, jumps. *)
Theorem MainTs_jump_lock_holds_five_ticks :
  (forall (ws : list World) (g : MainTs.Game) (hit : bool),
      MainTs.jumpLock g = 0.1 -> (length ws <= 4)%nat ->
      MainTs.jumps hit fixedDt (MainTs.ticks ws g) = false)
  /\ (forall (g : MainTs.Game),
        MainTs.jumpLock g <= fixedDt -> MainTs.isClear g = false ->
        has "Space" (MainTs.input g) = true ->
        MainTs.jumps true fixedDt g = true)
  /\ (forall (w : World) (dt : R) (g : MainTs.Game),
        MainTs.jumps (MainTs.hitOf w g) dt g = true ->
        MainTs.jumpLock (MainTs.physicsStep w dt g) = 0.1).
Proof.
  split; [|split].
  - intros ws g hit Hg Hlen.
    pose proof (MainTs_lock_after_ticks ws g) as H.
    rewrite Hg in H. specialize (H ltac:(unfold fixedDt; lra)).
    assert (Hn : INR (length ws) <= 4).
    { replace 4 with (INR 4) by (rewrite INR_IZR_INZ; reflexivity).
      now apply le_INR. }
    unfold MainTs.jumps.
    set (l := MainTs.jumpLock (MainTs.ticks ws g)) in *.
    assert (Hl : fixedDt < l) by (unfold fixedDt in *; lra).
    rewrite (proj2 (gtb_true l 0)) by (unfold fixedDt in *; lra).
    rewrite (proj2 (leb_false (l - fixedDt) 0)) by lra.
    destruct hit, (negb _); reflexivity.
  - intros g Hl Hc Hs. unfold MainTs.jumps. rewrite Hc, Hs.
    cbn [negb andb]. rewrite andb_true_r.
    case_cmp (Js.gtb (MainTs.jumpLock g) 0); apply leb_true; lra.
  - intros w dt g Hj.
    rewrite MainTs_jumpLock_physicsStep, MainTs_jumpLock_commit, Hj.
    unfold MainTs.jumps in Hj. destruct (MainTs.isClear g); [discriminate|].
    reflexivity.
Qed.

Lemma MainTs_jump_lock_holds_five_ticks_witness :
  let g := MainTs.mkGame (MainTs.playerRb (MainTs.initialGame 1)) {["Space"]}
             0 0.2 false 0.1 false "" in
  MainTs.jumps true fixedDt
    (MainTs.ticks [worldGrounded; worldGrounded; worldGrounded] g) = false
  /\ MainTs.jumps true fixedDt
       (MainTs.mkGame (MainTs.playerRb (MainTs.initialGame 1)) {["Space"]}
          0 0.2 false 0 false "") = true.
Proof.
  intros g. destruct MainTs_jump_lock_holds_five_ticks as (H5 & H6 & _).
  split.
  - apply H5; [reflexivity|cbn; lia].
  - apply H6; [cbn [MainTs.jumpLock]; unfold fixedDt; lra|reflexivity|].
    unfold has. apply bool_decide_eq_true. cbn [MainTs.input]. set_solver.
Defined.

(** ** Escape in the first variant *)

Lemma MainTs_length_goalPos : Vector3.length MainTs.goalPos = 50.8.
Proof.
  unfold MainTs.goalPos. rewrite length_scaled_unit.
  - unfold MainTs.PLANET_RADIUS. lra.
  - apply length_normalize. unfold Vector3.lengthSq, MainTs.PLANET_RADIUS.
    cbn [Vector3.x Vector3.y Vector3.z]. lra.
  - unfold MainTs.PLANET_RADIUS. lra.
Qed.

(** X17.  In the first variant a tick after whose [world.step()] the player is
    more than [PLANET_RADIUS + 30] from the centre ends at the spawn point
    with zero velocity, not cleared and with the message empty: at that
    distance the goal check cannot pass.  [jumpLock] and [grounded] are as
    the tick computed them. *)
Theorem MainTs_escape_respawns (w : World) (dt : R) (g : MainTs.Game) :
  MainTs.escapes w dt g = true ->
  let g' := MainTs.physicsStep w dt g in
  translation (MainTs.playerRb g') = MainTs.spawnPoint
  /\ linvel (MainTs.playerRb g') = Vector3.zero
  /\ MainTs.isClear g' = false /\ MainTs.clearMsg g' = ""
  /\ MainTs.jumpLock g' = MainTs.jumpLock (MainTs.physicsStep_commit w dt g)
  /\ MainTs.grounded g' = MainTs.grounded (MainTs.physicsStep_commit w dt g).
Proof.
  intros He. cbv zeta. rewrite MainTs_physicsStep_eq. cbv zeta. rewrite He.
  assert (Hfar : Js.ltb
                   (Vector3.distanceTo
                      (translation
                         (step w
                            (MainTs.playerRb (MainTs.physicsStep_commit w dt g))))
                      MainTs.goalPos) 3.2 = false).
  { apply ltb_false. unfold MainTs.escapes in He. apply gtb_true in He.
    rewrite distanceTo_length.
    pose proof (length_sub_ge
                  (translation
                     (step w
                        (MainTs.playerRb (MainTs.physicsStep_commit w dt g))))
                  MainTs.goalPos) as H.
    rewrite MainTs_length_goalPos in H. unfold MainTs.PLANET_RADIUS in He.
    lra. }
  rewrite Hfar.
  cbn [MainTs.playerRb MainTs.isClear MainTs.clearMsg MainTs.jumpLock
       MainTs.grounded orb translation linvel setLinvel setTranslation].
  repeat split; reflexivity.
Qed.

Lemma MainTs_escape_respawns_witness :
  MainTs.escapes worldFlung fixedDt (MainTs.initialGame 1) = true
  /\ translation
       (MainTs.playerRb
          (MainTs.physicsStep worldFlung fixedDt (MainTs.initialGame 1)))
     = MainTs.spawnPoint.
Proof.
  assert (He : MainTs.escapes worldFlung fixedDt (MainTs.initialGame 1)
               = true).
  { unfold MainTs.escapes, worldFlung. cbn [step translation setTranslation].
    apply gtb_true. rewrite length_axis_y by lra.
    unfold MainTs.PLANET_RADIUS. lra. }
  split; [exact He|].
  exact (proj1 (MainTs_escape_respawns worldFlung fixedDt
                  (MainTs.initialGame 1) He)).
Defined.

(** ** Smoothed input *)

Lemma exp_le_1 (x : R) : x <= 0 -> 0 < exp x <= 1.
Proof.
  intros Hx. split; [apply exp_pos|].
  destruct (Req_dec_T x 0) as [->|Hne].
  - rewrite exp_0. lra.
  - rewrite <- exp_0. apply Rlt_le, exp_increasing. lra.
Qed.

Lemma smoothedInput_iter (target dt s : R) (n : nat) :
  Nat.iter n (Part000.smoothedInput target dt) s
  = target + (s - target) * exp (-10 * dt * INR n).
Proof.
  induction n as [|n IH].
  - cbn [Nat.iter nat_rect INR]. rewrite Rmult_0_r, exp_0. ring.
  - rewrite Nat.iter_succ, IH, S_INR.
    replace (-10 * dt * (INR n + 1)) with (-10 * dt * INR n + -10 * dt) by ring.
    rewrite exp_plus.
    unfold Part000.smoothedInput, Part000.lerp, Part000.smooth. ring.
Qed.

Lemma smoothedInput_iter_ne (target dt s : R) (n : nat) :
  s <> target -> Nat.iter n (Part000.smoothedInput target dt) s <> target.
Proof.
  intros Hne Heq. rewrite smoothedInput_iter in Heq. apply Hne.
  assert (H : (s - target) * exp (-10 * dt * INR n) = 0) by lra.
  apply Rmult_integral in H. pose proof (exp_pos (-10 * dt * INR n)).
  destruct H; lra.
Qed.

(** X18.  After [n] ticks with the keys unchanged, a smoothed axis has covered
    all but [exp (-10 * dt * n)] of its distance to the keys' value: it
    approaches the value without overshoot, stays within [-1, 1], and,
    unless it started there, never equals it. *)
Theorem smoothed_input_closed_form (target dt s : R) (n : nat) :
  0 <= dt ->
  let s' := Nat.iter n (Part000.smoothedInput target dt) s in
  s' - target = (s - target) * exp (-10 * dt * INR n)
  /\ Rabs (s' - target) <= Rabs (s - target)
  /\ (-1 <= s <= 1 -> -1 <= target <= 1 -> -1 <= s' <= 1)
  /\ (s <> target -> s' <> target).
Proof.
  intros Hdt. cbv zeta. rewrite smoothedInput_iter.
  set (e := exp (-10 * dt * INR n)).
  assert (He : 0 < e <= 1).
  { apply exp_le_1. pose proof (pos_INR n). nra. }
  split; [ring|]. split; [|split].
  - replace (target + (s - target) * e - target) with ((s - target) * e) by ring.
    rewrite Rabs_mult, (Rabs_pos_eq e) by lra.
    pose proof (Rabs_pos (s - target)). nra.
  - intros Hs Ht. split; nra.
  - intros Hne. fold (Rminus s target). 
    pose proof (smoothedInput_iter_ne target dt s n Hne) as H.
    rewrite smoothedInput_iter in H. exact H.
Qed.

Lemma smoothed_input_closed_form_witness :
  0 <= fixedDt
  /\ Nat.iter 2 (Part000.smoothedInput 0 fixedDt) 1 <> 0.
Proof.
  assert (Hdt : 0 <= fixedDt) by (unfold fixedDt; lra).
  split; [exact Hdt|].
  destruct (smoothed_input_closed_form 0 fixedDt 1 2 Hdt) as (_ & _ & _ & H).
  apply H. lra.
Defined.

(** ** The wish direction of the smoothed variant *)

Lemma lengthSq_lincomb (f r : Vector3.t) (a b : R) :
  Vector3.lengthSq
    (Vector3.add (Vector3.multiplyScalar f a) (Vector3.multiplyScalar r b))
  = a * a * Vector3.lengthSq f + 2 * a * b * Vector3.dot f r
    + b * b * Vector3.lengthSq r.
Proof. vec_unfold. ring. Qed.

Lemma lengthSq_crossVectors (a b : Vector3.t) :
  Vector3.lengthSq (Vector3.crossVectors a b)
  = Vector3.lengthSq a * Vector3.lengthSq b
    - Vector3.dot a b * Vector3.dot a b.
Proof. vec_unfold. ring. Qed.

Lemma dot_comm (a b : Vector3.t) : Vector3.dot a b = Vector3.dot b a.
Proof. vec_unfold. ring. Qed.

Lemma dot_crossVectors_l (a b : Vector3.t) :
  Vector3.dot (Vector3.crossVectors a b) a = 0.
Proof. vec_unfold. ring. Qed.

Lemma camera_basis_orthonormal (yaw : R) (up : Vector3.t) :
  Vector3.lengthSq up = 1 ->
  projectOnPlane (Vector3.mk (sin yaw) 0 (cos yaw)) up <> Vector3.zero ->
  Vector3.lengthSq (camForward yaw up) = 1
  /\ Vector3.lengthSq (camRight yaw up) = 1
  /\ Vector3.dot (camForward yaw up) (camRight yaw up) = 0.
Proof.
  intros Hup Hp.
  assert (Hf : Vector3.lengthSq (camForward yaw up) = 1).
  { unfold camForward. apply lengthSq_normalize.
    pose proof (lengthSq_nonneg
                  (projectOnPlane (Vector3.mk (sin yaw) 0 (cos yaw)) up)) as H.
    destruct (Req_dec_T
                (Vector3.lengthSq
                   (projectOnPlane (Vector3.mk (sin yaw) 0 (cos yaw)) up)) 0)
      as [E|E]; [apply lengthSq_zero in E; contradiction|lra]. }
  assert (Hc : Vector3.lengthSq (Vector3.crossVectors (camForward yaw up) up)
               = 1).
  { rewrite lengthSq_crossVectors, Hf, Hup, (camForward_tangent up Hup). ring. }
  split; [exact Hf|]. split.
  - unfold camRight. apply lengthSq_normalize. lra.
  - unfold camRight. rewrite dot_comm, dot_normalize_l, dot_crossVectors_l.
    ring.
Qed.

Lemma exp_INR (n : nat) : exp (INR n) = exp 1 ^ n.
Proof.
  induction n as [|n IH].
  - cbn [INR pow]. apply exp_0.
  - rewrite S_INR, exp_plus, IH. cbn [pow]. ring.
Qed.

(** Ten seconds of decay leave more than [/ 3 ^ 100] of an axis. *)
Lemma smoothing_decay_bound (n : nat) :
  (n <= 600)%nat -> / 3 ^ 100 <= exp (-10 * fixedDt * INR n).
Proof.
  intros Hn.
  assert (HR : INR n <= 600).
  { replace 600 with (INR 600) by (rewrite INR_IZR_INZ; reflexivity).
    now apply le_INR. }
  assert (H100 : exp 100 <= 3 ^ 100).
  { replace 100 with (INR 100) at 1 by (rewrite INR_IZR_INZ; reflexivity).
    rewrite exp_INR. apply pow_incr. split; [apply Rlt_le, exp_pos|].
    apply exp_le_3. }
  pose proof (exp_pos 100) as Hpos.
  apply Rle_trans with (exp (Ropp 100)).
  - rewrite exp_Ropp. apply Rinv_le_contravar; assumption.
  - destruct (Req_dec_T (-10 * fixedDt * INR n) (Ropp 100)) as [->|Hne];
      [apply Rle_refl|].
    apply Rlt_le, exp_increasing. unfold fixedDt in *. lra.
Qed.

(** X19.  In the smoothed variant the wish direction is normalised whenever it
    is not zero, so the size of the smoothed axes is lost: with a proper
    camera basis a smoothed input other than (0, 0) steers toward the full
    speed cap.  A released axis decays without reaching 0: for the first
    600 ticks (ten seconds) after the keys are released from an axis of
    size 1/2 or more, more than [/ 3 ^ 100] of each axis is left, far above
    the range in which the squared length underflows in the program's
    doubles, and the wish direction is still a unit vector. *)
Theorem smoothed_release_keeps_steering
    (sx sz yaw : R) (up : Vector3.t) (n : nat) :
  Vector3.lengthSq up = 1 ->
  projectOnPlane (Vector3.mk (sin yaw) 0 (cos yaw)) up <> Vector3.zero ->
  1 / 2 <= Rabs sx \/ 1 / 2 <= Rabs sz ->
  (n <= 600)%nat ->
  let sx' := Nat.iter n (Part000.smoothedInput 0 fixedDt) sx in
  let sz' := Nat.iter n (Part000.smoothedInput 0 fixedDt) sz in
  Rabs sx / 3 ^ 100 <= Rabs sx'
  /\ Rabs sz / 3 ^ 100 <= Rabs sz'
  /\ Vector3.length (Part000.wishDir sx' sz' yaw up) = 1.
Proof.
  intros Hup Hp Hs Hn. cbv zeta.
  destruct (camera_basis_orthonormal yaw up Hup Hp) as (Hf & Hr & Hfr).
  pose proof (smoothing_decay_bound n Hn) as He.
  set (e := exp (-10 * fixedDt * INR n)) in *.
  assert (H3 : 0 < / 3 ^ 100).
  { apply Rinv_0_lt_compat. apply pow_lt. lra. }
  assert (Hax : forall s : R,
            Nat.iter n (Part000.smoothedInput 0 fixedDt) s = s * e).
  { intros s. rewrite smoothedInput_iter. fold e. ring. }
  assert (Hlow : forall s : R, Rabs s / 3 ^ 100 <= Rabs (s * e)).
  { intros s. rewrite Rabs_mult, (Rabs_pos_eq e) by lra.
    pose proof (Rabs_pos s). unfold Rdiv. nra. }
  rewrite !Hax. split; [apply Hlow|]. split; [apply Hlow|].
  unfold Part000.wishDir. cbv zeta.
  assert (Hpos : 0 < Vector3.lengthSq
                       (Vector3.add
                          (Vector3.multiplyScalar (camForward yaw up) (sz * e))
                          (Vector3.multiplyScalar (camRight yaw up) (sx * e)))).
  { rewrite lengthSq_lincomb, Hf, Hr, Hfr.
    assert (Hsq : forall s : R, 1 / 2 <= Rabs s -> 0 < s * e * (s * e)).
    { intros s H. pose proof (Hlow s) as Hl.
      assert (0 < Rabs (s * e)) by (unfold Rdiv in Hl; nra).
      assert (Hne : s * e <> 0).
      { intros Hz. rewrite Hz, Rabs_R0 in H0. lra. }
      destruct (Rtotal_order (s * e) 0) as [?|[?|?]]; [nra|contradiction|nra]. }
    pose proof (Rle_0_sqr (sx * e)) as Hx. pose proof (Rle_0_sqr (sz * e)) as Hz.
    unfold Rsqr in Hx, Hz.
    destruct Hs as [H|H]; apply Hsq in H; lra. }
  rewrite (proj2 (gtb_true _ _)) by lra.
  now apply length_normalize.
Qed.

Lemma smoothed_release_keeps_steering_witness :
  let up := Vector3.mk 0 1 0 in
  Vector3.lengthSq up = 1
  /\ projectOnPlane (Vector3.mk (sin 0) 0 (cos 0)) up <> Vector3.zero
  /\ Vector3.length
       (Part000.wishDir (Nat.iter 600 (Part000.smoothedInput 0 fixedDt) 1)
          (Nat.iter 600 (Part000.smoothedInput 0 fixedDt) 0) 0 up) = 1.
Proof.
  intros up.
  assert (Hup : Vector3.lengthSq up = 1) by (unfold up; vec_unfold; ring).
  assert (Hp : projectOnPlane (Vector3.mk (sin 0) 0 (cos 0)) up
               <> Vector3.zero).
  { rewrite sin_0, cos_0. intros H. apply (f_equal Vector3.z) in H.
    revert H. unfold up. vec_unfold. lra. }
  assert (Hs : 1 / 2 <= Rabs 1 \/ 1 / 2 <= Rabs 0).
  { left. rewrite Rabs_pos_eq; lra. }
  split; [exact Hup|]. split; [exact Hp|].
  exact (proj2 (proj2 (smoothed_release_keeps_steering 1 0 0 up 600
                         Hup Hp Hs (le_n 600)))).
Defined.

(** ** Latitude and longitude *)

Lemma lengthSq_latLng (lat lng : R) :
  Vector3.lengthSq
    (Vector3.mk (cos lat * sin lng) (sin lat) (cos lat * cos lng)) = 1.
Proof.
  pose proof (sin2_cos2 lat) as H1. pose proof (sin2_cos2 lng) as H2.
  unfold Rsqr in H1, H2. vec_unfold. nra.
Qed.

(** X20.  [surfaceUpFromLatLng] returns a unit vector, and its [normalize] does
    nothing: the three components are the spherical ones as written.  At
    latitude [PI / 2] it is the pole (0, 1, 0) for every longitude. *)
Theorem surface_up_is_unit (lat lng : R) :
  Vector3.length (Part000.surfaceUpFromLatLng lat lng) = 1
  /\ Part000.surfaceUpFromLatLng lat lng
     = Vector3.mk (cos lat * sin lng) (sin lat) (cos lat * cos lng)
  /\ Part000.surfaceUpFromLatLng (PI / 2) lng = Vector3.mk 0 1 0.
Proof.
  assert (Hid : forall la ln,
            Part000.surfaceUpFromLatLng la ln
            = Vector3.mk (cos la * sin ln) (sin la) (cos la * cos ln)).
  { intros la ln. unfold Part000.surfaceUpFromLatLng.
    set (v := Vector3.mk _ _ _).
    assert (Hl : Vector3.length v = 1).
    { unfold Vector3.length, v. rewrite lengthSq_latLng. apply sqrt_1. }
    unfold Vector3.normalize, Vector3.divideScalar.
    rewrite normalize_divisor_length by lra. rewrite Hl.
    apply vec_eq; vec_unfold; unfold v; cbn; field. }
  split; [|split].
  - rewrite Hid. unfold Vector3.length. rewrite lengthSq_latLng. apply sqrt_1.
  - apply Hid.
  - rewrite Hid, sin_PI2, cos_PI2. f_equal; ring.
Qed.

(** ** The heading of the second script *)

(** X21.  In the second script the heading handed to the projectile is a unit
    vector for every player position, and the default (0, 0, 1) is taken
    only when the projection of the offset is exactly zero: any other
    projection, however short, is normalised to length 1 and passes the
    test. *)
Theorem Script2_heading_falls_back_only_at_zero (playerPos : Vector3.t) :
  let tf :=
    projectOnPlane (Vector3.sub playerPos Script2.enemyAnchor)
      Script2.enemyUp in
  Vector3.length (Script2.throwDir playerPos) = 1
  /\ (tf = Vector3.zero -> Script2.throwDir playerPos = Vector3.mk 0 0 1)
  /\ (tf <> Vector3.zero ->
      Script2.throwDir playerPos = Vector3.normalize tf).
Proof.
  cbv zeta. unfold Script2.throwDir, Script2.enemyForward.
  set (tf := projectOnPlane _ _).
  destruct (Req_dec_T (Vector3.lengthSq tf) 0) as [E|E].
  - apply lengthSq_zero in E. rewrite E, normalize_zero.
    assert (Hz : Vector3.lengthSq Vector3.zero = 0) by (vec_unfold; ring).
    rewrite Hz, (proj2 (gtb_false 0 0.001)) by lra.
    split; [apply length_default_heading|].
    split; [reflexivity|]. intros H. contradiction.
  - pose proof (lengthSq_nonneg tf) as Hn.
    assert (H1 : Vector3.lengthSq (Vector3.normalize tf) = 1)
      by (apply lengthSq_normalize; lra).
    rewrite H1, (proj2 (gtb_true 1 0.001)) by lra.
    split; [apply length_normalize; lra|].
    split; [|reflexivity].
    intros Hz. exfalso. apply E. rewrite Hz. vec_unfold. ring.
Qed.

Lemma Script2_heading_falls_back_only_at_zero_witness :
  Script2.throwDir Script2.enemyAnchor = Vector3.mk 0 0 1.
Proof.
  apply (proj1 (proj2 (Script2_heading_falls_back_only_at_zero
                         Script2.enemyAnchor))).
  apply vec_eq; vec_unfold; ring.
Defined.

(** ** The cycle of the second script *)

Lemma clamp_above (v lo hi : R) : lo <= hi -> hi <= v -> Js.clamp v lo hi = hi.
Proof.
  intros H1 H2. destruct (clamp_spec v lo hi) as [[? ->]|[[? ->]|[? ->]]]; lra.
Qed.

Lemma clamp_below (v lo hi : R) : lo <= hi -> v <= lo -> Js.clamp v lo hi = lo.
Proof.
  intros H1 H2. destruct (clamp_spec v lo hi) as [[? ->]|[[? ->]|[? ->]]]; lra.
Qed.

Lemma Script2_step_active (dt : R) (b : Boomerang) :
  active b = true ->
  let d :=
    Js.clamp
      (distance b + (if outward b then 1 else -1) * Script2.travelSpeed * dt)
      0 14 in
  Script2.boomerangStep dt b
  = mkBoomerang (negb (Js.leb d 0))
      (if Js.geb d 14 then false else outward b) d
      (cooldown b - dt) (if Js.leb d 0 then false else visible b).
Proof.
  intros Ha d. unfold Script2.boomerangStep, Script2.launches. rewrite Ha.
  cbn [negb andb active outward distance cooldown visible]. fold d.
  destruct (Js.leb d 0); reflexivity.
Qed.

Lemma Script2_step_launch (dt : R) (b : Boomerang) :
  active b = false -> cooldown b - dt <= 0 ->
  Script2.boomerangStep dt b
  = Script2.boomerangStep dt (mkBoomerang true true 0 (2.5 + dt) true).
Proof.
  intros Ha Hc. unfold Script2.boomerangStep at 1. unfold Script2.launches.
  rewrite Ha, (proj2 (leb_true _ _) Hc). cbn [negb andb active].
  rewrite Script2_step_active by reflexivity.
  cbn [negb active outward distance cooldown visible].
  replace (2.5 + dt - dt) with 2.5 by ring.
  destruct (Js.leb _ 0); reflexivity.
Qed.

Lemma INR_32 : INR 32 = 32.
Proof. rewrite INR_IZR_INZ. reflexivity. Qed.
Lemma INR_33 : INR 33 = 33.
Proof. rewrite INR_IZR_INZ. reflexivity. Qed.
Lemma INR_66 : INR 66 = 66.
Proof. rewrite INR_IZR_INZ. reflexivity. Qed.

Lemma Script2_cycleDistance_out (k : nat) :
  (k <= 32)%nat ->
  Script2.cycleDistance k = Script2.travelSpeed * fixedDt * INR k.
Proof.
  intros H. unfold Script2.cycleDistance.
  now rewrite (proj2 (Nat.leb_le k 32) H).
Qed.

Lemma Script2_cycleDistance_back (k : nat) :
  (33 <= k <= 65)%nat ->
  Script2.cycleDistance k
  = 14 - Script2.travelSpeed * fixedDt * (INR k - 33).
Proof.
  intros [H1 H2]. unfold Script2.cycleDistance.
  rewrite (proj2 (Nat.leb_gt k 32)) by lia.
  now rewrite (proj2 (Nat.leb_le k 65) H2).
Qed.

Lemma Script2_cycle_closed_form (b : Boomerang) :
  active b = false -> cooldown b - fixedDt <= 0 ->
  forall k : nat, (1 <= k <= 66)%nat ->
    let bk := Nat.iter k (Script2.boomerangStep fixedDt) b in
    active bk = (k <? 66)%nat
    /\ outward bk = (k <? 33)%nat
    /\ distance bk = Script2.cycleDistance k
    /\ visible bk = (k <? 66)%nat.
Proof.
  intros Ha Hc k [Hk1 Hk2]. induction k as [|k IH]; [lia|].
  cbv zeta. rewrite Nat.iter_succ.
  destruct (Nat.eq_dec k 0%nat) as [->|Hk0].
  - cbn [Nat.iter nat_rect]. rewrite Script2_step_launch by assumption.
    rewrite Script2_step_active by reflexivity.
    cbn [active outward distance visible].
    rewrite clamp_inside by (unfold Script2.travelSpeed, fixedDt; lra).
    rewrite Script2_cycleDistance_out by lia. cbn [INR].
    rewrite (proj2 (leb_false _ _))
      by (unfold Script2.travelSpeed, fixedDt; lra).
    rewrite (proj2 (geb_false _ _))
      by (unfold Script2.travelSpeed, fixedDt; lra).
    repeat split; try reflexivity. ring.
  - destruct IH as (Hact & Hout & Hdist & Hvis); [lia|lia|].
    set (bk := Nat.iter k (Script2.boomerangStep fixedDt) b) in *.
    rewrite (proj2 (Nat.ltb_lt k 66)) in Hact, Hvis by lia.
    rewrite Script2_step_active by exact Hact.
    cbn [active outward distance visible]. rewrite Hout, Hdist, Hvis.
    assert (HkR : 1 <= INR k).
    { replace 1 with (INR 1) by reflexivity. apply le_INR. lia. }
    assert (HkS : INR (S k) = INR k + 1) by apply S_INR.
    destruct (Nat.ltb_spec k 33%nat) as [H33|H33].
    + (* outbound *)
      rewrite Script2_cycleDistance_out by lia.
      assert (HR : INR k <= 32) by (rewrite <- INR_32; apply le_INR; lia).
      destruct (Nat.eq_dec k 32%nat) as [->|Hne].
      * (* the clamped peak *)
        rewrite INR_32.
        rewrite clamp_above by (unfold Script2.travelSpeed, fixedDt; lra).
        rewrite (proj2 (leb_false 14 0)) by lra.
        rewrite (proj2 (geb_true 14 14)) by lra.
        rewrite Script2_cycleDistance_back by lia. rewrite INR_33.
        cbn [negb Nat.ltb Nat.leb]. repeat split; try reflexivity. ring.
      * assert (HR' : INR k + 1 <= 32)
          by (rewrite <- HkS, <- INR_32; apply le_INR; lia).
        rewrite clamp_inside by (unfold Script2.travelSpeed, fixedDt; lra).
        rewrite (proj2 (leb_false _ _))
          by (unfold Script2.travelSpeed, fixedDt; lra).
        rewrite (proj2 (geb_false _ _))
          by (unfold Script2.travelSpeed, fixedDt; lra).
        rewrite Script2_cycleDistance_out by lia. rewrite HkS.
        rewrite (proj2 (Nat.ltb_lt (S k) 66)) by lia.
        rewrite (proj2 (Nat.ltb_lt (S k) 33)) by lia.
        cbn [negb]. repeat split; try reflexivity. ring.
    + (* inbound *)
      rewrite Script2_cycleDistance_back by lia.
      assert (HR : 33 <= INR k) by (rewrite <- INR_33; apply le_INR; lia).
      assert (HR2 : INR k <= 65) by (rewrite <- INR_65; apply le_INR; lia).
      rewrite (proj2 (Nat.ltb_ge (S k) 33)) by lia.
      destruct (Nat.eq_dec k 65%nat) as [->|Hne].
      * (* the clamped end *)
        rewrite INR_65.
        rewrite clamp_below by (unfold Script2.travelSpeed, fixedDt; lra).
        rewrite (proj2 (leb_true 0 0)) by lra.
        rewrite (proj2 (geb_false 0 14)) by lra.
        cbn [negb Nat.ltb Nat.leb]. repeat split; reflexivity.
      * assert (HR' : INR k + 1 <= 65)
          by (rewrite <- HkS, <- INR_65; apply le_INR; lia).
        rewrite clamp_inside by (unfold Script2.travelSpeed, fixedDt; lra).
        rewrite (proj2 (leb_false _ _))
          by (unfold Script2.travelSpeed, fixedDt; lra).
        rewrite (proj2 (Nat.ltb_lt (S k) 66)) by lia.
        rewrite Script2_cycleDistance_back by lia. rewrite HkS.
        cbn [negb].
        split; [reflexivity|]. split; [destruct (Js.geb _ 14); reflexivity|].
        split; [ring|reflexivity].
Qed.

(** X22.  In the second script one step of the projectile (26 / 60) does not
    divide the range 14, so both ends of a cycle are clamped: from a state
    in which the launch is due, the distance grows for 32 ticks, is cut
    from 14.3 to 14 at tick 33, where the projectile turns, shrinks for 32
    ticks, and is cut from -0.3 to 0 at tick 66, where the projectile
    stops; it never leaves [0, 14]. *)
Theorem Script2_cycle_is_clamped (b : Boomerang) (k : nat) :
  active b = false -> cooldown b - fixedDt <= 0 -> (1 <= k <= 66)%nat ->
  let bk := Nat.iter k (Script2.boomerangStep fixedDt) b in
  active bk = (k <? 66)%nat
  /\ outward bk = (k <? 33)%nat
  /\ distance bk = Script2.cycleDistance k
  /\ visible bk = (k <? 66)%nat
  /\ 0 <= distance bk <= 14
  /\ Script2.cycleDistance 32 + Script2.travelSpeed * fixedDt > 14
  /\ Script2.cycleDistance 33 = 14
  /\ Script2.cycleDistance 65 - Script2.travelSpeed * fixedDt < 0
  /\ Script2.cycleDistance 66 = 0.
Proof.
  intros Ha Hc Hk. cbv zeta.
  destruct (Script2_cycle_closed_form b Ha Hc k Hk) as (H1 & H2 & H3 & H4).
  split; [exact H1|]. split; [exact H2|]. split; [exact H3|].
  split; [exact H4|]. split.
  - rewrite H3. destruct Hk as [Hk1 Hk2].
    assert (HkR : 1 <= INR k).
    { replace 1 with (INR 1) by reflexivity. now apply le_INR. }
    destruct (Nat.le_gt_cases k 32) as [Ho|Ho].
    + rewrite Script2_cycleDistance_out by exact Ho.
      assert (INR k <= 32) by (rewrite <- INR_32; now apply le_INR).
      unfold Script2.travelSpeed, fixedDt. lra.
    + destruct (Nat.le_gt_cases k 65) as [Hb|Hb].
      * rewrite Script2_cycleDistance_back by lia.
        assert (33 <= INR k) by (rewrite <- INR_33; apply le_INR; lia).
        assert (INR k <= 65) by (rewrite <- INR_65; now apply le_INR).
        unfold Script2.travelSpeed, fixedDt. lra.
      * unfold Script2.cycleDistance.
        rewrite (proj2 (Nat.leb_gt k 32)), (proj2 (Nat.leb_gt k 65)) by lia.
        lra.
  - rewrite Script2_cycleDistance_out by lia.
    rewrite !Script2_cycleDistance_back by lia.
    rewrite INR_32, INR_33, INR_65.
    unfold Script2.travelSpeed, fixedDt.
    repeat split; lra.
Qed.

Lemma Script2_cycle_is_clamped_witness :
  let b := mkBoomerang false true 0 (1 / 60) false in
  active b = false /\ cooldown b - fixedDt <= 0
  /\ distance (Nat.iter 33 (Script2.boomerangStep fixedDt) b) = 14
  /\ active (Nat.iter 66 (Script2.boomerangStep fixedDt) b) = false.
Proof.
  intros b.
  assert (Hc : cooldown b - fixedDt <= 0)
    by (unfold b, fixedDt; cbn [cooldown]; lra).
  split; [reflexivity|]. split; [exact Hc|]. split.
  - destruct (Script2_cycle_is_clamped b 33 eq_refl Hc ltac:(lia))
      as (_ & _ & H3 & _ & _ & _ & H33 & _).
    rewrite H3. exact H33.
  - destruct (Script2_cycle_is_clamped b 66 eq_refl Hc ltac:(lia))
      as (H1 & _).
    exact H1.
Defined.

(** ** The projection *)

(** X23.  For a unit normal [projectOnPlane] is the orthogonal projection: its
    result is tangent, projecting again changes nothing, the removed part
    is the normal component, and the squared lengths obey Pythagoras.  With
    the zero vector as normal (the player at the centre) it returns its
    argument. *)
Theorem projection_is_orthogonal (v n : Vector3.t) :
  Vector3.lengthSq n = 1 ->
  Vector3.dot (projectOnPlane v n) n = 0
  /\ projectOnPlane (projectOnPlane v n) n = projectOnPlane v n
  /\ Vector3.add (projectOnPlane v n)
       (Vector3.multiplyScalar n (Vector3.dot v n)) = v
  /\ Vector3.lengthSq (projectOnPlane v n)
     = Vector3.lengthSq v - Vector3.dot v n * Vector3.dot v n
  /\ Vector3.length (projectOnPlane v n) <= Vector3.length v
  /\ projectOnPlane v Vector3.zero = v.
Proof.
  intros Hn.
  assert (Ht : Vector3.dot (projectOnPlane v n) n = 0)
    by now apply dot_projectOnPlane.
  assert (Hsq : Vector3.lengthSq (projectOnPlane v n)
                = Vector3.lengthSq v - Vector3.dot v n * Vector3.dot v n).
  { unfold projectOnPlane.
    transitivity (Vector3.lengthSq v
                  - 2 * Vector3.dot v n * Vector3.dot v n
                  + Vector3.dot v n * Vector3.dot v n * Vector3.lengthSq n).
    - vec_unfold. ring.
    - rewrite Hn. ring. }
  split; [exact Ht|]. split; [|split; [|split; [|split]]].
  - unfold projectOnPlane at 1. rewrite Ht.
    apply vec_eq; vec_unfold; ring.
  - destruct v, n. apply vec_eq; vec_unfold; ring.
  - exact Hsq.
  - unfold Vector3.length. apply sqrt_le_1_alt. rewrite Hsq.
    pose proof (Rle_0_sqr (Vector3.dot v n)) as H. unfold Rsqr in H. lra.
  - destruct v. apply vec_eq; vec_unfold; ring.
Qed.

Lemma projection_is_orthogonal_witness :
  Vector3.lengthSq (Vector3.mk 0 1 0) = 1
  /\ projectOnPlane (Vector3.mk 3 4 5) (Vector3.mk 0 1 0) = Vector3.mk 3 0 5.
Proof.
  assert (Hn : Vector3.lengthSq (Vector3.mk 0 1 0) = 1) by (vec_unfold; ring).
  split; [exact Hn|].
  destruct (projection_is_orthogonal (Vector3.mk 3 4 5) (Vector3.mk 0 1 0) Hn)
    as (_ & <- & _).
  apply vec_eq; vec_unfold; ring.
Defined.
